(** * Myagi/django-api: filter-set generation, field selection, polymorphic
      dispatch and the CSV text patch, verified over a shallow embedding.

    The development follows the layout of the repository:
    - [pystr]: the Python 2 [str] built-ins the code calls
      ([in], [split], [join], [replace]);
    - [python]: exceptions, results, and the monad of state and exceptions;
    - [model_meta]: the field metadata the framework hands out;
    - [renderers]: [simple-api/renderers.py];
    - [serializers]: [serializers.py];
    - [filters]: [filters.py], and [filters_pure], its reading without the
      memo table;
    - [example]: a small project of models and fields to run it all on.

    Definitions come first, theorems follow. *)

From stdpp Require Import gmap strings list fin_maps.
From Stdlib Require Import Ascii.

Local Open Scope char_scope.
Local Open Scope stdpp_scope.

(** ** Python [str] built-ins *)

Module pystr.

(** [s.startswith(p)]. *)
Fixpoint startswith (p s : string) : bool :=
  match p, s with
  | EmptyString, _ => true
  | String a p', String b s' => if Ascii.eqb a b then startswith p' s' else false
  | String _ _, EmptyString => false
  end.

(** [sub in s]: substring test. *)
Fixpoint contains (sub s : string) : bool :=
  match s with
  | EmptyString => startswith sub s
  | String _ s' => startswith sub s || contains sub s'
  end.

(** The relation behind [in]: [p] occurs in [s]. *)
Definition occurs (p s : string) : Prop := exists l r, s = l +:+ p +:+ r.

(** [s.split(sep)] for a non-empty [sep] (Python raises [ValueError] on
    an empty separator; every separator of this code base is a non-empty
    constant).  The scan goes left to right; [skip] counts the characters
    of a separator occurrence that are still to be stepped over. *)
Fixpoint split_from (sep : string) (skip : nat) (s : string) : list string :=
  match s with
  | EmptyString => [EmptyString]
  | String c s' =>
      match skip with
      | S k => split_from sep k s'
      | O =>
          if startswith sep s
          then EmptyString :: split_from sep (String.length sep - 1) s'
          else match split_from sep 0 s' with
               | w :: ws => String c w :: ws
               | [] => [String c EmptyString]
               end
      end
  end.

Definition split (sep s : string) : list string := split_from sep 0 s.

(** [sep.join(parts)]. *)
Fixpoint join (sep : string) (parts : list string) : string :=
  match parts with
  | [] => EmptyString
  | [w] => w
  | w :: ws => w +:+ sep +:+ join sep ws
  end.

(** [s.replace(old, new)] for a non-empty [old]: every occurrence found by
    the left-to-right, non-overlapping scan is replaced, in one pass. *)
Fixpoint replace_from (old new : string) (skip : nat) (s : string) : string :=
  match s with
  | EmptyString => EmptyString
  | String c s' =>
      match skip with
      | S k => replace_from old new k s'
      | O =>
          if startswith old s
          then new +:+ replace_from old new (String.length old - 1) s'
          else String c (replace_from old new 0 s')
      end
  end.

Definition replace (old new s : string) : string := replace_from old new 0 s.

(** Truthiness of a string: [bool(s)]. *)
Definition truthy (s : string) : bool :=
  match s with EmptyString => false | String _ _ => true end.

(** The text [p] stands at the start of some line of [s]: at the very
    beginning, or right after a line feed. *)
Definition line_starts_with (p s : string) : bool :=
  startswith p s || contains (String "010" p) s.

(** The characters of [s] that [keep] lets through, in their order. *)
Fixpoint keep_chars (keep : ascii -> bool) (s : string) : string :=
  match s with
  | EmptyString => EmptyString
  | String c s' =>
      if keep c then String c (keep_chars keep s') else keep_chars keep s'
  end.

End pystr.

(** ** Exceptions, results and the state-and-exception monad *)

Module python.

(** The exceptions the modelled code raises or lets through. *)
Inductive exn :=
  | AttributeError (msg : string)
  | IndexError
  | KeyError (key : string)
  | TypeError (msg : string)
  | AssertionError (msg : string)
  | Exception (msg : string).

(** What a call comes to: a value, a raised exception, or (for the
    functions defined by recursion on a step budget) an exhausted budget. *)
Inductive result (A : Type) :=
  | Ok (a : A)
  | Raise (e : exn)
  | OutOfFuel.
Global Arguments Ok {A} a.
Global Arguments Raise {A} e.
Global Arguments OutOfFuel {A}.

(** Computations over a mutable state [S] that may raise. *)
Definition st (S A : Type) : Type := S -> result A * S.

Definition ret {S A : Type} (a : A) : st S A := fun s => (Ok a, s).
Definition raise {S A : Type} (e : exn) : st S A := fun s => (Raise e, s).
Definition out_of_fuel {S A : Type} : st S A := fun s => (OutOfFuel, s).
Definition bind {S A B : Type} (c : st S A) (k : A -> st S B) : st S B :=
  fun s =>
    match c s with
    | (Ok a, s') => k a s'
    | (Raise e, s') => (Raise e, s')
    | (OutOfFuel, s') => (OutOfFuel, s')
    end.
Definition get {S : Type} : st S S := fun s => (Ok s, s).
Definition put {S : Type} (s : S) : st S unit := fun _ => (Ok tt, s).

(** A [for] loop over [l] that threads the loop state [acc]. *)
Fixpoint for_each {S A B : Type} (l : list A) (body : A -> B -> st S B)
    (acc : B) : st S B :=
  match l with
  | [] => ret acc
  | x :: l' => bind (body x acc) (for_each l' body)
  end.

End python.

Notation "x <- c ;; k" := (python.bind c (fun x => k))
  (at level 20, c at level 99, k at level 200, only parsing).
Notation "' pat <- c ;; k" := (python.bind c (fun x => match x with pat => k end))
  (at level 20, pat pattern, c at level 99, k at level 200, only parsing).

(** ** What [rest_framework.utils.model_meta.get_field_info] returns *)

Module model_meta.
Section info.
Context {Model ModelField : Type}.

Record RelationInfo := {
  model_field : option ModelField;
  related_model : option Model;
  to_many : bool
}.

Record FieldInfo := {
  fields_and_pk : gmap string ModelField;
  relations : gmap string RelationInfo
}.
End info.
Global Arguments RelationInfo : clear implicits.
Global Arguments FieldInfo : clear implicits.
End model_meta.
(** ** [simple-api/renderers.py] *)

Module renderers.

Definition ERRONEOUS_STR_1 : string := "None,,".
Definition CORRECT_STR_1 : string := ",,".
Definition ERRONEOUS_STR_2 : string := "None,".
Definition CORRECT_STR_2 : string := ",".

(** [t] is [s] with occurrences of the word [None] taken out, each of
    them from right before a comma of [t]; every other character of [s]
    stands in [t], in its place. *)
Inductive strips_none : string -> string -> Prop :=
  | strips_nil : strips_none "" ""
  | strips_keep (c : ascii) (s t : string) :
      strips_none s t -> strips_none (String c s) (String c t)
  | strips_drop (s t : string) :
      strips_none s t -> pystr.startswith "," t = true ->
      strips_none ("None" +:+ s) t.

Section PandasCSVRenderer.
(** The base class's [render] (called through [super]) is
    rest_pandas code: any function from the call's arguments to text. *)
Context {Args : Type}.
Variable super_render : Args -> string.

Definition render (args : Args) : string :=
  let out := super_render args in
  let out := pystr.replace ERRONEOUS_STR_1 CORRECT_STR_1 out in
  let out := pystr.replace ERRONEOUS_STR_2 CORRECT_STR_2 out in
  out.
End PandasCSVRenderer.

End renderers.

(** ** [serializers.py] *)

Module serializers.

Definition RELATED_FIELD_SEPARATOR : string := ".".
Definition ALL_FIELDS_SPECIFIER : string := "*".
Definition FIELDS_DIVIDER : string := ",".

(** *** Serializer fields, requests and the serializer context *)

Section fields.
(** [FieldState] stands for everything a field object holds besides the
    two attributes the code looks at. *)
Context {FieldState : Type}.

(** The [child_relation] of a list of related fields.  An attribute that
    [hasattr] does not find is [None]. *)
Record Relation := {
  relation_state : FieldState;
  child_requested_fields : option (list string)
}.

Record Field := {
  field_state : FieldState;
  requested_fields : option (list string);
  child_relation : option Relation
}.

(** A request: [query_params] exists on the framework's own request
    class only, [GET] on every request. *)
Record Request := {
  query_params : option (gmap string string);
  GET : gmap string string
}.

(** The two entries of [self.context] the code reads.  A missing key is
    [None]; [requested_fields], when present, is a list of paths. *)
Record Context := {
  context_request : option Request;
  context_requested_fields : option (list string)
}.

(** [getattr(request, "query_params", request.GET)] *)
Definition request_params (request : Request) : gmap string string :=
  default (GET request) (query_params request).

(** The value of [fields_in_request] as far as [if fields:] tells it
    apart: a non-empty [fields] parameter is split at the commas; a
    missing request, a missing parameter and an empty parameter (left
    unsplit by the code) are all falsy and stand as [None]. *)
Definition fields_in_request (context : Context) : option (list string) :=
  match context_request context with
  | Some request =>
      match request_params request !! "fields" with
      | Some fields_in_request =>
          if pystr.truthy fields_in_request
          then Some (pystr.split FIELDS_DIVIDER fields_in_request)
          else None
      | None => None
      end
  | None => None
  end.

(** [self.context.get("requested_fields", fields_in_request)] *)
Definition requested (context : Context) : option (list string) :=
  match context_requested_fields context with
  | Some fields => Some fields
  | None => fields_in_request context
  end.

(** First loop: the first segment of every requested path. *)
Definition relevant_fields (fields : list string) : list string :=
  flat_map
    (fun field =>
       match pystr.split RELATED_FIELD_SEPARATOR field with
       | field :: _ => [field]
       | [] => []          (* [IndexError]: pass *)
       end)
    fields.

(** The pops of the fields dictionary, one per name of
    [existing - allowed]. *)
Definition drop_fields (all_fields : gmap string Field)
    (relevant : list string) : gmap string Field :=
  let allowed : gset string := list_to_set relevant in
  let existing : gset string := dom all_fields in
  set_fold (fun field_name all_fields => delete field_name all_fields)
    all_fields (existing ∖ allowed).

(** One round of the loop that fills [fields_to_expand_map]. *)
Definition expand_entry (fields_to_expand_map : gmap string (list string))
    (field : string) : gmap string (list string) :=
  let field_parts := pystr.split RELATED_FIELD_SEPARATOR field in
  if bool_decide (1 < length field_parts) then
    match field_parts with
    | key :: rest =>
        let fields_to_expand_map :=
          match fields_to_expand_map !! key with
          | None => <[key := []]> fields_to_expand_map
          | Some _ => fields_to_expand_map
          end in
        alter (fun l => l ++ [pystr.join RELATED_FIELD_SEPARATOR rest])
          key fields_to_expand_map
    | [] => fields_to_expand_map
    end
  else fields_to_expand_map.

Definition fields_to_expand (fields : list string) : gmap string (list string) :=
  foldl expand_entry ∅ fields.

(** The body of the last loop: where [requested_fields] is written. *)
Definition set_requested_fields (requested_fields' : list string)
    (val : Field) : Field :=
  match requested_fields val with
  | Some _ =>
      {| field_state := field_state val;
         requested_fields := Some requested_fields';
         child_relation := child_relation val |}
  | None =>
      match child_relation val with
      | Some rel =>
          match child_requested_fields rel with
          | Some _ =>
              {| field_state := field_state val;
                 requested_fields := None;
                 child_relation :=
                   Some {| relation_state := relation_state rel;
                           child_requested_fields := Some requested_fields' |} |}
          | None => val
          end
      | None => val
      end
  end.

(** [ModelSerializer._process_fields_based_on_context].  The fields of
    the dictionary are mutated in place; every name is bound to a field
    object of its own, so the dictionary of the updated fields describes
    the outcome. *)
Definition _process_fields_based_on_context (context : Context)
    (all_fields : gmap string Field) : gmap string Field :=
  match requested context with
  | Some ((_ :: _) as fields) =>
      let relevant_fields := relevant_fields fields in
      let all_fields :=
        if bool_decide (ALL_FIELDS_SPECIFIER ∈ fields)
        then all_fields
        else drop_fields all_fields relevant_fields in
      let fields_to_expand_map := fields_to_expand fields in
      map_imap
        (fun key val =>
           let requested_fields := default [] (fields_to_expand_map !! key) in
           Some (set_requested_fields requested_fields val))
        all_fields
  | _ => all_fields
  end.

(** [ModelSerializer.get_fields]; [super_get_fields] is the dictionary
    the framework's [get_fields] returns. *)
Definition get_fields (context : Context)
    (super_get_fields : gmap string Field) : gmap string Field :=
  let fields := super_get_fields in
  let fields := _process_fields_based_on_context context fields in
  fields.

(** The sub-paths requested for [key], in the words of the
    specification: the paths after the first segment of every requested
    path that starts with [key] and goes on. *)
Definition sub_paths (fields : list string) (key : string) : list string :=
  flat_map
    (fun field =>
       match pystr.split RELATED_FIELD_SEPARATOR field with
       | key' :: ((_ :: _) as rest) =>
           if bool_decide (key' = key)
           then [pystr.join RELATED_FIELD_SEPARATOR rest] else []
       | _ => []
       end)
    fields.

(** What an expandable field carries as its nested request: its own
    [requested_fields], or else that of its [child_relation]. *)
Definition nested_request (val : Field) : option (list string) :=
  match requested_fields val with
  | Some l => Some l
  | None => rel ← child_relation val; child_requested_fields rel
  end.

Definition expandable (val : Field) : Prop := is_Some (nested_request val).

End fields.

Global Arguments Relation : clear implicits.
Global Arguments Field : clear implicits.

(** *** [ModelSerializer.build_obj] *)

Section build_obj.
Import python model_meta.
Context {Model ModelField Value Instance : Type}.

(** The dictionaries alive during the call, by address: the caller's
    [data] and the copy live in the same store. *)
Local Abbreviation pydict := (gmap string Value).
Local Abbreviation heap := (gmap nat (gmap string Value)).

Record Serializer := {
  class_name : string;             (* [self.__class__.__name__] *)
  Meta_model : Model;              (* [self.Meta.model] *)
  validated_data : option nat      (* the dictionary behind
                                      [self.validated_data], once
                                      [is_valid()] has run *)
}.

(** Framework code the method calls. *)
Variable get_field_info : Model -> FieldInfo Model ModelField.
Variable model_name : Model -> string.            (* [ModelClass.__name__] *)
(** [raise_errors_on_nested_writes]: the message of the failed
    assertion, if any; it only reads the dictionary. *)
Variable raise_errors_on_nested_writes :
  string -> Serializer -> pydict -> option string.
(** The call of [ModelClass] with the items as keyword arguments: the
    instance, or the text of the [TypeError]. *)
Variable model_init : Model -> pydict -> Instance + string.

Definition dict_at (h : heap) (d : nat) : pydict := default ∅ (h !! d).

(** [copy.copy(d)]: a new dictionary with the items of [d]. *)
Definition copy_copy (d : nat) : st heap nat :=
  fun h =>
    let d' := fresh (dom h) in
    (Ok d', <[d' := dict_at h d]> h).

Definition dict_read (d : nat) : st heap pydict :=
  fun h => (Ok (dict_at h d), h).

(** [d.pop(key)] *)
Definition dict_pop (d : nat) (key : string) : st heap Value :=
  fun h =>
    match dict_at h d !! key with
    | Some v => (Ok v, <[d := delete key (dict_at h d)]> h)
    | None => (Raise (KeyError key), h)
    end.

(** A computation that writes to no dictionary but the one at [v]. *)
Definition touches_only {A : Type} (v : nat) (c : st heap A) : Prop :=
  forall (h : heap) (d : nat), d <> v -> (c h).2 !! d = h !! d.

(** One round of the loop over [info.relations.items()]. *)
Definition pop_to_many (validated_data : nat)
    (item : string * RelationInfo Model ModelField)
    (many_to_many : pydict) : st heap pydict :=
  let '(field_name, relation_info) := item in
  contents <- dict_read validated_data ;;
  if to_many relation_info && bool_decide (is_Some (contents !! field_name))
  then (v <- dict_pop validated_data field_name ;;
        ret (<[field_name := v]> many_to_many))
  else ret many_to_many.

Definition type_error_message (ModelClass : Model) (self : Serializer)
    (exc : string) : string :=
  "Got a `TypeError` when calling `" +:+ model_name ModelClass +:+
  ".objects.create()`. This may be because you have a writable field on the serializer class that is not a valid argument to `" +:+
  model_name ModelClass +:+
  ".objects.create()`. You may need to make the field read-only, or override the " +:+
  class_name self +:+
  ".create() method to handle this correctly." +:+ String "010" "" +:+
  "Original exception text was: " +:+ exc +:+ ".".

Definition build_obj (self : Serializer) (data : option nat)
    : st heap Instance :=
  data <- match data with
          | None =>
              match validated_data self with
              | Some d => ret d
              | None => raise (AssertionError "You must call `.is_valid()` before accessing `.validated_data`.")
              end
          | Some d => ret d
          end ;;
  validated_data <- copy_copy data ;;
  contents <- dict_read validated_data ;;
  _ <- match raise_errors_on_nested_writes "create" self contents with
       | Some msg => raise (AssertionError msg)
       | None => ret tt
       end ;;
  let ModelClass := Meta_model self in
  let info := get_field_info ModelClass in
  many_to_many <-
    for_each (map_to_list (relations info)) (pop_to_many validated_data) ∅ ;;
  kwargs <- dict_read validated_data ;;
  match model_init ModelClass kwargs with
  | inl instance => ret instance
  | inr exc => raise (TypeError (type_error_message ModelClass self exc))
  end.

End build_obj.

(** *** [ModelSerializer.call_model_clean_using_data] *)

Section call_model_clean_using_data.
Import python model_meta.
Context {Model ModelField Value Instance Cleaned : Type}.

Local Abbreviation pydict := (gmap string Value).
Local Abbreviation heap := (gmap nat (gmap string Value)).

(** Django's [ValidationError], as far as the handler reads it: its
    [message] attribute. *)
Record DjangoValidationError := { message : string }.

(** What the method comes to: what [python.result] covers, or the
    framework's own [serializers.ValidationError] with its detail. *)
Inductive clean_result :=
  | Completed (r : result Cleaned)
  | RaiseValidationError (detail : string).

Variable get_field_info : Model -> FieldInfo Model ModelField.
Variable model_name : Model -> string.
Variable raise_errors_on_nested_writes :
  string -> Serializer (Model:=Model) -> pydict -> option string.
Variable model_init : Model -> pydict -> Instance + string.
(** The model's [clean()]: what it returns or raises, Django's
    [ValidationError] apart, or that error. *)
Variable clean : Instance -> result Cleaned + DjangoValidationError.

Definition call_model_clean_using_data (self : Serializer) (data : option nat)
    : heap -> clean_result * heap :=
  fun h =>
    match build_obj get_field_info model_name raise_errors_on_nested_writes
            model_init self data h with
    | (Ok instance, h') =>
        match clean instance with
        | inl r => (Completed r, h')
        | inr e => (RaiseValidationError (message e), h')
        end
    | (Raise e, h') => (Completed (Raise e), h')
    | (OutOfFuel, h') => (Completed OutOfFuel, h')
    end.

(** The keyword arguments the model class is called with: the items of
    the data whose key is not a to-many relation of the model. *)
Definition constructor_kwargs (info : FieldInfo Model ModelField)
    (data : pydict) : pydict :=
  filter (fun item => to_many <$> relations info !! item.1 <> Some true) data.

End call_model_clean_using_data.

(** *** [PolymorphicModelSerializer.to_representation] *)

Section PolymorphicModelSerializer.
Import python.
Context {Model Obj Repr Ctx : Type} `{Countable Model}.

(** A serializer class of [Meta.subtype_serializers]: its [Meta.model],
    and what an instance built for [obj] with [context] represents it
    as. *)
Record SerializerClass := {
  subtype_model : Model;
  subtype_to_representation : Ctx -> Obj -> Repr
}.

Variable isinstance : Obj -> Model -> bool.
(** The order in which a dictionary hands out its keys. *)
Variable iterkeys : gmap Model SerializerClass -> list Model.
(** The representation of the base class. *)
Variable super_to_representation : Obj -> Repr.

Definition subtype_serializers_map (subtype_serializers : list SerializerClass)
    : gmap Model SerializerClass :=
  foldl (fun m subtype_serializer =>
           <[subtype_model subtype_serializer := subtype_serializer]> m)
    ∅ subtype_serializers.

(** The second loop, up to its [return]. *)
Fixpoint dispatch (subtype_serializers_map : gmap Model SerializerClass)
    (context : Ctx) (obj : Obj) (models : list Model) : option (result Repr) :=
  match models with
  | [] => None
  | model :: models =>
      if isinstance obj model then
        match subtype_serializers_map !! model with
        | Some serializer =>
            Some (Ok (subtype_to_representation serializer context obj))
        | None => Some (Raise (KeyError ""))
        end
      else dispatch subtype_serializers_map context obj models
  end.

Definition to_representation (subtype_serializers : list SerializerClass)
    (context : Ctx) (obj : Obj) : result Repr :=
  let subtype_serializers_map := subtype_serializers_map subtype_serializers in
  match dispatch subtype_serializers_map context obj
          (iterkeys subtype_serializers_map) with
  | Some r => r
  | None => Ok (super_to_representation obj)
  end.

End PolymorphicModelSerializer.

End serializers.

(** ** [filters.py] *)

Module filters.

Definition RELATED_FIELD_SEP : string := "__".

(** *** [DjangoFilterBackend] *)

Section DjangoFilterBackend.
Context {Request View QuerySet : Type}.

(** Framework code: [filter_queryset] of the framework's backend, and
    the [distinct()] method of the ORM's querysets. *)
Variable super_filter_queryset : Request -> QuerySet -> View -> QuerySet.
Variable distinct : QuerySet -> QuerySet.

Definition filter_queryset (request : Request) (queryset : QuerySet)
    (view : View) : QuerySet :=
  let qs := super_filter_queryset request queryset view in
  distinct qs.
End DjangoFilterBackend.

(** *** [create_filter_class] *)

Section create_filter_class.
Import python model_meta.
Context {Model ModelField ExtraFilter : Type} `{Countable Model}.

(** The filters declared on a generated class, and the class itself:
    its [Meta.model] and [Meta.fields], the attributes the metaclass adds
    ([class_attrs]) and the extra filter functions ([kwargs]). *)
Inductive Filter :=
  | AllLookupsFilter (name : string)
  | RelatedFilter (filterset : FilterSet) (name : string)
with FilterSet :=
  | AllLookupsFilterSet (model : option Model) (fields : list string)
      (class_attrs : gmap string Filter) (kwargs : gmap string ExtraFilter).

Definition Meta_model (cls : FilterSet) : option Model :=
  match cls with AllLookupsFilterSet model _ _ _ => model end.
Definition Meta_fields (cls : FilterSet) : list string :=
  match cls with AllLookupsFilterSet _ fields _ _ => fields end.
Definition declared_filters (cls : FilterSet) : gmap string Filter :=
  match cls with AllLookupsFilterSet _ _ class_attrs _ => class_attrs end.
Definition extra_filters (cls : FilterSet) : gmap string ExtraFilter :=
  match cls with AllLookupsFilterSet _ _ _ kwargs => kwargs end.

(** Framework code. *)
Variable get_field_info : Model -> FieldInfo Model ModelField.
(** How a model class prints under [%s]. *)
Variable model_str : Model -> string.
(** The order in which [related_fields.iteritems()] hands out its
    items. *)
Variable iteritems :
  gmap string (list string) -> list (string * list string).
(** The creation of the class by the framework's metaclass and the two
    instantiations that follow it: the exception they end in, if any. *)
Variable filterset_init : FilterSet -> option exn.

(** The module-level [_field_info_cache]. *)
Local Abbreviation Cache := (gmap Model (FieldInfo Model ModelField)).

(** [Model] is [None] when a relation did not resolve; the framework's
    [get_field_info] then fails on [None._meta]. *)
Definition _get_field_info (Model' : option Model)
    : st Cache (FieldInfo Model ModelField) :=
  match Model' with
  | None => raise (AttributeError "'NoneType' object has no attribute '_meta'")
  | Some m =>
      _field_info_cache <- get ;;
      match _field_info_cache !! m with
      | Some info => ret info
      | None =>
          let info := get_field_info m in
          _ <- put (<[m := info]> _field_info_cache) ;;
          ret info
      end
  end.

Definition _get_related_model (Model' : option Model) (field_name : string)
    : st Cache (option Model) :=
  info <- _get_field_info Model' ;;
  match relations info !! field_name with
  | Some relation_info => ret (related_model relation_info)
  | None => ret None             (* [KeyError] *)
  end.

Definition _get_model_field (Model' : option Model) (field_name : string)
    : st Cache (option (ModelField + RelationInfo Model ModelField)) :=
  info <- _get_field_info Model' ;;
  match fields_and_pk info !! field_name with
  | Some field => ret (Some (inl field))
  | None => ret (inr <$> relations info !! field_name)
  end.

(** The body of the first loop, on [args] and [related_fields]. *)
Definition related_fields_step (Model' : option Model) (f : string)
    (state : list string * gmap string (list string))
    : st Cache (list string * gmap string (list string)) :=
  let '(args, related_fields) := state in
  is_related <-
    (if pystr.contains RELATED_FIELD_SEP f then ret true
     else (related_model <- _get_related_model Model' f ;;
           ret (bool_decide (is_Some related_model)))) ;;
  if is_related : bool then
    let parts := pystr.split RELATED_FIELD_SEP f in
    match parts with
    | fname :: _ =>
        let related_fields :=
          match related_fields !! fname with
          | None => <[fname := []]> related_fields
          | Some _ => related_fields
          end in
        let args :=
          if bool_decide (fname ∈ args) then args else args ++ [fname] in
        let rest := pystr.join RELATED_FIELD_SEP (tail parts) in
        let related_fields :=
          if pystr.truthy rest
          then alter (fun l => l ++ [rest]) fname related_fields
          else related_fields in
        ret (args, related_fields)
    | [] => raise IndexError
    end
  else ret (args, related_fields).

(** [for f in args] while the body appends to [args]: the loop goes by
    index and also visits what was appended. *)
Fixpoint related_fields_loop (fuel : nat) (Model' : option Model) (i : nat)
    (state : list string * gmap string (list string))
    : st Cache (list string * gmap string (list string)) :=
  match state.1 !! i with
  | None => ret state
  | Some f =>
      match fuel with
      | O => out_of_fuel
      | S fuel =>
          state <- related_fields_step Model' f state ;;
          related_fields_loop fuel Model' (S i) state
      end
  end.

Definition missing_field_message (f : string) (Model' : option Model) : string :=
  "Field '" +:+ f +:+
  "' specified in create_filter_class func does not exist on " +:+
  match Model' with Some m => model_str m | None => "None" end.

Definition validate_field (Model' : option Model) (f : string) : st Cache unit :=
  field <- _get_model_field Model' f ;;
  match field with
  | Some _ => ret tt
  | None => raise (Exception (missing_field_message f Model'))
  end.

(** The body of the loop that fills [class_attrs] and
    [fields_on_model]. *)
Definition class_attrs_step (Model' : option Model)
    (related_classes : gmap string FilterSet) (f : string)
    (state : list string * gmap string Filter)
    : st Cache (list string * gmap string Filter) :=
  let '(fields_on_model, class_attrs) := state in
  if pystr.contains RELATED_FIELD_SEP f then ret state    (* continue *)
  else
    _ <- validate_field Model' f ;;
    let class_attrs :=
      match related_classes !! f with
      | Some related_class => <[f := RelatedFilter related_class f]> class_attrs
      | None => <[f := AllLookupsFilter f]> class_attrs
      end in
    ret (fields_on_model ++ [f], class_attrs).

Fixpoint create_filter_class_rec (fuel : nat) (Model' : option Model)
    (args : list string) (kwargs : gmap string ExtraFilter)
    : st Cache FilterSet :=
  match fuel with
  | O => out_of_fuel
  | S fuel =>
      '(args, related_fields) <-
        related_fields_loop (2 * length args) Model' 0 (args, ∅) ;;
      related_classes <-
        for_each (iteritems related_fields)
          (fun '(f, model_fields) (related_classes : gmap string FilterSet) =>
             rel_model <- _get_related_model Model' f ;;
             related_class <- create_filter_class_rec fuel rel_model model_fields ∅ ;;
             ret (<[f := related_class]> related_classes))
          ∅ ;;
      '(fields_on_model, class_attrs) <-
        for_each args (class_attrs_step Model' related_classes) ([], ∅) ;;
      let cls := AllLookupsFilterSet Model' fields_on_model class_attrs kwargs in
      match filterset_init cls with
      | Some e => raise e
      | None => ret cls
      end
  end.

(** The recursion goes down along the paths: every nested call gets
    strictly shorter paths. *)
Definition depth (args : list string) : nat :=
  max_list ((fun f => S (String.length f)) <$> args).

Definition create_filter_class (Model' : option Model) (args : list string)
    (kwargs : gmap string ExtraFilter) : st Cache FilterSet :=
  create_filter_class_rec (S (depth args)) Model' args kwargs.

End create_filter_class.

Global Arguments Filter : clear implicits.
Global Arguments FilterSet : clear implicits.

End filters.

(** ** A small project to run the definitions on *)

Module example.
Import python model_meta filters.

(** Models are named; fields carry their column type. *)
Definition post_info : FieldInfo string string :=
  {| fields_and_pk := {[ "pk" := "AutoField"; "id" := "AutoField"; "title" := "CharField" ]};
     relations :=
       {[ "author" := {| model_field := Some "ForeignKey";
                         related_model := Some "Author"; to_many := false |};
          "tags" := {| model_field := Some "ManyToManyField";
                       related_model := Some "Tag"; to_many := true |} ]} |}.

Definition author_info : FieldInfo string string :=
  {| fields_and_pk := {[ "pk" := "AutoField"; "id" := "AutoField"; "name" := "CharField" ]};
     relations := ∅ |}.

Definition tag_info : FieldInfo string string :=
  {| fields_and_pk := {[ "pk" := "AutoField"; "id" := "AutoField"; "label" := "CharField" ]};
     relations := ∅ |}.

Definition get_field_info (model : string) : FieldInfo string string :=
  if bool_decide (model = "Post") then post_info
  else if bool_decide (model = "Author") then author_info
  else tag_info.

Definition model_str (model : string) : string :=
  "<class 'blog.models." +:+ model +:+ "'>".

Definition iteritems (d : gmap string (list string)) : list (string * list string) :=
  map_to_list d.

Definition filterset_init (cls : FilterSet string unit) : option exn := None.

Definition create (model : option string) (args : list string) :=
  create_filter_class get_field_info model_str iteritems filterset_init
    model args ∅ ∅.

(** Serializer fields: a plain field, an expandable related field and a
    list of expandable related fields. *)
Definition plain_field (label : string) : serializers.Field string :=
  {| serializers.field_state := label;
     serializers.requested_fields := None;
     serializers.child_relation := None |}.

Definition related_field (label : string) : serializers.Field string :=
  {| serializers.field_state := label;
     serializers.requested_fields := Some [];
     serializers.child_relation := None |}.

Definition many_related_field (label : string) : serializers.Field string :=
  {| serializers.field_state := label;
     serializers.requested_fields := None;
     serializers.child_relation :=
       Some {| serializers.relation_state := label;
               serializers.child_requested_fields := Some [] |} |}.

Definition post_fields : gmap string (serializers.Field string) :=
  {[ "a" := plain_field "a"; "b" := related_field "b";
     "d" := many_related_field "d" ]}.

Definition author_fields : gmap string (serializers.Field string) :=
  {[ "c" := plain_field "c"; "e" := plain_field "e" ]}.

(** A request with the query string [?fields=...]. *)
Definition request_with_fields (fields : string) : serializers.Request :=
  {| serializers.query_params := Some {[ "fields" := fields ]};
     serializers.GET := {[ "fields" := fields ]} |}.

Definition context_of_request (fields : string) : serializers.Context :=
  {| serializers.context_request := Some (request_with_fields fields);
     serializers.context_requested_fields := None |}.

(** The context a parent serializer hands to the serializer nested under
    one of its fields: the same request, plus the paths below the field. *)
Definition nested_context (fields : string) (requested_fields : list string)
    : serializers.Context :=
  {| serializers.context_request := Some (request_with_fields fields);
     serializers.context_requested_fields := Some requested_fields |}.

(** [build_obj]: a serializer of posts whose validated data sit at
    address [0]; constructing a post rejects the many-to-many key. *)
Definition post_data : gmap string string :=
  {[ "title" := "Hello"; "tags" := "[1, 2]" ]}.

(** Data with a key the model does not take, at address [1]. *)
Definition bad_data : gmap string string :=
  {[ "title" := "Hello"; "colour" := "red" ]}.

Definition post_heap : gmap nat (gmap string string) :=
  {[ 0 := post_data; 1 := bad_data ]}.

Definition post_serializer : serializers.Serializer :=
  {| serializers.class_name := "PostSerializer";
     serializers.Meta_model := "Post";
     serializers.validated_data := Some 0 |}.

Definition no_nested_writes (method_name : string)
    (serializer : serializers.Serializer (Model:=string))
    (validated_data : gmap string string) : option string := None.

Definition model_init (model : string) (kwargs : gmap string string)
    : gmap string string + string :=
  match kwargs !! "tags", kwargs !! "colour" with
  | Some _, _ => inr "'tags' is an invalid keyword argument for this function"
  | _, Some _ => inr "'colour' is an invalid keyword argument for this function"
  | None, None => inl kwargs
  end.

Definition build_post (data : option nat) :=
  serializers.build_obj get_field_info (fun m : string => m)
    no_nested_writes model_init post_serializer data post_heap.

(** Polymorphic dispatch: an object is given by the model classes it is
    an instance of. *)
Definition isinstance (obj : list string) (model : string) : bool :=
  bool_decide (model ∈ obj).

Definition serializer_for (model : string)
    : serializers.SerializerClass (Model:=string) (Obj:=list string)
        (Repr:=string) (Ctx:=unit) :=
  {| serializers.subtype_model := model;
     serializers.subtype_to_representation :=
       fun _ _ => "represented as " +:+ model |}.

Definition iterkeys
    (d : gmap string (serializers.SerializerClass (Model:=string)
                        (Obj:=list string) (Repr:=string) (Ctx:=unit)))
    : list string :=
  (map_to_list d).*1.

Definition represent (obj : list string) :=
  serializers.to_representation isinstance iterkeys
    (fun _ => "represented by the base class")
    [serializer_for "Video"; serializer_for "Article"] tt obj.

End example.

(** ** [create_filter_class] read without the cache

    [_field_info_cache] only ever holds values of [get_field_info]; read
    through such a cache, every function of [filters.py] computes what the
    cache-free functions below compute (see [create_filter_class_sim]). *)

Module filters_pure.
Import python model_meta filters.

Definition rbind {A B : Type} (r : result A) (k : A -> result B) : result B :=
  match r with
  | Ok a => k a
  | Raise e => Raise e
  | OutOfFuel => OutOfFuel
  end.

Fixpoint rfor_each {A B : Type} (l : list A) (body : A -> B -> result B)
    (acc : B) : result B :=
  match l with
  | [] => Ok acc
  | x :: l' => rbind (body x acc) (rfor_each l' body)
  end.

Section pure.
Context {Model ModelField ExtraFilter : Type} `{Countable Model}.
Variable get_field_info : Model -> FieldInfo Model ModelField.
Variable model_str : Model -> string.
Variable iteritems :
  gmap string (list string) -> list (string * list string).
Variable filterset_init : FilterSet Model ExtraFilter -> option exn.

Local Abbreviation Cache := (gmap Model (FieldInfo Model ModelField)).

(** Every cached entry is what [get_field_info] returns. *)
Definition coherent (cache : Cache) : Prop :=
  forall m info, cache !! m = Some info -> info = get_field_info m.

(** [c], run on a coherent cache, comes to [r] and leaves a coherent
    cache. *)
Definition sim {A : Type} (c : st Cache A) (r : result A) : Prop :=
  forall cache, coherent cache ->
    exists cache', c cache = (r, cache') /\ coherent cache'.

Definition field_info_of (Model' : option Model)
    : result (FieldInfo Model ModelField) :=
  match Model' with
  | None => Raise (AttributeError "'NoneType' object has no attribute '_meta'")
  | Some m => Ok (get_field_info m)
  end.

Definition related_model_of (Model' : option Model) (field_name : string)
    : result (option Model) :=
  rbind (field_info_of Model')
    (fun info =>
       match relations info !! field_name with
       | Some relation_info => Ok (related_model relation_info)
       | None => Ok None
       end).

Definition model_field_of (Model' : option Model) (field_name : string)
    : result (option (ModelField + RelationInfo Model ModelField)) :=
  rbind (field_info_of Model')
    (fun info =>
       match fields_and_pk info !! field_name with
       | Some field => Ok (Some (inl field))
       | None => Ok (inr <$> relations info !! field_name)
       end).

(** Whether the first loop takes [f] for a related path. *)
Definition is_related (Model' : option Model) (f : string) : result bool :=
  if pystr.contains RELATED_FIELD_SEP f then Ok true
  else rbind (related_model_of Model' f)
         (fun related_model => Ok (bool_decide (is_Some related_model))).

(** What the first loop does with a related path. *)
Definition advance (f : string)
    (state : list string * gmap string (list string))
    : result (list string * gmap string (list string)) :=
  let '(args, related_fields) := state in
  let parts := pystr.split RELATED_FIELD_SEP f in
  match parts with
  | fname :: _ =>
      let related_fields :=
        match related_fields !! fname with
        | None => <[fname := []]> related_fields
        | Some _ => related_fields
        end in
      let args :=
        if bool_decide (fname ∈ args) then args else args ++ [fname] in
      let rest := pystr.join RELATED_FIELD_SEP (tail parts) in
      let related_fields :=
        if pystr.truthy rest
        then alter (fun l => l ++ [rest]) fname related_fields
        else related_fields in
      Ok (args, related_fields)
  | [] => Raise IndexError
  end.

Definition related_fields_step (Model' : option Model) (f : string)
    (state : list string * gmap string (list string))
    : result (list string * gmap string (list string)) :=
  rbind (is_related Model' f)
    (fun is_related : bool => if is_related then advance f state else Ok state).

Fixpoint related_fields_loop (fuel : nat) (Model' : option Model) (i : nat)
    (state : list string * gmap string (list string))
    : result (list string * gmap string (list string)) :=
  match state.1 !! i with
  | None => Ok state
  | Some f =>
      match fuel with
      | O => OutOfFuel
      | S fuel =>
          rbind (related_fields_step Model' f state)
            (related_fields_loop fuel Model' (S i))
      end
  end.

(** [args] grows at its end only, by names without separator that are
    keys of [related_fields]. *)
Definition grown (args : list string)
    (state : list string * gmap string (list string)) : Prop :=
  exists ext, state.1 = args ++ ext /\
    forall g, g ∈ ext -> pystr.contains RELATED_FIELD_SEP g = false /\ is_Some (state.2 !! g).

(** What holds once the loop has visited the first [j] entries. *)
Definition loop_facts (M : option Model) (args : list string) (j : nat)
    (state : list string * gmap string (list string)) : Prop :=
  grown args state /\
  (forall idx f, idx < j -> state.1 !! idx = Some f ->
     is_related M f = Ok true ->
     exists fname tl mf,
       pystr.split RELATED_FIELD_SEP f = fname :: tl /\ fname ∈ state.1 /\
       state.2 !! fname = Some mf /\
       (pystr.truthy (pystr.join RELATED_FIELD_SEP tl) = true -> pystr.join RELATED_FIELD_SEP tl ∈ mf)) /\
  (forall k mf, state.2 !! k = Some mf ->
     (exists g, g ∈ state.1 /\ is_related M g = Ok true /\
                head (pystr.split RELATED_FIELD_SEP g) = Some k) /\
     forall r, r ∈ mf ->
       exists g tl, g ∈ args /\ pystr.split RELATED_FIELD_SEP g = k :: tl /\
                    r = pystr.join RELATED_FIELD_SEP tl /\ pystr.truthy r = true).

(** What holds of the names the loop has appended after [j] rounds:
    each was appended once, is not among the names passed in, and is the
    first segment of a path with separator that was passed in; and every
    name visited so far passed the test of the loop without an
    exception. *)
Definition appended_facts (M : option Model) (args : list string) (j : nat)
    (state : list string * gmap string (list string)) : Prop :=
  exists ext, state.1 = args ++ ext /\ NoDup ext /\
    (forall g, g ∈ ext ->
       (g ∉ args) /\
       exists f, f ∈ args /\ pystr.contains RELATED_FIELD_SEP f = true /\
                 head (pystr.split RELATED_FIELD_SEP f) = Some g) /\
    (forall idx f, idx < j -> state.1 !! idx = Some f ->
       exists b : bool, is_related M f = Ok b).

(** The paths given below the first segment [k]: the rest of every
    given path that starts with [k] and goes on, in the order given. *)
Definition paths_below (args : list string) (k : string) : list string :=
  flat_map
    (fun f =>
       match pystr.split RELATED_FIELD_SEP f with
       | fname :: tl =>
           if bool_decide (fname = k) &&
              pystr.truthy (pystr.join RELATED_FIELD_SEP tl)
           then [pystr.join RELATED_FIELD_SEP tl] else []
       | [] => []
       end)
    args.

Definition validate_field (Model' : option Model) (f : string) : result unit :=
  rbind (model_field_of Model' f)
    (fun field =>
       match field with
       | Some _ => Ok tt
       | None => Raise (Exception (missing_field_message model_str f Model'))
       end).

Definition class_attrs_step (Model' : option Model)
    (related_classes : gmap string (FilterSet Model ExtraFilter)) (f : string)
    (state : list string * gmap string (Filter Model ExtraFilter))
    : result (list string * gmap string (Filter Model ExtraFilter)) :=
  let '(fields_on_model, class_attrs) := state in
  if pystr.contains RELATED_FIELD_SEP f then Ok state
  else
    rbind (validate_field Model' f)
      (fun _ =>
         let class_attrs :=
           match related_classes !! f with
           | Some related_class => <[f := RelatedFilter related_class f]> class_attrs
           | None => <[f := AllLookupsFilter f]> class_attrs
           end in
         Ok (fields_on_model ++ [f], class_attrs)).

(** One nested filter set, as the second loop builds it. *)
Definition related_class_step
    (create : option Model -> list string -> result (FilterSet Model ExtraFilter))
    (Model' : option Model) (item : string * list string)
    (related_classes : gmap string (FilterSet Model ExtraFilter))
    : result (gmap string (FilterSet Model ExtraFilter)) :=
  let '(f, model_fields) := item in
  rbind (related_model_of Model' f)
    (fun rel_model =>
       rbind (create rel_model model_fields)
         (fun related_class => Ok (<[f := related_class]> related_classes))).

Fixpoint create_filter_class_rec (fuel : nat) (Model' : option Model)
    (args : list string) (kwargs : gmap string ExtraFilter)
    : result (FilterSet Model ExtraFilter) :=
  match fuel with
  | O => OutOfFuel
  | S fuel =>
      rbind (related_fields_loop (2 * length args) Model' 0 (args, ∅))
        (fun '(args, related_fields) =>
           rbind (rfor_each (iteritems related_fields)
                    (related_class_step
                       (fun rel_model model_fields =>
                          create_filter_class_rec fuel rel_model model_fields ∅)
                       Model')
                    ∅)
             (fun related_classes =>
                rbind (rfor_each args (class_attrs_step Model' related_classes)
                         ([], ∅))
                  (fun '(fields_on_model, class_attrs) =>
                     let cls :=
                       AllLookupsFilterSet Model' fields_on_model class_attrs
                         kwargs in
                     match filterset_init cls with
                     | Some e => Raise e
                     | None => Ok cls
                     end)))
  end.

Definition create_filter_class (Model' : option Model) (args : list string)
    (kwargs : gmap string ExtraFilter) : result (FilterSet Model ExtraFilter) :=
  create_filter_class_rec (S (depth args)) Model' args kwargs.

(** The model a relation of [m] leads to, as [_get_related_model] finds
    it in the relation metadata. *)
Definition related_model_at (m : Model) (field_name : string) : option Model :=
  relation_info ← relations (get_field_info m) !! field_name;
  related_model relation_info.

(** The names the second loop builds a nested filter set for: the
    first segment of a given name that holds the separator or is a
    relation with a related model. *)
Definition nested_key (m : Model) (args : list string) (k : string) : Prop :=
  exists g, g ∈ args /\ head (pystr.split RELATED_FIELD_SEP g) = Some k /\
    (pystr.contains RELATED_FIELD_SEP g = true \/
     is_Some (related_model_at m g)).

(** [field_name] exists on [m]: as a concrete field or the primary key,
    or as a relation. *)
Definition field_exists (m : Model) (field_name : string) : bool :=
  bool_decide (is_Some (fields_and_pk (get_field_info m) !! field_name)) ||
  bool_decide (is_Some (relations (get_field_info m) !! field_name)).

(** A path of segments that goes along relations down to a last segment
    that is not a relation itself, and leaves a non-empty path below every
    segment but the last. *)
Fixpoint plain_leaf (Model' : option Model) (segments : list string) : bool :=
  match segments, Model' with
  | [s], Some m => bool_decide (related_model_at m s = None)
  | s :: segments, Some m =>
      pystr.truthy (pystr.join RELATED_FIELD_SEP segments) &&
      plain_leaf (related_model_at m s) segments
  | _, _ => false
  end.

(** The filter declared under a name: a related filter when a nested
    filter set was built for it, an all-lookups filter otherwise. *)
Definition filter_for (related_classes : gmap string (FilterSet Model ExtraFilter))
    (f : string) : Filter Model ExtraFilter :=
  match related_classes !! f with
  | Some related_class => RelatedFilter related_class f
  | None => AllLookupsFilter f
  end.

(** The filter a class holds for a path of segments: along related
    filters down to the last segment. *)
Fixpoint filter_at (cls : FilterSet Model ExtraFilter) (segments : list string)
    : option (Filter Model ExtraFilter) :=
  match segments with
  | [] => None
  | [s] => declared_filters cls !! s
  | s :: segments =>
      match declared_filters cls !! s with
      | Some (RelatedFilter nested _) => filter_at nested segments
      | _ => None
      end
  end.

End pure.
End filters_pure.

(** ** [filters.py]: how [_field_info_cache] changes *)

Module filters_cache.
Import python model_meta.

Section cache.
Context {Model ModelField : Type} `{Countable Model}.
Variable get_field_info : Model -> FieldInfo Model ModelField.

Local Abbreviation Cache := (gmap Model (FieldInfo Model ModelField)).

(** [cache'] holds what [cache] holds and, for models [cache] has no
    entry for, nothing but what [get_field_info] returns. *)
Definition cache_grows (cache cache' : Cache) : Prop :=
  forall m, cache' !! m = cache !! m \/
            (cache !! m = None /\ cache' !! m = Some (get_field_info m)).

(** A computation that only ever lets the cache grow. *)
Definition growing {A : Type} (c : st Cache A) : Prop :=
  forall cache, cache_grows cache (c cache).2.
End cache.

End filters_cache.

(** ** [filters.py]: the [qs] properties of the filter sets *)

Module filters_qs.
Import python model_meta filters filters_pure.

Section qs.
Context {Model Value QuerySet FilterT : Type} `{Countable Model}.

(** A filter-set instance, as far as the two properties read it. *)
Record FilterSetInstance := {
  data : gmap string Value;           (* [self.data], by parameter name *)
  filters : gmap string FilterT;      (* [self.filters], by filter name *)
  queryset : QuerySet                 (* [self.queryset] *)
}.

(** The order in which [self.data] hands out its keys. *)
Variable iterkeys : gmap string Value -> list string.
(** The ORM's [queryset.filter] on keyword arguments. *)
Variable queryset_filter : QuerySet -> gmap string Value -> QuerySet.

(** The body of the loop of [NoValidationFilterSet.qs]. *)
Definition filter_kwargs_step (self : FilterSetInstance) (f : string)
    (filter_kwargs : gmap string Value) : result (gmap string Value) :=
  if bool_decide (is_Some (filters self !! f)) then
    match data self !! f with
    | Some v => Ok (<[f := v]> filter_kwargs)
    | None => Raise (KeyError f)
    end
  else Ok filter_kwargs.

(** [NoValidationFilterSet.qs] *)
Definition NoValidationFilterSet_qs (self : FilterSetInstance)
    : result QuerySet :=
  rbind (rfor_each (iterkeys (data self)) (filter_kwargs_step self) ∅)
    (fun filter_kwargs => Ok (queryset_filter (queryset self) filter_kwargs)).

(** An extra filter function of [create_filter_class]: from the
    queryset and the value of its parameter to a queryset, or an
    exception. *)
Local Abbreviation ExtraFilter := (QuerySet -> Value -> result QuerySet).

(** The order in which [kwargs] hands out its keys. *)
Variable iterkeys_kwargs : gmap string ExtraFilter -> list string.
(** The [qs] of the base class. *)
Variable super_qs : FilterSetInstance -> result QuerySet.

(** The body of the loop of [AllLookupsFilterSet.qs]. *)
Definition extra_filter_step (kwargs : gmap string ExtraFilter)
    (self : FilterSetInstance) (extra_filter : string) (qs : QuerySet)
    : result QuerySet :=
  match data self !! extra_filter with
  | Some v =>
      match kwargs !! extra_filter with
      | Some fn => fn qs v
      | None => Raise (KeyError extra_filter)
      end
  | None => Ok qs
  end.

(** [AllLookupsFilterSet.qs] on an instance of the generated class
    [cls]; [kwargs] is what the class closed over. *)
Definition AllLookupsFilterSet_qs (cls : FilterSet Model ExtraFilter)
    (self : FilterSetInstance) : result QuerySet :=
  let kwargs := extra_filters cls in
  rbind (super_qs self)
    (fun qs => rfor_each (iterkeys_kwargs kwargs) (extra_filter_step kwargs self) qs).

End qs.

Global Arguments FilterSetInstance : clear implicits.

End filters_qs.

(** ** More of the small project *)

Module example_more.
Import python model_meta filters example.

(** A post's [clean()]: the title must not be empty. *)
Definition clean_post (instance : gmap string string)
    : result unit + serializers.DjangoValidationError :=
  match instance !! "title" with
  | Some "" => inr {| serializers.message := "A post needs a title." |}
  | _ => inl (Ok tt)
  end.

Definition untitled_data : gmap string string :=
  {[ "title" := ""; "tags" := "[1, 2]" ]}.

(** The data of [post_heap], and a post without title at address [2]. *)
Definition clean_heap : gmap nat (gmap string string) :=
  <[2 := untitled_data]> post_heap.

Definition call_clean (data : option nat) :=
  serializers.call_model_clean_using_data get_field_info (fun m : string => m)
    no_nested_writes model_init clean_post post_serializer data clean_heap.

(** A second serializer class for a model, told apart by what it
    answers. *)
Definition serializer_labelled (model label : string)
    : serializers.SerializerClass (Model:=string) (Obj:=list string)
        (Repr:=string) (Ctx:=unit) :=
  {| serializers.subtype_model := model;
     serializers.subtype_to_representation := fun _ _ => label |}.

(** Another order for the items of a dictionary. *)
Definition iteritems_reversed (d : gmap string (list string))
    : list (string * list string) :=
  reverse (map_to_list d).

Definition create_reversed (model : option string) (args : list string) :=
  create_filter_class get_field_info model_str iteritems_reversed filterset_init
    model args ∅ ∅.

(** A cache that already holds the metadata of posts. *)
Definition warm_cache : gmap string (FieldInfo string string) :=
  {[ "Post" := post_info ]}.

(** Filter sets at work: a queryset is the list of the conditions put on
    it so far. *)
Definition conditions : Type := list (string * string).

Definition queryset_filter (qs : conditions) (kwargs : gmap string string)
    : conditions :=
  qs ++ map_to_list kwargs.

Definition data_keys (d : gmap string string) : list string :=
  (map_to_list d).*1.

Definition post_filterset
    : filters_qs.FilterSetInstance string conditions unit :=
  {| filters_qs.data := {[ "title" := "Hello"; "page" := "2"; "recent" := "7" ]};
     filters_qs.filters := {[ "title" := tt; "author" := tt ]};
     filters_qs.queryset := [] |}.

(** An extra filter function, and a generated class that closed over it
    and over a second one. *)
Definition recent (qs : conditions) (days : string) : result conditions :=
  Ok (qs ++ [("created__gte", days)]).

Definition mine (qs : conditions) (user : string) : result conditions :=
  Ok (qs ++ [("author", user)]).

Definition kwargs_keys (d : gmap string (conditions -> string -> result conditions))
    : list string :=
  (map_to_list d).*1.

Definition post_filter_class
    : FilterSet string (conditions -> string -> result conditions) :=
  AllLookupsFilterSet (Some "Post") ["title"]
    {[ "title" := AllLookupsFilter "title" ]}
    {[ "recent" := recent; "mine" := mine ]}.

Definition post_super_qs
    (self : filters_qs.FilterSetInstance string conditions unit)
    : result conditions :=
  Ok (filters_qs.queryset self).

(** The ORM at work.  A queryset stands for the rows its SQL query
    returns, in order: the primary key of the post a row is built into,
    and the column of a joined table that the ordering of the queryset
    puts into the [SELECT] list.  [distinct()] makes the query a
    [SELECT DISTINCT]: of rows equal in every selected column one stays.
    Iterating the queryset yields one post per row. *)
Definition sql_rows : Type := list (nat * string).

Definition orm_distinct (qs : sql_rows) : sql_rows := remove_dups qs.

Definition objects (qs : sql_rows) : list nat := qs.*1.

(** The base backend has put the filter on the tags into the query; the
    view orders its posts by the label of their tags.  Post [1] bears two
    of the tags asked for, post [2] one. *)
Definition posts_by_tag_label : sql_rows :=
  [(1, "django"); (2, "python"); (1, "rocq")].

Definition base_filter_queryset (request : unit) (queryset : sql_rows)
    (view : unit) : sql_rows :=
  queryset.

End example_more.

(** * Theorems *)

(** ** Facts about the [str] built-ins *)

Local Arguments String.append : simpl nomatch.

(** The built-ins on a few inputs, as the interpreter answers them. *)
Example split_examples :
  pystr.split "__" "a___b" = ["a"; "_b"] /\
  pystr.split "__" "a____b" = ["a"; ""; "b"] /\
  pystr.split "__" "author__" = ["author"; ""] /\
  pystr.split "," "a,b.c" = ["a"; "b.c"] /\
  pystr.split "." "b" = ["b"] /\
  pystr.split "," "" = [""].
Proof. repeat split. Qed.

Example join_examples :
  pystr.join "." ["c"; "d"] = "c.d" /\ pystr.join "__" [] = "" /\
  pystr.join "__" ["name"] = "name".
Proof. repeat split. Qed.

Example replace_examples :
  pystr.replace "None,," ",," "None,,1,2" = ",,1,2" /\
  pystr.replace "None," "," "None,1,None,2" = ",1,,2" /\
  pystr.replace "None," "," "NoneNone,x" = "None,x".
Proof. repeat split. Qed.

Section pystr_facts.
Import pystr.

Lemma startswith_refl_app (p r : string) : startswith p (p +:+ r) = true.
Proof.
  induction p as [|a p IH]; simpl; [done|].
  by rewrite Ascii.eqb_refl.
Qed.

Lemma startswith_inv (p s : string) :
  startswith p s = true -> exists r, s = p +:+ r.
Proof.
  revert s; induction p as [|a p IH]; intros s H; simpl in *.
  - by exists s.
  - destruct s as [|b s]; [done|].
    destruct (Ascii.eqb_spec a b) as [->|]; [|done].
    destruct (IH _ H) as [r ->]. by exists r.
Qed.

Lemma startswith_cons (a b : ascii) (p s : string) :
  startswith (String a p) (String b s) =
  if Ascii.eqb a b then startswith p s else false.
Proof. done. Qed.

Lemma startswith_nil (s : string) : startswith "" s = true.
Proof. by destruct s. Qed.

Lemma string_app_assoc (a b c : string) : (a +:+ b) +:+ c = a +:+ (b +:+ c).
Proof. induction a as [|x a IH]; simpl; [done|]. by rewrite IH. Qed.

Lemma string_app_nil_r (a : string) : a +:+ "" = a.
Proof. induction a as [|x a IH]; simpl; [done|]. by rewrite IH. Qed.

Lemma string_app_length (a b : string) :
  String.length (a +:+ b) = String.length a + String.length b.
Proof. induction a as [|x a IH]; simpl; [done|]. by rewrite IH. Qed.

(** *** The occurrence relation behind [in] *)

Lemma contains_true (p s : string) : contains p s = true <-> occurs p s.
Proof.
  split.
  - induction s as [|c s IH]; simpl; intros H.
    + destruct (startswith_inv _ _ H) as [r ->]. by exists "", r.
    + apply orb_true_iff in H as [H|H].
      * destruct (startswith_inv _ _ H) as [r ->]. by exists "", r.
      * destruct (IH H) as (l & r & ->). by exists (String c l), r.
  - intros (l & r & ->). induction l as [|c l IH]; simpl.
    + destruct (p +:+ r) eqn:E; simpl.
      * by destruct p.
      * rewrite <- E, startswith_refl_app. done.
    + by rewrite IH, orb_true_r.
Qed.

Lemma contains_false (p s : string) : contains p s = false <-> ~ occurs p s.
Proof.
  rewrite <- contains_true. by destruct (contains p s).
Qed.

Lemma occurs_cons (p : string) (c : ascii) (s : string) :
  occurs p (String c s) -> startswith p (String c s) = true \/ occurs p s.
Proof.
  intros (l & r & E). destruct l as [|x l]; simpl in E.
  - left. rewrite E. apply startswith_refl_app.
  - right. injection E as _ ->. by exists l, r.
Qed.

Lemma occurs_cons_r (p : string) (c : ascii) (s : string) :
  occurs p s -> occurs p (String c s).
Proof. intros (l & r & ->). by exists (String c l), r. Qed.

Lemma occurs_app_r (p q s : string) : occurs p s -> occurs p (q +:+ s).
Proof.
  intros (l & r & ->). exists (q +:+ l), r. by rewrite string_app_assoc.
Qed.

Lemma occurs_prefix (p s : string) : startswith p s = true -> occurs p s.
Proof. intros H. destruct (startswith_inv _ _ H) as [r ->]. by exists "", r. Qed.

(** *** The left-to-right scan shared by [split] and [replace] *)

Lemma scan_cases (old s : string) :
  s = "" \/ (exists r, s = old +:+ r) \/
  (exists c s', s = String c s' /\ startswith old s = false).
Proof.
  destruct s as [|c s]; [by left|right].
  destruct (startswith old (String c s)) eqn:E.
  - left. by apply startswith_inv.
  - right. by exists c, s.
Qed.

Lemma scan_ind (old : string) (Hne : old <> "") (P : string -> Prop) :
  P "" ->
  (forall r, P r -> P (old +:+ r)) ->
  (forall c s, startswith old (String c s) = false -> P s -> P (String c s)) ->
  forall s, P s.
Proof.
  intros H0 Hm Hc s.
  remember (String.length s) as n eqn:Hn.
  revert s Hn. induction (lt_wf n) as [n _ IH]. intros s ->.
  destruct (scan_cases old s) as [->|[[r ->]|(c & s' & -> & E)]]; [done| |].
  - apply Hm. eapply IH; [|done]. rewrite string_app_length.
    destruct old; [done|]. simpl. lia.
  - apply Hc; [done|]. eapply IH; [|done]. simpl. lia.
Qed.

Lemma replace_from_skip (old new p r : string) :
  replace_from old new (String.length p) (p +:+ r) = replace old new r.
Proof. induction p as [|a p IH]; simpl; done. Qed.

Lemma replace_nil (old new : string) : replace old new "" = "".
Proof. done. Qed.

Lemma replace_match (old new r : string) :
  old <> "" -> replace old new (old +:+ r) = new +:+ replace old new r.
Proof.
  intros Hne. destruct old as [|a old]; [done|].
  unfold replace at 1. cbn [String.append replace_from].
  change (String a (old +:+ r)) with (String a old +:+ r).
  rewrite startswith_refl_app.
  replace (String.length (String a old) - 1) with (String.length old)
    by (simpl; lia).
  by rewrite replace_from_skip.
Qed.

Lemma replace_nomatch (old new : string) (c : ascii) (s : string) :
  startswith old (String c s) = false ->
  replace old new (String c s) = String c (replace old new s).
Proof. intros E. unfold replace. cbn [replace_from]. by rewrite E. Qed.

Lemma split_from_skip (sep p r : string) :
  split_from sep (String.length p) (p +:+ r) = split sep r.
Proof. induction p as [|a p IH]; simpl; done. Qed.

Lemma split_nil (sep : string) : split sep "" = [""].
Proof. done. Qed.

Lemma split_match (sep r : string) :
  sep <> "" -> split sep (sep +:+ r) = "" :: split sep r.
Proof.
  intros Hne. destruct sep as [|a sep]; [done|].
  unfold split at 1. cbn [String.append split_from].
  change (String a (sep +:+ r)) with (String a sep +:+ r).
  rewrite startswith_refl_app.
  replace (String.length (String a sep) - 1) with (String.length sep)
    by (simpl; lia).
  by rewrite split_from_skip.
Qed.

Lemma split_not_nil (sep s : string) : sep <> "" -> split sep s <> [].
Proof.
  intros Hne. induction s as [| r IH | c s H IH] using (scan_ind sep Hne); try done.
  - by rewrite split_match.
  - unfold split in *. cbn [split_from]. rewrite H.
    by destruct (split_from sep 0 s).
Qed.

Lemma split_nomatch (sep : string) (c : ascii) (s : string) :
  sep <> "" ->
  startswith sep (String c s) = false ->
  exists w ws, split sep s = w :: ws /\ split sep (String c s) = String c w :: ws.
Proof.
  intros Hne E. pose proof (split_not_nil sep s Hne) as Hn.
  unfold split in *. cbn [split_from]. rewrite E.
  destruct (split_from sep 0 s) as [|w ws]; [done|]. by exists w, ws.
Qed.

Lemma join_cons2 (sep w w' : string) (ws : list string) :
  join sep (w :: w' :: ws) = w +:+ sep +:+ join sep (w' :: ws).
Proof. done. Qed.

(** Joining what [split] produced gives the string back. *)
Lemma join_split (sep s : string) : sep <> "" -> join sep (split sep s) = s.
Proof.
  intros Hne. induction s as [| r IH | c s E IH] using (scan_ind sep Hne); try done.
  - rewrite split_match by done.
    pose proof (split_not_nil sep r Hne).
    destruct (split sep r) as [|w ws] eqn:Er; [done|].
    rewrite join_cons2, IH. done.
  - destruct (split_nomatch sep c s Hne E) as (w & ws & E1 & ->).
    rewrite E1 in IH. destruct ws as [|w' ws].
    + simpl in *. by rewrite IH.
    + rewrite join_cons2 in *. rewrite <- IH. done.
Qed.

End pystr_facts.

(** ** [renderers.py]: the CSV text patch *)

Section renderers_facts.
Import pystr renderers.

Local Arguments replace : simpl never.

(** One step of the scan of [replace] under a hypothesis on the head of
    its output. *)
Local Ltac peel H :=
  match type of H with
  | startswith _ (replace ?old ?new ?s) = true =>
      let r := fresh "r" in
      let c := fresh "c" in
      let s' := fresh "s" in
      let E := fresh "E" in
      destruct (scan_cases old s) as [->|[[r ->]|(c & s' & -> & E)]];
      [ done
      | rewrite replace_match in H by done; simpl in H
      | rewrite replace_nomatch in H by done; rewrite startswith_cons in H;
        match type of H with
        | (if Ascii.eqb ?a c then _ else _) = true =>
            destruct (Ascii.eqb_spec a c) as [<-|]; [|done]
        end ]
  end.

Lemma line_starts_with_occurs (p s : string) :
  line_starts_with p s = true -> occurs p s.
Proof.
  unfold line_starts_with. intros [H|H]%orb_true_iff.
  - by apply occurs_prefix.
  - apply contains_true in H as (l & r & ->).
    exists (l +:+ String "010" ""), r.
    by rewrite string_app_assoc.
Qed.

(** Second pass: a marker at the head of the output comes from a doubled
    marker at the head of the input. *)
Lemma second_pass_head (s : string) :
  startswith "None," (replace ERRONEOUS_STR_2 CORRECT_STR_2 s) = true ->
  startswith "NoneNone," s = true.
Proof.
  unfold ERRONEOUS_STR_2, CORRECT_STR_2. intros H.
  do 4 (peel H; [done|]).
  peel H.
  - done.
  - simpl in *. done.
Qed.

Lemma second_pass_occurs (s : string) :
  occurs "None," (replace ERRONEOUS_STR_2 CORRECT_STR_2 s) ->
  occurs "NoneNone," s.
Proof.
  assert (Hne : ERRONEOUS_STR_2 <> "") by done.
  induction s as [| r IH | c s E IH] using (scan_ind _ Hne).
  - intros H%contains_true. done.
  - rewrite replace_match by done. intros H.
    apply occurs_cons in H as [H|H]; [done|].
    by apply occurs_app_r, IH.
  - rewrite replace_nomatch by done. intros H.
    apply occurs_cons in H as [H|H].
    + rewrite <- replace_nomatch in H by done.
      by apply occurs_prefix, second_pass_head.
    + by apply occurs_cons_r, IH.
Qed.

(** First pass: a doubled marker at the head of the output was already
    in the input. *)
Lemma first_pass_head (s : string) :
  startswith "NoneNone," (replace ERRONEOUS_STR_1 CORRECT_STR_1 s) = true ->
  occurs "NoneNone," s.
Proof.
  unfold ERRONEOUS_STR_1, CORRECT_STR_1. intros H.
  do 8 (peel H; [done|]).
  peel H.
  - by apply contains_true.
  - apply occurs_prefix. done.
Qed.

Lemma first_pass_occurs (s : string) :
  occurs "NoneNone," (replace ERRONEOUS_STR_1 CORRECT_STR_1 s) ->
  occurs "NoneNone," s.
Proof.
  assert (Hne : ERRONEOUS_STR_1 <> "") by done.
  induction s as [| r IH | c s E IH] using (scan_ind _ Hne).
  - intros H%contains_true. done.
  - rewrite replace_match by done. intros H.
    apply occurs_cons in H as [H|H]; [done|].
    apply occurs_cons in H as [H|H]; [done|].
    by apply occurs_app_r, IH.
  - rewrite replace_nomatch by done. intros H.
    apply occurs_cons in H as [H|H].
    + rewrite <- replace_nomatch in H by done.
      by apply first_pass_head.
    + by apply occurs_cons_r, IH.
Qed.

(** Any marker left in the rendered text stems from a doubled marker in
    the text of the base renderer. *)
Lemma render_marker_origin {Args : Type} (super_render : Args -> string)
    (args : Args) :
  occurs "None," (render super_render args) ->
  occurs "NoneNone," (super_render args).
Proof.
  unfold render. intros H.
  by apply first_pass_occurs, second_pass_occurs.
Qed.

(** C8, as stated, fails: a first cell that ends in [None] leaves a
    marker at the start of the second line. *)
Lemma render_line_start_marker_counterexample :
  ~ (forall base : string,
       line_starts_with "None," (render (fun s : string => s) base) = false).
Proof.
  intros H.
  specialize (H ("id,name" +:+ String "010" "NoneNone,x" +:+ String "010" "")).
  vm_compute in H. done.
Qed.

(** C8 (amended): when the text of the base renderer holds no doubled
    marker [NoneNone,], the rendered text has no [None,] at the start of a
    line. *)
Theorem render_no_line_start_marker {Args : Type}
    (super_render : Args -> string) (args : Args) :
  contains "NoneNone," (super_render args) = false ->
  line_starts_with "None," (render super_render args) = false.
Proof.
  intros H%contains_false.
  destruct (line_starts_with _ _) eqn:E; [|done].
  destruct H. by apply render_marker_origin, line_starts_with_occurs.
Qed.

Lemma render_no_line_start_marker_witness :
  contains "NoneNone," "None,,a,b" = false /\
  line_starts_with "None," (render (fun s : string => s) "None,,a,b") = false.
Proof.
  split; [reflexivity|].
  apply (render_no_line_start_marker (fun s : string => s) "None,,a,b").
  reflexivity.
Defined.

End renderers_facts.

(** ** [serializers.py]: field selection and expansion *)

Section split_facts.
Import pystr.

Lemma contains_cons_false (sub : string) (c : ascii) (s : string) :
  contains sub (String c s) = false ->
  startswith sub (String c s) = false /\ contains sub s = false.
Proof. simpl. by intros [??]%orb_false_iff. Qed.

(** A string without the separator is one segment. *)
Lemma split_no_sep (sep s : string) :
  sep <> "" -> contains sep s = false -> split sep s = [s].
Proof.
  intros Hne. induction s as [|c s IH]; [done|].
  intros [E Hs]%contains_cons_false.
  destruct (split_nomatch sep c s Hne E) as (w & ws & E1 & ->).
  rewrite (IH Hs) in E1. by simplify_eq.
Qed.

(** Splitting at a one-character separator after a segment free of it. *)
Lemma split_char_app (ch : ascii) (a r : string) :
  contains (String ch "") a = false ->
  split (String ch "") (a +:+ String ch r) = a :: split (String ch "") r.
Proof.
  induction a as [|c a IH].
  - intros _. exact (split_match (String ch "") r ltac:(done)).
  - intros [E Ha]%contains_cons_false.
    assert (E' : startswith (String ch "") (String c (a +:+ String ch r)) = false).
    { rewrite startswith_cons in *. destruct (Ascii.eqb ch c); [|done].
      by destruct a. }
    destruct (split_nomatch (String ch "") c (a +:+ String ch r)) as (w & ws & E1 & E2);
      [done|done|].
    rewrite (IH Ha) in E1. simplify_eq. exact E2.
Qed.

Lemma startswith_app_l (p s t : string) :
  startswith p s = true -> startswith p (s +:+ t) = true.
Proof.
  intros [r ->]%startswith_inv. rewrite string_app_assoc.
  apply startswith_refl_app.
Qed.

(** The first segment is a prefix of the string, with the separator
    after it when more segments follow. *)
Lemma split_head_prefix (sep s w : string) (ws : list string) :
  sep <> "" -> split sep s = w :: ws ->
  s = w +:+ match ws with [] => "" | _ => sep +:+ join sep ws end.
Proof.
  intros Hne E. rewrite <- (join_split sep s Hne) at 1. rewrite E.
  destruct ws; [|done]. simpl. by rewrite string_app_nil_r.
Qed.

(** The first segment holds no separator. *)
Lemma split_head_no_sep (sep s w : string) (ws : list string) :
  sep <> "" -> split sep s = w :: ws -> contains sep w = false.
Proof.
  intros Hne. revert w ws.
  induction s as [| r IH | c s E IH] using (scan_ind sep Hne); intros w ws Hs.
  - rewrite split_nil in Hs. simplify_eq. by destruct sep.
  - rewrite split_match in Hs by done. simplify_eq. by destruct sep.
  - destruct (split_nomatch sep c s Hne E) as (w' & ws' & E1 & E2).
    rewrite E2 in Hs. simplify_eq. simpl.
    rewrite (IH _ _ E1), orb_false_r.
    destruct (startswith sep (String c w')) eqn:E3; [|done].
    rewrite (split_head_prefix sep s w' ws Hne E1) in E.
    apply (startswith_app_l _ _
             (match ws with [] => "" | _ => sep +:+ join sep ws end)) in E3.
    simpl in E3. congruence.
Qed.

Lemma split_length_pos (sep s : string) :
  sep <> "" -> 0 < length (split sep s).
Proof.
  intros Hne. pose proof (split_not_nil sep s Hne).
  destruct (split sep s); simpl; [done|lia].
Qed.

End split_facts.

Section field_selection.
Import pystr serializers.
Context {FieldState : Type}.
Implicit Types (all_fields : gmap string (Field FieldState)).
Implicit Types (fields : list string) (val : Field FieldState).

(** The pops leave exactly the entries whose name is allowed. *)
Lemma drop_fields_lookup all_fields (relevant : list string) (k : string) :
  drop_fields all_fields relevant !! k =
  if bool_decide (k ∈ relevant) then all_fields !! k else None.
Proof.
  unfold drop_fields.
  assert (Hfold : forall X : gset string,
    set_fold (fun field_name acc => delete field_name acc) all_fields X !! k =
    if bool_decide (k ∈ X) then None else all_fields !! k).
  { intros X.
    refine (set_fold_ind_L (fun acc (Y : gset string) =>
             acc !! k = if bool_decide (k ∈ Y) then None else all_fields !! k)
             _ all_fields _ _ X).
    - by rewrite bool_decide_eq_false_2 by set_solver.
    - intros x Y acc Hx IH. destruct (decide (k = x)) as [->|Hne].
      + rewrite lookup_delete_eq, bool_decide_eq_true_2; [done|set_solver].
      + rewrite lookup_delete_ne, IH by done.
        rewrite (bool_decide_ext (k ∈ {[x]} ∪ Y) (k ∈ Y)); [done|].
        rewrite elem_of_union, elem_of_singleton. tauto. }
  rewrite Hfold.
  destruct (decide (k ∈ relevant)) as [Hin|Hout].
  - rewrite (bool_decide_eq_true_2 _ Hin), bool_decide_eq_false_2; [done|].
    rewrite elem_of_difference, elem_of_list_to_set. tauto.
  - rewrite (bool_decide_eq_false_2 _ Hout). case_bool_decide as Hk; [done|].
    apply not_elem_of_dom. intros Hd. apply Hk.
    rewrite elem_of_difference, elem_of_list_to_set. tauto.
Qed.

(** The dictionary built by the loop holds, for every key, the sub-paths
    requested for it. *)
Lemma expand_entry_lookup (m : gmap string (list string)) (field k : string) :
  default [] (expand_entry m field !! k) =
  default [] (m !! k) ++ sub_paths [field] k.
Proof.
  unfold expand_entry, sub_paths. simpl.
  destruct (split RELATED_FIELD_SEPARATOR field) as [|key [|r rest]]; simpl.
  - by rewrite app_nil_r.
  - by rewrite app_nil_r.
  - rewrite app_nil_r.
    case_bool_decide as Hk.
    + subst key. rewrite lookup_alter_eq.
      destruct (m !! k) as [l|] eqn:E; simpl.
      * by rewrite E.
      * by rewrite lookup_insert_eq.
    + rewrite lookup_alter_ne by done. rewrite app_nil_r.
      destruct (m !! key); [done|]. by rewrite lookup_insert_ne.
Qed.

Lemma sub_paths_cons (field : string) fields (k : string) :
  sub_paths (field :: fields) k = sub_paths [field] k ++ sub_paths fields k.
Proof. unfold sub_paths. simpl. by rewrite app_nil_r. Qed.

Lemma fields_to_expand_from (m : gmap string (list string)) fields (k : string) :
  default [] (foldl expand_entry m fields !! k) =
  default [] (m !! k) ++ sub_paths fields k.
Proof.
  revert m. induction fields as [|field fields IH]; intros m; cbn [foldl].
  - by rewrite app_nil_r.
  - rewrite IH, expand_entry_lookup, (sub_paths_cons field fields).
    by rewrite app_assoc.
Qed.

Lemma fields_to_expand_sub_paths fields (k : string) :
  default [] (fields_to_expand fields !! k) = sub_paths fields k.
Proof. unfold fields_to_expand. by rewrite fields_to_expand_from, lookup_empty. Qed.

(** What [_process_fields_based_on_context] does to the entry of [k] when
    a non-empty list of paths is requested. *)
Lemma process_fields_lookup (context : Context) all_fields fields (k : string) :
  requested context = Some fields -> fields <> [] ->
  _process_fields_based_on_context context all_fields !! k =
  set_requested_fields (sub_paths fields k) <$>
    (if bool_decide (ALL_FIELDS_SPECIFIER ∈ fields) then all_fields !! k
     else if bool_decide (k ∈ relevant_fields fields) then all_fields !! k
     else None).
Proof.
  intros Hreq Hne. unfold _process_fields_based_on_context. rewrite Hreq.
  destruct fields as [|f fields]; [done|].
  rewrite map_lookup_imap, fields_to_expand_sub_paths.
  case_bool_decide.
  - by destruct (all_fields !! k).
  - rewrite drop_fields_lookup. case_bool_decide; [|done].
    by destruct (all_fields !! k).
Qed.

Lemma nested_request_set (l : list string) val :
  expandable val -> nested_request (set_requested_fields l val) = Some l.
Proof.
  unfold expandable, nested_request, set_requested_fields.
  destruct (requested_fields val) eqn:E1; simpl; [done|].
  destruct (child_relation val) as [rel|] eqn:E2; simpl.
  - destruct (child_requested_fields rel) eqn:E3; simpl; [done|].
    intros [? ?]. done.
  - intros [? ?]. done.
Qed.

End field_selection.

Section field_selection_claims.
Import pystr serializers.
Context {FieldState : Type}.
Implicit Types (all_fields : gmap string (Field FieldState)).
Implicit Types (fields : list string) (val : Field FieldState).

Lemma contains_char_app (ch : ascii) (x y : string) :
  contains (String ch "") (x +:+ y) =
  contains (String ch "") x || contains (String ch "") y.
Proof.
  induction x as [|c x IH].
  - simpl. destruct y; done.
  - change (String c x +:+ y) with (String c (x +:+ y)).
    cbn [contains]. rewrite IH, !startswith_cons.
    destruct (Ascii.eqb ch c); [|done].
    by rewrite !startswith_nil.
Qed.

Lemma sub_paths_empty fields (k : string) :
  (forall field, field ∈ fields ->
     startswith (k +:+ RELATED_FIELD_SEPARATOR) field = false) ->
  sub_paths fields k = [].
Proof.
  induction fields as [|field fields IH]; intros Hno; [done|].
  rewrite sub_paths_cons, IH, app_nil_r.
  2:{ intros f Hf. apply Hno. by right. }
  unfold sub_paths. simpl. rewrite app_nil_r.
  destruct (split RELATED_FIELD_SEPARATOR field) as [|key [|r rest]] eqn:E; try done.
  case_bool_decide as Hk; [|done]. subst key.
  apply split_head_prefix in E; [|done].
  specialize (Hno field ltac:(by left)).
  rewrite E, <- string_app_assoc, startswith_refl_app in Hno. done.
Qed.

(** The paths requested by [fields=a,b.c]. *)
Lemma split_a_b_dot_c (a b c : string) :
  contains FIELDS_DIVIDER a = false ->
  contains FIELDS_DIVIDER b = false ->
  contains FIELDS_DIVIDER c = false ->
  split FIELDS_DIVIDER (a +:+ "," +:+ b +:+ "." +:+ c) = [a; b +:+ "." +:+ c].
Proof.
  intros Ha Hb Hc. unfold FIELDS_DIVIDER in *.
  change (a +:+ "," +:+ b +:+ "." +:+ c)
    with (a +:+ String "," (b +:+ "." +:+ c)).
  rewrite split_char_app by done. f_equal.
  apply split_no_sep; [done|].
  rewrite !contains_char_app, Hb, Hc. done.
Qed.

Lemma sub_paths_a_b_dot_c (a b c k : string) :
  contains RELATED_FIELD_SEPARATOR a = false ->
  contains RELATED_FIELD_SEPARATOR b = false ->
  sub_paths [a; b +:+ "." +:+ c] k = if bool_decide (k = b) then [c] else [].
Proof.
  intros Ha Hb. unfold sub_paths, RELATED_FIELD_SEPARATOR in *. simpl.
  rewrite (split_no_sep "." a) by done.
  change (b +:+ "." +:+ c) with (b +:+ String "." c).
  rewrite split_char_app by done.
  pose proof (join_split "." c ltac:(done)) as Hj.
  destruct (split "." c) as [|w ws] eqn:E.
  { by apply split_not_nil in E. }
  rewrite Hj, app_nil_r. simpl.
  rewrite (bool_decide_ext (b = k) (k = b)) by done. done.
Qed.

(** With the wildcard requested, the entry of every name is the default
    field with its nested request rewritten. *)
Lemma get_fields_wildcard_lookup (context : Context) all_fields fields (k : string) :
  requested context = Some fields ->
  ALL_FIELDS_SPECIFIER ∈ fields ->
  get_fields context all_fields !! k =
  set_requested_fields (sub_paths fields k) <$> all_fields !! k.
Proof.
  intros Hreq Hall.
  assert (Hne : fields <> []) by (intros ->; inversion Hall).
  unfold get_fields.
  rewrite (process_fields_lookup context all_fields fields k Hreq Hne).
  by rewrite bool_decide_eq_true_2.
Qed.

(** C2: with the wildcard among the requested names, no field is removed;
    every default field stays, with nothing but its nested request
    rewritten. *)
Theorem get_fields_wildcard_keeps_all (context : Context) all_fields fields :
  requested context = Some fields ->
  ALL_FIELDS_SPECIFIER ∈ fields ->
  dom (get_fields context all_fields) = dom all_fields /\
  forall k, get_fields context all_fields !! k =
            set_requested_fields (sub_paths fields k) <$> all_fields !! k.
Proof.
  intros Hreq Hall. split.
  - apply set_eq. intros k.
    rewrite !elem_of_dom, (get_fields_wildcard_lookup _ _ fields) by done.
    by rewrite fmap_is_Some.
  - intros k. by apply get_fields_wildcard_lookup.
Qed.

(** C10: with the wildcard present the nested requests are still
    written: an expandable field gets the sub-paths requested for its
    name, the empty list when there are none. *)
Theorem wildcard_still_propagates (context : Context) all_fields fields
    (k : string) val :
  requested context = Some fields ->
  ALL_FIELDS_SPECIFIER ∈ fields ->
  all_fields !! k = Some val ->
  exists val',
    get_fields context all_fields !! k = Some val' /\
    (is_Some (requested_fields val) ->
       requested_fields val' = Some (sub_paths fields k)) /\
    (requested_fields val = None ->
       forall rel, child_relation val = Some rel ->
         is_Some (child_requested_fields rel) ->
         exists rel', child_relation val' = Some rel' /\
           child_requested_fields rel' = Some (sub_paths fields k)) /\
    ((forall field, field ∈ fields ->
        startswith (k +:+ RELATED_FIELD_SEPARATOR) field = false) ->
     sub_paths fields k = []).
Proof.
  intros Hreq Hall Hk.
  exists (set_requested_fields (sub_paths fields k) val).
  rewrite (get_fields_wildcard_lookup _ _ fields), Hk by done. split; [done|]. unfold set_requested_fields.
  split; [|split].
  - intros [l Hrf]. by rewrite Hrf.
  - intros Hrf rel Hrel [l Hc]. rewrite Hrf, Hrel, Hc. eauto.
  - apply sub_paths_empty.
Qed.

(** C1 (amended): [fields=a,b.c] in the request, and no
    [requested_fields] entry in the context, keeps exactly the default
    fields named [a] and [b], and hands [c] to the expandable field [b]. *)
Theorem get_fields_a_b_dot_c (context : Context) (request : Request)
    all_fields (a b c : string) :
  context_request context = Some request ->
  request_params request !! "fields" = Some (a +:+ "," +:+ b +:+ "." +:+ c) ->
  context_requested_fields context = None ->
  contains FIELDS_DIVIDER a = false ->
  contains RELATED_FIELD_SEPARATOR a = false ->
  a <> ALL_FIELDS_SPECIFIER ->
  contains FIELDS_DIVIDER b = false ->
  contains RELATED_FIELD_SEPARATOR b = false ->
  contains FIELDS_DIVIDER c = false ->
  dom (get_fields context all_fields) = dom all_fields ∩ {[a; b]} /\
  (forall k, get_fields context all_fields !! k =
     if bool_decide (k = a \/ k = b)
     then set_requested_fields (if bool_decide (k = b) then [c] else [])
            <$> all_fields !! k
     else None) /\
  (forall val, all_fields !! b = Some val -> expandable val ->
     exists val', get_fields context all_fields !! b = Some val' /\
                  nested_request val' = Some [c]).
Proof.
  intros Hctx Hparam Hnone Ha1 Ha2 Ha3 Hb1 Hb2 Hc.
  set (fields := [a; b +:+ "." +:+ c]).
  assert (Hreq : requested context = Some fields).
  { unfold requested, fields_in_request. rewrite Hnone, Hctx, Hparam.
    assert (truthy (a +:+ "," +:+ b +:+ "." +:+ c) = true) as ->.
    { destruct a; done. }
    by rewrite split_a_b_dot_c. }
  assert (Hrel : relevant_fields fields = [a; b]).
  { unfold relevant_fields, fields, RELATED_FIELD_SEPARATOR in *. simpl.
    rewrite (split_no_sep "." a) by done.
    change (b +:+ "." +:+ c) with (b +:+ String "." c).
    by rewrite split_char_app. }
  assert (Hstar : ALL_FIELDS_SPECIFIER ∉ fields).
  { unfold fields. intros [E|[E|E]%elem_of_cons]%elem_of_cons.
    - done.
    - assert (Hd : contains "." (b +:+ "." +:+ c) = true).
      { rewrite contains_char_app. change ("." +:+ c) with (String "." c).
        simpl. by rewrite orb_true_r. }
      by rewrite <- E in Hd.
    - inversion E. }
  assert (Hk : forall k, get_fields context all_fields !! k =
     if bool_decide (k = a \/ k = b)
     then set_requested_fields (if bool_decide (k = b) then [c] else [])
            <$> all_fields !! k
     else None).
  { intros k. unfold get_fields.
    rewrite (process_fields_lookup context all_fields fields k Hreq) by done.
    rewrite (bool_decide_eq_false_2 _ Hstar), Hrel.
    unfold fields. rewrite sub_paths_a_b_dot_c by done.
    rewrite (bool_decide_ext (k ∈ [a; b]) (k = a \/ k = b)).
    2:{ rewrite !elem_of_cons, elem_of_nil. tauto. }
    by destruct (bool_decide (k = a \/ k = b)). }
  split; [|split; [done|]].
  - apply set_eq. intros k.
    rewrite elem_of_intersection, !elem_of_dom, Hk.
    rewrite elem_of_union, !elem_of_singleton.
    case_bool_decide as Hab.
    + rewrite fmap_is_Some. tauto.
    + split; [by intros [? ?]|tauto].
  - intros val Hval Hexp. rewrite Hk, Hval.
    rewrite !bool_decide_eq_true_2 by auto. simpl.
    eexists; split; [done|]. by apply nested_request_set.
Qed.

End field_selection_claims.

Section field_selection_examples.
Import pystr serializers example.

Lemma get_fields_wildcard_keeps_all_witness :
  dom (get_fields (context_of_request "*,b.c") post_fields) = dom post_fields /\
  forall k, get_fields (context_of_request "*,b.c") post_fields !! k =
            set_requested_fields (sub_paths ["*"; "b.c"] k) <$> post_fields !! k.
Proof.
  apply (get_fields_wildcard_keeps_all
           (context_of_request "*,b.c") post_fields ["*"; "b.c"]).
  - reflexivity.
  - apply list_elem_of_here.
Defined.

Lemma wildcard_still_propagates_witness :
  exists val',
    get_fields (context_of_request "*,b.c") post_fields !! "b" = Some val' /\
    requested_fields val' = Some ["c"].
Proof.
  destruct (wildcard_still_propagates
              (context_of_request "*,b.c") post_fields ["*"; "b.c"] "b"
              (related_field "b"))
    as (val' & Hget & Hdirect & _).
  - reflexivity.
  - apply list_elem_of_here.
  - reflexivity.
  - exists val'. split; [exact Hget|].
    apply Hdirect. exists []. reflexivity.
Defined.

(** C1, as stated, fails for the serializer nested under [b] in the very
    same request: its context carries the request with [fields=a,b.c]
    and a [requested_fields] entry, which wins; [c] is kept. *)
Lemma get_fields_request_param_counterexample :
  ~ (forall (context : Context) (request : Request)
            (all_fields : gmap string (Field string)),
       context_request context = Some request ->
       request_params request !! "fields" = Some "a,b.c" ->
       dom (get_fields context all_fields) = dom all_fields ∩ {["a"; "b"]}).
Proof.
  intros H.
  specialize (H (nested_context "a,b.c" ["c"]) (request_with_fields "a,b.c")
                author_fields eq_refl eq_refl).
  apply (f_equal (fun s : gset string => bool_decide ("c" ∈ s))) in H.
  vm_compute in H. discriminate H.
Qed.

Lemma get_fields_a_b_dot_c_witness :
  dom (get_fields (context_of_request "a,b.c") post_fields)
    = dom post_fields ∩ {["a"; "b"]} /\
  (forall k, get_fields (context_of_request "a,b.c") post_fields !! k =
     if bool_decide (k = "a" \/ k = "b")
     then set_requested_fields (if bool_decide (k = "b") then ["c"] else [])
            <$> post_fields !! k
     else None) /\
  (forall val, post_fields !! "b" = Some val -> expandable val ->
     exists val',
       get_fields (context_of_request "a,b.c") post_fields !! "b" = Some val' /\
       nested_request val' = Some ["c"]).
Proof.
  apply (get_fields_a_b_dot_c (context_of_request "a,b.c")
           (request_with_fields "a,b.c") post_fields "a" "b" "c");
    first [reflexivity | discriminate].
Defined.

End field_selection_examples.

(** ** [serializers.py]: [build_obj] leaves the caller's dictionary alone *)

Section build_obj_frame.
Import python model_meta serializers.
Context {Model ModelField Value Instance : Type}.
Variable get_field_info : Model -> FieldInfo Model ModelField.
Variable model_name : Model -> string.
Variable raise_errors_on_nested_writes :
  string -> Serializer (Model:=Model) -> gmap string Value -> option string.
Variable model_init : Model -> gmap string Value -> Instance + string.

Local Abbreviation heap := (gmap nat (gmap string Value)).
Local Abbreviation touches_only := (touches_only (Value:=Value)).

Lemma touches_only_ret {A : Type} (v : nat) (a : A) : touches_only v (ret a).
Proof. by intros h d _. Qed.

Lemma touches_only_raise {A : Type} (v : nat) (e : exn) :
  touches_only v (raise (A:=A) e).
Proof. by intros h d _. Qed.

Lemma touches_only_bind {A B : Type} (v : nat) (c : st heap A)
    (k : A -> st heap B) :
  touches_only v c -> (forall a, touches_only v (k a)) ->
  touches_only v (bind c k).
Proof.
  intros Hc Hk h d Hd. unfold bind. specialize (Hc h d Hd).
  destruct (c h) as [[a|e|] h'] eqn:E; simpl in *; [|done..].
  by rewrite (Hk a h' d Hd).
Qed.

Lemma touches_only_dict_read (v : nat) : touches_only v (dict_read v).
Proof. by intros h d _. Qed.

Lemma touches_only_dict_pop (v : nat) (key : string) :
  touches_only v (dict_pop v key).
Proof.
  intros h d Hd. unfold dict_pop.
  destruct (dict_at h v !! key); simpl; [|done].
  by rewrite lookup_insert_ne.
Qed.

Lemma touches_only_pop_to_many (v : nat)
    (item : string * RelationInfo Model ModelField)
    (many_to_many : gmap string Value) :
  touches_only v (pop_to_many v item many_to_many).
Proof.
  destruct item as [field_name relation_info]. unfold pop_to_many.
  apply touches_only_bind; [apply touches_only_dict_read|].
  intros contents. destruct (_ && _).
  - apply touches_only_bind; [apply touches_only_dict_pop|].
    intros a. apply touches_only_ret.
  - apply touches_only_ret.
Qed.

Lemma touches_only_for_each {A B : Type} (v : nat) (l : list A)
    (body : A -> B -> st heap B) (acc : B) :
  (forall x b, touches_only v (body x b)) ->
  touches_only v (for_each l body acc).
Proof.
  intros Hbody. revert acc. induction l as [|x l IH]; intros acc; simpl.
  - apply touches_only_ret.
  - apply touches_only_bind; [apply Hbody|]. intros b. apply IH.
Qed.

(** C9: whatever [build_obj] comes to -- an instance, the [TypeError] of
    a failed construction, a failed assertion -- the dictionary it was
    given holds what it held before. *)
Theorem build_obj_leaves_data_unchanged (self : Serializer)
    (data : option nat) (h : heap) (d : nat) (contents : gmap string Value) :
  data = Some d \/ (data = None /\ validated_data self = Some d) ->
  h !! d = Some contents ->
  (build_obj get_field_info model_name raise_errors_on_nested_writes
     model_init self data h).2 !! d = Some contents.
Proof.
  intros Hdata Hd. unfold build_obj.
  assert (Hresolve :
    (match data with
     | None =>
         match validated_data self with
         | Some d => ret d
         | None => raise (AssertionError "You must call `.is_valid()` before accessing `.validated_data`.")
         end
     | Some d => ret d
     end : st heap nat) = ret d).
  { destruct Hdata as [->|[-> ->]]; done. }
  rewrite Hresolve. unfold bind at 1, ret at 1.
  unfold bind at 1, copy_copy at 1.
  set (v := fresh (dom h)).
  assert (Hv : d <> v).
  { intros ->. apply (is_fresh (dom h)). apply elem_of_dom. eauto. }
  match goal with
  | |- (?c ?h1).2 !! d = _ =>
      assert (Htouch : touches_only v c); [|rewrite (Htouch h1 d Hv)]
  end.
  - apply touches_only_bind; [apply touches_only_dict_read|]. intros c0.
    apply touches_only_bind.
    { destruct (raise_errors_on_nested_writes _ _ _);
        [apply touches_only_raise|apply touches_only_ret]. }
    intros _. apply touches_only_bind.
    { apply touches_only_for_each. intros x b. apply touches_only_pop_to_many. }
    intros m2m. apply touches_only_bind; [apply touches_only_dict_read|].
    intros kwargs. destruct (model_init _ _);
      [apply touches_only_ret|apply touches_only_raise].
  - by rewrite lookup_insert_ne.
Qed.

End build_obj_frame.

(** ** [serializers.py]: polymorphic dispatch *)

Section polymorphic_dispatch.
Import python serializers.
Context {Model Obj Repr Ctx : Type} `{Countable Model}.
Local Abbreviation SerializerClass := (@SerializerClass Model Obj Repr Ctx).
Variable isinstance : Obj -> Model -> bool.
Variable iterkeys : gmap Model SerializerClass -> list Model.
Variable super_to_representation : Obj -> Repr.
Hypothesis iterkeys_perm : forall m, iterkeys m ≡ₚ (map_to_list m).*1.

Implicit Types (subtype_serializers : list SerializerClass).

(** Every entry of the mapping is a listed serializer under its own
    [Meta.model], and every listed serializer's model is a key. *)
Lemma subtype_serializers_map_from
    (m0 : gmap Model SerializerClass) subtype_serializers :
  let m := foldl (fun m s => <[subtype_model s := s]> m) m0 subtype_serializers in
  (forall model s, m !! model = Some s ->
     m0 !! model = Some s \/ (subtype_model s = model /\ s ∈ subtype_serializers)) /\
  (forall s, s ∈ subtype_serializers -> is_Some (m !! subtype_model s)) /\
  (forall model, is_Some (m0 !! model) -> is_Some (m !! model)).
Proof.
  revert m0. induction subtype_serializers as [|s l IH]; intros m0; simpl.
  - split; [|split]; [by left| by intros ? ?%elem_of_nil | done].
  - destruct (IH (<[subtype_model s := s]> m0)) as (IH1 & IH2 & IH3).
    split; [|split].
    + intros model s' Hs'. destruct (IH1 model s' Hs') as [Hin|[? ?]].
      * destruct (decide (subtype_model s = model)) as [<-|Hne].
        -- rewrite lookup_insert_eq in Hin. simplify_eq. right.
           split; [done|by left].
        -- rewrite lookup_insert_ne in Hin by done. by left.
      * right. split; [done|by right].
    + intros s' [->|Hin]%elem_of_cons.
      * apply IH3. rewrite lookup_insert_eq. eauto.
      * by apply IH2.
    + intros model Hm. apply IH3.
      destruct (decide (subtype_model s = model)) as [<-|Hne].
      * rewrite lookup_insert_eq. eauto.
      * by rewrite lookup_insert_ne.
Qed.

Lemma subtype_serializers_map_entry subtype_serializers model s :
  subtype_serializers_map subtype_serializers !! model = Some s ->
  subtype_model s = model /\ s ∈ subtype_serializers.
Proof.
  intros Hs.
  destruct (subtype_serializers_map_from ∅ subtype_serializers) as (H1 & _ & _).
  destruct (H1 model s Hs) as [Hin|?]; [|done].
  by rewrite lookup_empty in Hin.
Qed.

Lemma subtype_serializers_map_key subtype_serializers s :
  s ∈ subtype_serializers ->
  is_Some (subtype_serializers_map subtype_serializers !! subtype_model s).
Proof.
  intros Hs.
  destruct (subtype_serializers_map_from ∅ subtype_serializers) as (_ & H2 & _).
  by apply H2.
Qed.

(** The entry of a model is the serializer listed last for it. *)
Lemma subtype_serializers_map_listed_last subtype_serializers model s :
  subtype_serializers_map subtype_serializers !! model = Some s ->
  exists before after,
    subtype_serializers = before ++ s :: after /\
    subtype_model s = model /\
    forall s', s' ∈ after -> subtype_model s' <> model.
Proof.
  unfold subtype_serializers_map. revert s.
  induction subtype_serializers as [|x l IH] using rev_ind; intros s.
  - simpl. by rewrite lookup_empty.
  - rewrite foldl_app. simpl.
    destruct (decide (subtype_model x = model)) as [<-|Hne].
    + rewrite lookup_insert_eq. intros [= <-]. exists l, [].
      split; [done|]. split; [done|]. by intros ? ?%elem_of_nil.
    + rewrite lookup_insert_ne by done. intros Hs.
      destruct (IH s Hs) as (before & after & -> & Hm & Hafter).
      exists before, (after ++ [x]). split; [by rewrite <- app_assoc|].
      split; [done|].
      intros s' [Hs'|Hs'%list_elem_of_singleton]%elem_of_app;
        [by apply Hafter|by subst s'].
Qed.

(** The loop over the keys returns at the first matching key. *)
Lemma dispatch_spec (m : gmap Model SerializerClass) (context : Ctx)
    (obj : Obj) (models : list Model) :
  (forall model, model ∈ models -> is_Some (m !! model)) ->
  (exists pre model post serializer,
     models = pre ++ model :: post /\
     (forall model', model' ∈ pre -> isinstance obj model' = false) /\
     isinstance obj model = true /\
     m !! model = Some serializer /\
     dispatch isinstance m context obj models =
       Some (Ok (subtype_to_representation serializer context obj))) \/
  ((forall model, model ∈ models -> isinstance obj model = false) /\
   dispatch isinstance m context obj models = None).
Proof.
  induction models as [|model models IH]; intros Hkeys; simpl.
  - right. split; [|done]. by intros ? ?%elem_of_nil.
  - destruct (isinstance obj model) eqn:E.
    + left. destruct (Hkeys model ltac:(by left)) as [s Hs].
      exists [], model, models, s. rewrite Hs.
      repeat split; try done. by intros ? ?%elem_of_nil.
    + destruct IH as [(pre & model' & post & s & -> & Hpre & Hm & Hs & Hd)|[Hall Hd]].
      { intros ? ?. apply Hkeys. by right. }
      * left. exists (model :: pre), model', post, s.
        repeat split; try done.
        intros ? [->|?]%elem_of_cons; [done|by apply Hpre].
      * right. split; [|done].
        intros ? [->|?]%elem_of_cons; [done|by apply Hall].
Qed.

(** C7 (amended): the method builds a dictionary from [Meta.model] to
    serializer out of [Meta.subtype_serializers], in which the serializer
    listed last for a model is the entry of that model; the object is
    represented by the entry of the first model it is an instance of, first
    in the order in which the dictionary hands out its keys -- not in the
    order of the list; without any listed serializer whose model the object
    is an instance of, the base class represents it. *)
Theorem to_representation_dispatch subtype_serializers (context : Ctx) (obj : Obj) :
  let mapping := subtype_serializers_map subtype_serializers in
  (exists pre model post serializer before after,
     iterkeys mapping = pre ++ model :: post /\
     (forall model', model' ∈ pre -> isinstance obj model' = false) /\
     isinstance obj model = true /\
     mapping !! model = Some serializer /\
     subtype_model serializer = model /\
     subtype_serializers = before ++ serializer :: after /\
     (forall s', s' ∈ after -> subtype_model s' <> model) /\
     to_representation isinstance iterkeys super_to_representation
       subtype_serializers context obj =
     Ok (subtype_to_representation serializer context obj)) \/
  ((forall serializer, serializer ∈ subtype_serializers ->
      isinstance obj (subtype_model serializer) = false) /\
   to_representation isinstance iterkeys super_to_representation
     subtype_serializers context obj =
   Ok (super_to_representation obj)).
Proof.
  intros mapping. unfold to_representation. fold mapping.
  assert (Hkeys : forall model, model ∈ iterkeys mapping <-> is_Some (mapping !! model)).
  { intros model. rewrite iterkeys_perm, list_elem_of_fmap. split.
    - intros [[k s] [-> Hs%elem_of_map_to_list]]. eauto.
    - intros [s Hs]. exists (model, s). by rewrite elem_of_map_to_list. }
  destruct (dispatch_spec mapping context obj (iterkeys mapping))
    as [(pre & model & post & s & Hsplit & Hpre & Hm & Hs & Hd)|[Hall Hd]].
  { intros model. apply Hkeys. }
  - left.
    destruct (subtype_serializers_map_listed_last _ _ _ Hs)
      as (before & after & Hlist & Hmodel & Hafter).
    exists pre, model, post, s, before, after. rewrite Hd.
    do 7 (split; [done|]). done.
  - right. rewrite Hd. split; [|done].
    intros s Hs. apply Hall, Hkeys.
    by apply subtype_serializers_map_key.
Qed.

End polymorphic_dispatch.

Section serializers_examples.
Import python serializers example.

(** The run behind the witness: the instance is built from the copy
    without the many-to-many key, and the caller's dictionary keeps it. *)
Example build_post_run :
  (build_post None).1 = Ok ({[ "title" := "Hello" ]} : gmap string string) /\
  (build_post None).2 !! 0 = Some post_data.
Proof. split; vm_compute; reflexivity. Qed.

(** A construction that fails: the [TypeError] is raised and the
    caller's dictionary is as it was. *)
Example build_post_type_error :
  (exists msg, (build_post (Some 1)).1 = Raise (TypeError msg)) /\
  (build_post (Some 1)).2 !! 1 = Some bad_data.
Proof. split; [eexists|]; vm_compute; reflexivity. Qed.

Lemma build_obj_leaves_data_unchanged_witness :
  ((None : option nat) = Some 0 \/
   ((None : option nat) = None /\ validated_data post_serializer = Some 0)) /\
  post_heap !! 0 = Some post_data /\
  (build_post None).2 !! 0 = Some post_data.
Proof.
  assert (Hdata : (None : option nat) = Some 0 \/
                  ((None : option nat) = None /\
                   validated_data post_serializer = Some 0)).
  { right. split; reflexivity. }
  assert (Hheap : post_heap !! 0 = Some post_data) by reflexivity.
  split; [exact Hdata|]. split; [exact Hheap|].
  exact (build_obj_leaves_data_unchanged get_field_info (fun m : string => m)
           no_nested_writes model_init post_serializer None post_heap 0
           post_data Hdata Hheap).
Defined.

Example represent_article : represent ["Article"; "Content"] = Ok "represented as Article".
Proof. vm_compute. reflexivity. Qed.

Example represent_other : represent ["Comment"] = Ok "represented by the base class".
Proof. vm_compute. reflexivity. Qed.

(** C7, as stated, fails: of two serializers listed for the model of the
    object, the one listed first is passed over for the one listed last. *)
Lemma first_listed_serializer_counterexample :
  ~ (forall (subtype_serializers :
               list (SerializerClass (Model:=string) (Obj:=list string)
                       (Repr:=string) (Ctx:=unit)))
            (obj : list string),
       to_representation isinstance iterkeys
         (fun _ => "represented by the base class") subtype_serializers tt obj =
       match find (fun s => isinstance obj (subtype_model s)) subtype_serializers with
       | Some serializer => Ok (subtype_to_representation serializer tt obj)
       | None => Ok "represented by the base class"
       end).
Proof.
  intros Hclaim.
  specialize (Hclaim [example_more.serializer_labelled "Article" "first";
                      example_more.serializer_labelled "Article" "second"]
                ["Article"]).
  vm_compute in Hclaim. discriminate Hclaim.
Qed.

Lemma to_representation_dispatch_witness :
  let subtype_serializers := [serializer_for "Video"; serializer_for "Article"] in
  let obj := ["Article"; "Content"] in
  let mapping := subtype_serializers_map subtype_serializers in
  (exists pre model post serializer before after,
     iterkeys mapping = pre ++ model :: post /\
     (forall model', model' ∈ pre -> isinstance obj model' = false) /\
     isinstance obj model = true /\
     mapping !! model = Some serializer /\
     subtype_model serializer = model /\
     subtype_serializers = before ++ serializer :: after /\
     (forall s', s' ∈ after -> subtype_model s' <> model) /\
     represent obj = Ok (subtype_to_representation serializer tt obj)) \/
  ((forall serializer, serializer ∈ subtype_serializers ->
      isinstance obj (subtype_model serializer) = false) /\
   represent obj = Ok "represented by the base class").
Proof.
  apply (to_representation_dispatch isinstance iterkeys
           (fun _ => "represented by the base class")).
  intros m. reflexivity.
Defined.

End serializers_examples.

(** ** [filters.py]: the backend and duplicates *)

Section backend_distinct.
Import filters example_more.

(** [filter_queryset] ends in the ORM's [distinct()], whatever that
    does. *)
Lemma filter_queryset_distinct_last {Request View QuerySet : Type}
    (super_filter_queryset : Request -> QuerySet -> View -> QuerySet)
    (distinct : QuerySet -> QuerySet) (request : Request)
    (queryset : QuerySet) (view : View) :
  filter_queryset super_filter_queryset distinct request queryset view =
  distinct (super_filter_queryset request queryset view).
Proof. reflexivity. Qed.

(** C6, on a queryset ordered by a column of a joined table: the rows of
    the query differ in that column, [distinct()] keeps them all, and the
    queryset [filter_queryset] returns yields post [1] twice. *)
Theorem filter_queryset_duplicate_object :
  filter_queryset base_filter_queryset orm_distinct tt posts_by_tag_label tt =
    [(1, "django"); (2, "python"); (1, "rocq")] /\
  NoDup (filter_queryset base_filter_queryset orm_distinct tt posts_by_tag_label tt) /\
  objects (filter_queryset base_filter_queryset orm_distinct tt posts_by_tag_label tt)
    = [1; 2; 1] /\
  ~ NoDup (objects (filter_queryset base_filter_queryset orm_distinct tt
                      posts_by_tag_label tt)).
Proof.
  assert (Hrun : filter_queryset base_filter_queryset orm_distinct tt
                   posts_by_tag_label tt =
                 [(1, "django"); (2, "python"); (1, "rocq")])
    by (vm_compute; reflexivity).
  rewrite Hrun. split; [reflexivity|]. split; [|split; [reflexivity|]].
  - unfold posts_by_tag_label. repeat (apply NoDup_cons; split);
      [| |apply not_elem_of_nil|apply NoDup_nil_2];
      rewrite ?not_elem_of_cons; repeat split;
      try discriminate; apply not_elem_of_nil.
  - simpl. intros Hnd. apply NoDup_cons in Hnd as [Hout _].
    apply Hout. apply list_elem_of_further, list_elem_of_here.
Qed.

End backend_distinct.

(** ** [filters.py]: reading through the cache *)

Section filters_sim.
Import python model_meta filters filters_pure.
Context {Model ModelField ExtraFilter : Type} `{Countable Model}.
Variable get_field_info : Model -> FieldInfo Model ModelField.
Variable model_str : Model -> string.
Variable iteritems :
  gmap string (list string) -> list (string * list string).
Variable filterset_init : FilterSet Model ExtraFilter -> option exn.

Local Abbreviation Cache := (gmap Model (FieldInfo Model ModelField)).
Local Abbreviation sim := (sim get_field_info).
Local Abbreviation coherent := (coherent get_field_info).

Lemma coherent_empty : coherent ∅.
Proof. intros m info Hm. by rewrite lookup_empty in Hm. Qed.

Lemma sim_ret {A : Type} (a : A) : sim (ret a) (Ok a).
Proof. intros cache Hc. by exists cache. Qed.

Lemma sim_raise {A : Type} (e : exn) : sim (raise (A:=A) e) (Raise e).
Proof. intros cache Hc. by exists cache. Qed.

Lemma sim_out_of_fuel {A : Type} : sim (out_of_fuel (A:=A)) OutOfFuel.
Proof. intros cache Hc. by exists cache. Qed.

Lemma sim_bind {A B : Type} (c : st Cache A) (k : A -> st Cache B)
    (r : result A) (k' : A -> result B) :
  sim c r -> (forall a, sim (k a) (k' a)) -> sim (bind c k) (rbind r k').
Proof.
  intros Hc Hk cache Hcoh. unfold bind.
  destruct (Hc cache Hcoh) as (cache1 & -> & Hcoh1).
  destruct r as [a|e|]; simpl; [by apply Hk|eauto..].
Qed.

Lemma sim_for_each {A B : Type} (l : list A) (body : A -> B -> st Cache B)
    (body' : A -> B -> result B) (acc : B) :
  (forall x b, sim (body x b) (body' x b)) ->
  sim (for_each l body acc) (rfor_each l body' acc).
Proof.
  intros Hbody. revert acc. induction l as [|x l IH]; intros acc; simpl.
  - apply sim_ret.
  - apply sim_bind; [apply Hbody|apply IH].
Qed.

Lemma _get_field_info_sim (Model' : option Model) :
  sim (_get_field_info get_field_info Model') (field_info_of get_field_info Model').
Proof.
  destruct Model' as [m|]; simpl; [|apply sim_raise].
  intros cache Hc. unfold bind, get. simpl.
  destruct (cache !! m) as [info|] eqn:E; simpl.
  - exists cache. by rewrite (Hc m info E).
  - eexists. split; [done|].
    intros m' info'. destruct (decide (m = m')) as [->|Hne].
    + rewrite lookup_insert_eq. by intros [= <-].
    + rewrite lookup_insert_ne by done. apply Hc.
Qed.

Lemma _get_related_model_sim (Model' : option Model) (f : string) :
  sim (_get_related_model get_field_info Model' f)
      (related_model_of get_field_info Model' f).
Proof.
  apply sim_bind; [apply _get_field_info_sim|].
  intros info. destruct (relations info !! f); apply sim_ret.
Qed.

Lemma _get_model_field_sim (Model' : option Model) (f : string) :
  sim (_get_model_field get_field_info Model' f)
      (model_field_of get_field_info Model' f).
Proof.
  apply sim_bind; [apply _get_field_info_sim|].
  intros info. destruct (fields_and_pk info !! f); apply sim_ret.
Qed.

Lemma related_fields_step_sim (Model' : option Model) (f : string)
    (state : list string * gmap string (list string)) :
  sim (filters.related_fields_step get_field_info Model' f state)
      (filters_pure.related_fields_step get_field_info Model' f state).
Proof.
  destruct state as [args related_fields].
  unfold filters.related_fields_step, filters_pure.related_fields_step, is_related.
  apply sim_bind.
  - destruct (pystr.contains _ _); [apply sim_ret|].
    apply sim_bind; [apply _get_related_model_sim|]. intros ?. apply sim_ret.
  - intros [|]; [|apply sim_ret]. unfold advance.
    destruct (pystr.split _ _); [apply sim_raise|apply sim_ret].
Qed.

Lemma related_fields_loop_sim (fuel : nat) (Model' : option Model) (i : nat)
    (state : list string * gmap string (list string)) :
  sim (filters.related_fields_loop get_field_info fuel Model' i state)
      (filters_pure.related_fields_loop get_field_info fuel Model' i state).
Proof.
  revert i state. induction fuel as [|fuel IH]; intros i state; simpl.
  - destruct (state.1 !! i); [apply sim_out_of_fuel|apply sim_ret].
  - destruct (state.1 !! i); [|apply sim_ret].
    apply sim_bind; [apply related_fields_step_sim|]. intros st. apply IH.
Qed.

Lemma validate_field_sim (Model' : option Model) (f : string) :
  sim (filters.validate_field get_field_info model_str Model' f)
      (filters_pure.validate_field get_field_info model_str Model' f).
Proof.
  apply sim_bind; [apply _get_model_field_sim|].
  intros [?|]; [apply sim_ret|apply sim_raise].
Qed.

Lemma class_attrs_step_sim (Model' : option Model)
    (related_classes : gmap string (FilterSet Model ExtraFilter)) (f : string)
    (state : list string * gmap string (Filter Model ExtraFilter)) :
  sim (filters.class_attrs_step get_field_info model_str Model' related_classes f state)
      (filters_pure.class_attrs_step get_field_info model_str Model' related_classes f state).
Proof.
  destruct state as [fields_on_model class_attrs].
  unfold filters.class_attrs_step, filters_pure.class_attrs_step.
  destruct (pystr.contains _ _); [apply sim_ret|].
  apply sim_bind; [apply validate_field_sim|]. intros _. apply sim_ret.
Qed.

Lemma create_filter_class_rec_sim (fuel : nat) (Model' : option Model)
    (args : list string) (kwargs : gmap string ExtraFilter) :
  sim (filters.create_filter_class_rec get_field_info model_str iteritems
         filterset_init fuel Model' args kwargs)
      (filters_pure.create_filter_class_rec get_field_info model_str iteritems
         filterset_init fuel Model' args kwargs).
Proof.
  revert Model' args kwargs.
  induction fuel as [|fuel IH]; intros Model' args kwargs; simpl.
  - apply sim_out_of_fuel.
  - apply sim_bind; [apply related_fields_loop_sim|].
    intros [args' related_fields]. apply sim_bind.
    + apply sim_for_each. intros [f model_fields] related_classes.
      unfold related_class_step.
      apply sim_bind; [apply _get_related_model_sim|]. intros rel_model.
      apply sim_bind; [apply IH|]. intros ?. apply sim_ret.
    + intros related_classes. apply sim_bind.
      * apply sim_for_each. intros f st. apply class_attrs_step_sim.
      * intros [fields_on_model class_attrs].
        destruct (filterset_init _); [apply sim_raise|apply sim_ret].
Qed.

(** On a coherent cache, in particular on the empty one,
    [create_filter_class] comes to what the cache-free reading says. *)
Lemma create_filter_class_sim (Model' : option Model) (args : list string)
    (kwargs : gmap string ExtraFilter) :
  sim (filters.create_filter_class get_field_info model_str iteritems
         filterset_init Model' args kwargs)
      (filters_pure.create_filter_class get_field_info model_str iteritems
         filterset_init Model' args kwargs).
Proof. apply create_filter_class_rec_sim. Qed.

End filters_sim.

(** ** [filters.py]: the loop over the growing argument list *)

Section filters_first_loop.
Import python model_meta filters filters_pure pystr.
Context {Model ModelField : Type} `{Countable Model}.
Variable get_field_info : Model -> FieldInfo Model ModelField.

Local Abbreviation SEP := RELATED_FIELD_SEP.
Local Abbreviation is_related := (is_related get_field_info).
Local Abbreviation step := (filters_pure.related_fields_step get_field_info).
Local Abbreviation loop := (filters_pure.related_fields_loop get_field_info).
Local Abbreviation loop_facts := (filters_pure.loop_facts get_field_info).

Implicit Types (a args ext : list string) (rf : gmap string (list string)).
Implicit Types (f g k fname : string) (M : option Model).

Lemma SEP_not_empty : SEP <> "".
Proof. done. Qed.

(** What the body does with a related path. *)
Lemma advance_ok f a rf :
  exists fname tl a' rf',
    split SEP f = fname :: tl /\
    advance f (a, rf) = Ok (a', rf') /\
    a' = (if bool_decide (fname ∈ a) then a else a ++ [fname]) /\
    rf' !! fname =
      Some (default [] (rf !! fname) ++
            (if truthy (join SEP tl) then [join SEP tl] else [])) /\
    (forall k, k <> fname -> rf' !! k = rf !! k).
Proof.
  unfold advance.
  pose proof (split_not_nil SEP f SEP_not_empty) as Hne.
  destruct (split SEP f) as [|fname tl]; [done|]. cbn [tail].
  eexists fname, tl, _, _. split; [done|]. split; [done|]. split; [done|].
  destruct (truthy (join SEP tl)); (split; [|intros k Hk]).
  - rewrite lookup_alter_eq. destruct (rf !! fname) as [l|] eqn:E; simpl.
    + by rewrite E.
    + by rewrite lookup_insert_eq.
  - rewrite lookup_alter_ne by done.
    destruct (rf !! fname); [done|]. by rewrite lookup_insert_ne.
  - rewrite app_nil_r. destruct (rf !! fname) as [l|] eqn:E; simpl.
    + done.
    + by rewrite lookup_insert_eq.
  - destruct (rf !! fname); [done|]. by rewrite lookup_insert_ne.
Qed.

Lemma is_related_not_out_of_fuel M f : is_related M f <> OutOfFuel.
Proof.
  unfold filters_pure.is_related, related_model_of, field_info_of.
  destruct (contains SEP f); [done|].
  destruct M as [m|]; simpl; [|done].
  by destruct (relations (get_field_info m) !! f).
Qed.

Lemma step_not_out_of_fuel M f a rf : step M f (a, rf) <> OutOfFuel.
Proof.
  unfold filters_pure.related_fields_step.
  pose proof (is_related_not_out_of_fuel M f).
  destruct (is_related M f) as [[|]| |]; cbn [rbind]; try done.
  destruct (advance_ok f a rf) as (? & ? & ? & ? & _ & -> & _). done.
Qed.

(** A name appended by the loop is without separator, is in [args] and
    is a key of [related_fields]: visiting it changes nothing. *)
Lemma advance_appended g a rf :
  contains SEP g = false -> g ∈ a -> is_Some (rf !! g) ->
  advance g (a, rf) = Ok (a, rf).
Proof.
  intros Hsep Hin [l Hl]. unfold advance.
  rewrite (split_no_sep SEP g SEP_not_empty Hsep). simpl.
  rewrite Hl. by rewrite bool_decide_eq_true_2.
Qed.

Lemma step_appended M g a rf :
  contains SEP g = false -> g ∈ a -> is_Some (rf !! g) ->
  step M g (a, rf) = Ok (a, rf) \/ exists e, step M g (a, rf) = Raise e.
Proof.
  intros Hsep Hin Hrf. unfold filters_pure.related_fields_step.
  pose proof (is_related_not_out_of_fuel M g).
  destruct (is_related M g) as [[|]|e|]; cbn [rbind]; [|by left|by eauto|done].
  left. by apply advance_appended.
Qed.

(** *** The shape of the loop state *)

Lemma step_grown M args f a rf a1 rf1 :
  grown args (a, rf) -> step M f (a, rf) = Ok (a1, rf1) ->
  grown args (a1, rf1) /\
  (exists ext1, a1 = a ++ ext1 /\ length ext1 <= 1) /\
  (forall k, is_Some (rf !! k) -> is_Some (rf1 !! k)).
Proof.
  intros (ext & Ha & Hext) Hstep. simpl in *.
  unfold filters_pure.related_fields_step in Hstep.
  destruct (is_related M f) as [[|]|e|]; cbn [rbind] in Hstep; try done.
  2:{ simplify_eq. split.
      { exists ext. split; [done|exact Hext]. }
      split; [|done]. exists []. split; [by rewrite app_nil_r|simpl; lia]. }
  destruct (advance_ok f a rf) as (fname & tl & a' & rf' & Hs & Hadv & Ha' & Hf & Hk).
  rewrite Hadv in Hstep. simplify_eq.
  assert (Hmono : forall k, is_Some (rf !! k) -> is_Some (rf1 !! k)).
  { intros k Hsome. destruct (decide (k = fname)) as [->|Hne].
    - rewrite Hf. eauto.
    - by rewrite Hk. }
  pose proof (split_head_no_sep SEP f fname tl SEP_not_empty Hs) as Hnosep.
  split; [|split; [|done]].
  - case_bool_decide.
    + exists ext. split; [done|]. intros g Hg.
      destruct (Hext g Hg). split; [done|]. by apply Hmono.
    + exists (ext ++ [fname]). split; [by rewrite app_assoc|].
      intros g [Hg|Hg%list_elem_of_singleton]%elem_of_app.
      * destruct (Hext g Hg). split; [done|]. by apply Hmono.
      * subst g. split; [done|]. simpl. rewrite Hf. eauto.
  - case_bool_decide.
    + exists []. split; [by rewrite app_nil_r|simpl; lia].
    + exists [fname]. split; [done|simpl; lia].
Qed.

(** *** The loop never runs out of its budget *)

Lemma loop_not_out_of_fuel M args fuel i a rf :
  grown args (a, rf) ->
  (length a - i) + (length args - i) <= fuel ->
  loop fuel M i (a, rf) <> OutOfFuel.
Proof.
  revert i a rf. induction fuel as [|fuel IH]; intros i a rf Hgrown Hfuel.
  - simpl. destruct (a !! i) as [f|] eqn:E; [|done].
    apply lookup_lt_Some in E. lia.
  - simpl. destruct (a !! i) as [f|] eqn:E; [|done].
    pose proof (lookup_lt_Some _ _ _ E) as Hlt.
    pose proof (step_not_out_of_fuel M f a rf) as Hstep.
    destruct (step M f (a, rf)) as [[a1 rf1]|e|] eqn:Es; simpl; [|done..].
    destruct (step_grown M args f a rf a1 rf1 Hgrown Es)
      as (Hgrown1 & (ext1 & -> & Hlen) & _).
    apply (IH _ _ _ Hgrown1). rewrite length_app.
    destruct (decide (i < length args)) as [Hor|Happ]; [lia|].
    (* an appended name: the visit changes nothing *)
    destruct Hgrown as (ext & Ha & Hext). simpl in Ha.
    assert (Hf : f ∈ ext).
    { rewrite Ha in E. rewrite lookup_app_r in E by lia.
      by eapply list_elem_of_lookup_2. }
    destruct (Hext f Hf) as [Hsep Hsome]. simpl in Hsome.
    destruct (step_appended M f a rf Hsep) as [Hsame|[e He]]; try done.
    + rewrite Ha. apply elem_of_app. by right.
    + rewrite Es in Hsame. simplify_eq.
      assert (ext1 = []) as -> by (by eapply app_inv_head; rewrite app_nil_r).
      simpl. lia.
    + by rewrite Es in He.
Qed.

Lemma grown_initial args : grown args (args, ∅).
Proof. exists []. split; [by rewrite app_nil_r|]. by intros ? ?%elem_of_nil. Qed.

Lemma first_loop_not_out_of_fuel M args :
  loop (2 * length args) M 0 (args, ∅) <> OutOfFuel.
Proof.
  apply (loop_not_out_of_fuel M args); [apply grown_initial|]. simpl. lia.
Qed.

(** *** Invariants of the loop *)

Lemma loop_inv (P : nat -> list string * gmap string (list string) -> Prop)
    M fuel i st st' :
  P i st ->
  (forall j s f s1, P j s -> s.1 !! j = Some f -> step M f s = Ok s1 -> P (S j) s1) ->
  loop fuel M i st = Ok st' ->
  exists n, P n st' /\ st'.1 !! n = None.
Proof.
  intros HP Hstep. revert i st HP.
  induction fuel as [|fuel IH]; intros i st HP; simpl.
  - destruct (st.1 !! i) eqn:E; [done|]. intros [= <-]. eauto.
  - destruct (st.1 !! i) as [f|] eqn:E; [|intros [= <-]; eauto].
    destruct (step M f st) as [s1| |] eqn:Es; simpl; [|done..].
    apply (IH _ _ (Hstep _ _ _ _ HP E Es)).
Qed.

Lemma loop_facts_initial M args : loop_facts M args 0 (args, ∅).
Proof.
  split; [apply grown_initial|]. split.
  - intros idx f Hidx. lia.
  - intros k mf Hk. simpl in Hk. by rewrite lookup_empty in Hk.
Qed.

Lemma truthy_rest_has_sep f fname tl :
  split SEP f = fname :: tl -> truthy (join SEP tl) = true ->
  contains SEP f = true.
Proof.
  intros Hs Ht. destruct (contains SEP f) eqn:E; [done|].
  rewrite (split_no_sep SEP f SEP_not_empty E) in Hs. by simplify_eq.
Qed.

Lemma loop_facts_step M args j s f s1 :
  loop_facts M args j s -> s.1 !! j = Some f -> step M f s = Ok s1 ->
  loop_facts M args (S j) s1.
Proof.
  destruct s as [a rf], s1 as [a1 rf1].
  intros (Hgrown & Hvisited & Hkeys) Hj Hstep. simpl in Hj.
  destruct (step_grown M args f a rf a1 rf1 Hgrown Hstep)
    as (Hgrown1 & (ext1 & -> & _) & Hmono).
  split; [done|].
  pose proof (lookup_lt_Some _ _ _ Hj) as Hlt.
  unfold filters_pure.related_fields_step in Hstep.
  destruct (is_related M f) as [[|]|e|] eqn:Erel; cbn [rbind] in Hstep; try done.
  2:{ (* not a related path: nothing changes *)
      injection Hstep as Ha1 <-.
      assert (ext1 = []) as ->.
      { apply (app_inv_head a). by rewrite app_nil_r. }
      rewrite app_nil_r in *. split.
      - intros idx f0 Hidx Hf0 Hr0. simpl in *.
        destruct (decide (idx = j)) as [->|Hne]; [congruence|].
        apply (Hvisited idx f0); [lia|done..].
      - done. }
  destruct (advance_ok f a rf) as (fname & tl & a' & rf' & Hs & Hadv & Ha' & Hf & Hk).
  rewrite Hadv in Hstep. injection Hstep as Ha1 Hrf1. subst rf'.
  assert (Hsub : forall x, x ∈ a -> x ∈ a ++ ext1).
  { intros x Hx. apply elem_of_app. by left. }
  assert (Hfa : fname ∈ a ++ ext1).
  { rewrite <- Ha1, Ha'. case_bool_decide; [done|].
    apply elem_of_app. right. by apply list_elem_of_singleton. }
  set (rest := join SEP tl) in *.
  assert (Hlist : forall k mf, rf !! k = Some mf ->
            exists mf', rf1 !! k = Some mf' /\ forall r, r ∈ mf -> r ∈ mf').
  { intros k mf Hm. destruct (decide (k = fname)) as [->|Hne].
    - rewrite Hf, Hm. simpl. eexists. split; [done|].
      intros r Hr. apply elem_of_app. by left.
    - rewrite (Hk k Hne). eauto. }
  split; simpl.
  - intros idx f0 Hidx Hf0 Hr0.
    rewrite lookup_app_l in Hf0 by lia.
    destruct (decide (idx = j)) as [->|Hne].
    + assert (f0 = f) as -> by congruence.
      eexists fname, tl, _. split; [done|]. split; [done|].
      split; [exact Hf|]. intros Ht. fold rest in Ht. rewrite Ht.
      apply elem_of_app. right. by apply list_elem_of_singleton.
    + destruct (Hvisited idx f0 ltac:(lia) Hf0 Hr0)
        as (fname0 & tl0 & mf0 & Hs0 & Hin0 & Hm0 & Hrest0). simpl in *.
      destruct (Hlist _ _ Hm0) as (mf' & Hm' & Hincl).
      exists fname0, tl0, mf'. repeat split; auto.
  - intros k mf Hm. destruct (decide (k = fname)) as [->|Hne].
    + rewrite Hf in Hm. injection Hm as <-. split.
      * exists f. split; [|split; [done|by rewrite Hs]].
        apply Hsub. by eapply list_elem_of_lookup_2.
      * intros r [Hr|Hr]%elem_of_app.
        -- destruct (rf !! fname) as [old|] eqn:Eold; simpl in Hr.
           ++ by apply (Hkeys fname old Eold).
           ++ by apply elem_of_nil in Hr.
        -- destruct (truthy rest) eqn:Et; [|by apply elem_of_nil in Hr].
           apply list_elem_of_singleton in Hr. subst r.
           exists f, tl. repeat split; try done.
           pose proof (truthy_rest_has_sep f fname tl Hs Et) as Hsep.
           destruct Hgrown as (ext & Ha & Hext). simpl in Ha, Hext.
           apply list_elem_of_lookup_2 in Hj. rewrite Ha in Hj.
           apply elem_of_app in Hj as [Hj|Hj]; [done|].
           destruct (Hext f Hj) as [Hno _]. congruence.
    + rewrite (Hk k Hne) in Hm.
      destruct (Hkeys k mf Hm) as [(g & Hg & Hrg & Hhd) Hrs]. simpl in *.
      split; [|done]. exists g. auto.
Qed.

(** The facts the later stages rely on, once the loop is through. *)
Lemma first_loop_facts M args fuel a rf :
  loop fuel M 0 (args, ∅) = Ok (a, rf) ->
  grown args (a, rf) /\
  (forall f, f ∈ a -> is_related M f = Ok true ->
     exists fname tl mf,
       split SEP f = fname :: tl /\ fname ∈ a /\ rf !! fname = Some mf /\
       (truthy (join SEP tl) = true -> join SEP tl ∈ mf)) /\
  (forall k mf, rf !! k = Some mf ->
     (exists g, g ∈ a /\ is_related M g = Ok true /\
                head (split SEP g) = Some k) /\
     forall r, r ∈ mf ->
       exists g tl, g ∈ args /\ split SEP g = k :: tl /\
                    r = join SEP tl /\ truthy r = true).
Proof.
  intros Hloop.
  destruct (loop_inv (loop_facts M args) M fuel 0 (args, ∅) (a, rf))
    as (n & (Hgrown & Hvisited & Hkeys) & Hn).
  - apply loop_facts_initial.
  - apply loop_facts_step.
  - done.
  - split; [done|]. split; [|done].
    intros f [idx Hidx]%list_elem_of_lookup Hrel.
    apply (Hvisited idx f); [|done..].
    apply lookup_ge_None in Hn. apply lookup_lt_Some in Hidx. simpl in *. lia.
Qed.

End filters_first_loop.

(** ** [filters.py]: the stages of [create_filter_class] *)

Section filters_stages.
Import python model_meta filters filters_pure pystr.
Context {Model ModelField ExtraFilter : Type} `{Countable Model}.
Variable get_field_info : Model -> FieldInfo Model ModelField.
Variable model_str : Model -> string.
Variable iteritems :
  gmap string (list string) -> list (string * list string).
Variable filterset_init : FilterSet Model ExtraFilter -> option exn.
Hypothesis iteritems_perm : forall d, iteritems d ≡ₚ map_to_list d.

Local Abbreviation SEP := RELATED_FIELD_SEP.
Local Abbreviation is_related := (is_related get_field_info).
Local Abbreviation loop := (filters_pure.related_fields_loop get_field_info).
Local Abbreviation related_model_of := (related_model_of get_field_info).
Local Abbreviation validate_field :=
  (filters_pure.validate_field get_field_info model_str).
Local Abbreviation class_attrs_step :=
  (filters_pure.class_attrs_step (ExtraFilter:=ExtraFilter) get_field_info model_str).
Local Abbreviation create_rec :=
  (filters_pure.create_filter_class_rec get_field_info model_str iteritems
     filterset_init).
Local Abbreviation create :=
  (filters_pure.create_filter_class get_field_info model_str iteritems
     filterset_init).
Local Abbreviation FilterSet := (FilterSet Model ExtraFilter).
Local Abbreviation Filter := (Filter Model ExtraFilter).

Implicit Types (a args : list string) (rf : gmap string (list string)).
Implicit Types (f g k fname : string) (M : option Model).
Implicit Types (rc : gmap string FilterSet).

(** *** Paths get shorter *)

Lemma depth_elem_of args g : g ∈ args -> S (String.length g) <= depth args.
Proof.
  intros Hg. unfold depth. apply max_list_elem_of_le.
  apply list_elem_of_fmap. by exists g.
Qed.

Lemma depth_lt (mf : list string) (D : nat) :
  0 < D -> (forall r, r ∈ mf -> S (String.length r) < D) -> depth mf < D.
Proof.
  intros HD. unfold depth. induction mf as [|r mf IH]; intros Hall; simpl; [done|].
  apply Nat.max_lub_lt.
  - apply Hall. by left.
  - apply IH. intros r' Hr'. apply Hall. by right.
Qed.

Lemma rest_shorter g k (tl : list string) :
  split SEP g = k :: tl -> truthy (join SEP tl) = true ->
  String.length (join SEP tl) + 2 <= String.length g.
Proof.
  intros Hs Ht. rewrite (split_head_prefix SEP g k tl SEP_not_empty Hs).
  destruct tl as [|w ws]; [done|].
  rewrite !string_app_length. simpl. lia.
Qed.

Lemma first_loop_depth M args fuel a rf k mf :
  loop fuel M 0 (args, ∅) = Ok (a, rf) -> rf !! k = Some mf ->
  depth mf < depth args.
Proof.
  intros Hloop Hk.
  destruct (first_loop_facts get_field_info M args fuel a rf Hloop)
    as (_ & _ & Hkeys).
  destruct (Hkeys k mf Hk) as [_ Hrs].
  assert (Hpos : 0 < depth args).
  { destruct args as [|g args]; [|unfold depth; simpl; lia].
    destruct fuel; simpl in Hloop; simplify_eq; by rewrite lookup_empty in Hk. }
  apply depth_lt; [done|]. intros r Hr.
  destruct (Hrs r Hr) as (g & tl & Hg & Hs & -> & Ht).
  pose proof (rest_shorter g k tl Hs Ht).
  pose proof (depth_elem_of args g Hg). lia.
Qed.

Lemma elem_of_iteritems rf k mf :
  (k, mf) ∈ iteritems rf <-> rf !! k = Some mf.
Proof. by rewrite iteritems_perm, elem_of_map_to_list. Qed.

Lemma NoDup_iteritems rf : NoDup (iteritems rf).*1.
Proof. rewrite iteritems_perm. apply NoDup_fst_map_to_list. Qed.

(** *** Loops over results *)

Lemma rfor_each_ext {A B : Type} (l : list A) (body1 body2 : A -> B -> result B)
    (acc : B) :
  (forall x b, x ∈ l -> body1 x b = body2 x b) ->
  rfor_each l body1 acc = rfor_each l body2 acc.
Proof.
  revert acc. induction l as [|x l IH]; intros acc Hext; simpl; [done|].
  rewrite (Hext x acc) by (by left).
  destruct (body2 x acc); simpl; [|done..].
  apply IH. intros y b Hy. apply Hext. by right.
Qed.

Lemma rfor_each_not_out_of_fuel {A B : Type} (l : list A)
    (body : A -> B -> result B) (acc : B) :
  (forall x b, x ∈ l -> body x b <> OutOfFuel) ->
  rfor_each l body acc <> OutOfFuel.
Proof.
  revert acc. induction l as [|x l IH]; intros acc Hno; simpl; [done|].
  pose proof (Hno x acc ltac:(by left)).
  destruct (body x acc); simpl; [|done..].
  apply IH. intros y b Hy. apply Hno. by right.
Qed.

Lemma related_model_of_not_out_of_fuel M f : related_model_of M f <> OutOfFuel.
Proof.
  unfold filters_pure.related_model_of, field_info_of.
  destruct M as [m|]; simpl; [|done].
  by destruct (relations (get_field_info m) !! f).
Qed.

Lemma validate_field_result M f :
  validate_field M f = Ok tt \/ exists e, validate_field M f = Raise e.
Proof.
  unfold filters_pure.validate_field, model_field_of, field_info_of.
  destruct M as [m|]; simpl; [|eauto].
  destruct (fields_and_pk (get_field_info m) !! f); simpl; [by left|].
  destruct (relations (get_field_info m) !! f); simpl; eauto.
Qed.

Lemma class_attrs_step_not_out_of_fuel M rc f
    (st : list string * gmap string Filter) :
  class_attrs_step M rc f st <> OutOfFuel.
Proof.
  destruct st as [fom attrs]. unfold filters_pure.class_attrs_step.
  destruct (contains SEP f); [done|].
  by destruct (validate_field_result M f) as [->|[e ->]].
Qed.

(** *** The budget of the recursion is enough, and more changes nothing *)

Lemma create_rec_fuel (fuel1 fuel2 : nat) M args (kwargs : gmap string ExtraFilter) :
  depth args < fuel1 -> depth args < fuel2 ->
  create_rec fuel1 M args kwargs = create_rec fuel2 M args kwargs /\
  create_rec fuel1 M args kwargs <> OutOfFuel.
Proof.
  revert fuel2 M args kwargs.
  induction fuel1 as [|fuel1 IH]; intros fuel2 M args kwargs H1 H2; [lia|].
  destruct fuel2 as [|fuel2]; [lia|].
  cbn [filters_pure.create_filter_class_rec].
  pose proof (first_loop_not_out_of_fuel get_field_info M args) as Hloop.
  destruct (loop (2 * length args) M 0 (args, ∅)) as [[a rf]| |] eqn:El;
    cbn [rbind]; [|done..].
  assert (Hitems : forall item, item ∈ iteritems rf ->
            forall rel,
              create_rec fuel1 rel item.2 ∅ = create_rec fuel2 rel item.2 ∅ /\
              create_rec fuel1 rel item.2 ∅ <> OutOfFuel).
  { intros [k mf] Hitem%elem_of_iteritems rel. simpl.
    pose proof (first_loop_depth M args _ a rf k mf El Hitem).
    apply IH; lia. }
  rewrite (rfor_each_ext (iteritems rf) _
             (related_class_step get_field_info
                (fun rel_model model_fields =>
                   create_rec fuel2 rel_model model_fields ∅) M)).
  2:{ intros [k mf] rc Hitem. unfold related_class_step.
      destruct (related_model_of M k) as [rel| |]; cbn [rbind]; [|done..].
      destruct (Hitems _ Hitem rel) as [Heq _]. simpl in Heq. by rewrite Heq. }
  split; [done|].
  match goal with
  | |- rbind ?r _ <> _ => assert (Hsecond : r <> OutOfFuel)
  end.
  { apply rfor_each_not_out_of_fuel. intros [k mf] rc Hitem.
    unfold related_class_step.
    pose proof (related_model_of_not_out_of_fuel M k).
    destruct (related_model_of M k) as [rel| |]; cbn [rbind]; [|done..].
    destruct (Hitems _ Hitem rel) as [Heq Hno]. simpl in Heq, Hno.
    rewrite <- Heq. by destruct (create_rec fuel1 rel mf ∅). }
  match goal with
  | |- rbind ?r _ <> _ => destruct r as [rc| |]; cbn [rbind]; [|done..]
  end.
  match goal with
  | |- rbind ?r _ <> _ => assert (Hthird : r <> OutOfFuel)
  end.
  { apply rfor_each_not_out_of_fuel. intros f st _.
    apply class_attrs_step_not_out_of_fuel. }
  match goal with
  | |- rbind ?r _ <> _ => destruct r as [[fom attrs]| |]; cbn [rbind]; [|done..]
  end.
  by destruct (filterset_init _).
Qed.

(** [create_filter_class] returns or raises: it never stops for lack of
    budget. *)
Lemma create_not_out_of_fuel M args (kwargs : gmap string ExtraFilter) :
  create M args kwargs <> OutOfFuel.
Proof. apply (create_rec_fuel _ (S (depth args))); lia. Qed.

Lemma create_rec_create (fuel : nat) M args (kwargs : gmap string ExtraFilter) :
  depth args < fuel -> create_rec fuel M args kwargs = create M args kwargs.
Proof. intros Hf. apply create_rec_fuel; [done|lia]. Qed.

(** *** The loop that builds the nested filter sets *)

Lemma second_loop_spec
    (createf : option Model -> list string -> result FilterSet) M
    (l : list (string * list string)) (acc rc : gmap string FilterSet) :
  NoDup l.*1 ->
  rfor_each l (related_class_step get_field_info createf M) acc = Ok rc ->
  (forall k mf, (k, mf) ∈ l ->
     exists rel nested, related_model_of M k = Ok rel /\
       createf rel mf = Ok nested /\ rc !! k = Some nested) /\
  (forall k, k ∉ l.*1 -> rc !! k = acc !! k).
Proof.
  revert acc. induction l as [|[k0 mf0] l IH]; intros acc Hnd Hrun.
  - simpl in Hrun. simplify_eq. split; [|done]. by intros ? ? ?%elem_of_nil.
  - rewrite fmap_cons in Hnd. apply NoDup_cons in Hnd as [Hk0 Hnd].
    cbn [rfor_each] in Hrun. unfold related_class_step at 1 in Hrun.
    destruct (related_model_of M k0) as [rel| |] eqn:Erel;
      cbn [rbind] in Hrun; [|done..].
    destruct (createf rel mf0) as [nested| |] eqn:Ecr;
      cbn [rbind] in Hrun; [|done..].
    destruct (IH _ Hnd Hrun) as [IH1 IH2]. split.
    + intros k mf [Heq|Hin]%elem_of_cons.
      * injection Heq as -> ->. exists rel, nested. repeat split; try done.
        rewrite (IH2 k0 Hk0). by rewrite lookup_insert_eq.
      * by apply IH1.
    + intros k Hk. rewrite fmap_cons in Hk. simpl in Hk.
      apply not_elem_of_cons in Hk as [Hne Hk].
      rewrite (IH2 k Hk). by rewrite lookup_insert_ne.
Qed.

Lemma rfor_each_raise {A B : Type} (l : list A) (body : A -> B -> result B)
    (acc : B) (e : exn) :
  rfor_each l body acc = Raise e ->
  exists x b, x ∈ l /\ body x b = Raise e.
Proof.
  revert acc. induction l as [|x l IH]; intros acc Hrun; simpl in Hrun; [done|].
  destruct (body x acc) as [b|e'|] eqn:Eb; cbn [rbind] in Hrun; [| |done].
  - destruct (IH _ Hrun) as (y & b' & Hy & Hb). exists y, b'. split; [by right|done].
  - simplify_eq. exists x, acc. split; [by left|done].
Qed.

(** *** The loop that declares the filters *)

Lemma class_attrs_step_eq M rc f (fom : list string) (attrs : gmap string Filter) :
  class_attrs_step M rc f (fom, attrs) =
  if contains SEP f then Ok (fom, attrs)
  else rbind (validate_field M f)
         (fun _ => Ok (fom ++ [f], <[f := filter_for rc f]> attrs)).
Proof.
  unfold filters_pure.class_attrs_step, filter_for.
  destruct (contains SEP f); [done|].
  destruct (validate_field M f); [|done..]. simpl. by destruct (rc !! f).
Qed.

Lemma third_loop_spec M rc (l fom fom' : list string)
    (attrs attrs' : gmap string Filter) :
  rfor_each l (class_attrs_step M rc) (fom, attrs) = Ok (fom', attrs') ->
  (forall f, f ∈ l -> contains SEP f = false ->
     validate_field M f = Ok tt /\ attrs' !! f = Some (filter_for rc f) /\
     f ∈ fom') /\
  (forall f, f ∉ l \/ contains SEP f = true -> attrs' !! f = attrs !! f) /\
  (forall f, f ∈ fom -> f ∈ fom').
Proof.
  revert fom attrs. induction l as [|g l IH]; intros fom attrs Hrun.
  - simpl in Hrun. simplify_eq. split; [|done]. by intros ? ?%elem_of_nil.
  - cbn [rfor_each] in Hrun. rewrite class_attrs_step_eq in Hrun.
    destruct (contains SEP g) eqn:Eg.
    + cbn [rbind] in Hrun. destruct (IH _ _ Hrun) as (IH1 & IH2 & IH3).
      split; [|split; [|done]].
      * intros f [->|Hf]%elem_of_cons Hsep; [congruence|]. by apply IH1.
      * intros f [Hf|Hf]; apply IH2; [|by right].
        left. intros Hin. apply Hf. by right.
    + destruct (validate_field_result M g) as [Hv|[e Hv]];
        rewrite Hv in Hrun; cbn [rbind] in Hrun; [|done].
      destruct (IH _ _ Hrun) as (IH1 & IH2 & IH3).
      split; [|split].
      * intros f Hf Hsep. destruct (decide (f ∈ l)) as [Hin|Hout].
        { by apply IH1. }
        apply elem_of_cons in Hf as [->|Hf]; [|done].
        split; [done|]. split.
        -- rewrite IH2 by (by left). by rewrite lookup_insert_eq.
        -- apply IH3. apply elem_of_app. right. by apply list_elem_of_singleton.
      * intros f Hf. assert (Hne : g <> f).
        { intros ->. destruct Hf as [Hf|Hf]; [|congruence]. apply Hf. by left. }
        rewrite IH2, lookup_insert_ne; [done|done|].
        destruct Hf as [Hf|Hf]; [|by right]. left. intros Hin. apply Hf. by right.
      * intros f Hf. apply IH3. apply elem_of_app. by left.
Qed.

Lemma third_loop_raises M rc (pre post : list string) f (e : exn)
    (st : list string * gmap string Filter) :
  (forall g, g ∈ pre -> contains SEP g = false -> validate_field M g = Ok tt) ->
  contains SEP f = false -> validate_field M f = Raise e ->
  rfor_each (pre ++ f :: post) (class_attrs_step M rc) st = Raise e.
Proof.
  intros Hpre Hsep Hv. revert st.
  induction pre as [|g pre IH]; intros [fom attrs]; cbn [app rfor_each].
  - rewrite class_attrs_step_eq, Hsep, Hv. done.
  - rewrite class_attrs_step_eq. destruct (contains SEP g) eqn:Eg; cbn [rbind].
    + apply IH. intros g' Hg'. apply Hpre. by right.
    + rewrite (Hpre g ltac:(by left) Eg). cbn [rbind].
      apply IH. intros g' Hg'. apply Hpre. by right.
Qed.

(** *** The anatomy of a successful call *)

Lemma create_anatomy M args (kwargs : gmap string ExtraFilter) (cls : FilterSet) :
  create M args kwargs = Ok cls ->
  exists a rf rc,
    loop (2 * length args) M 0 (args, ∅) = Ok (a, rf) /\
    (forall k mf, rf !! k = Some mf ->
       exists rel nested, related_model_of M k = Ok rel /\
         create rel mf ∅ = Ok nested /\ rc !! k = Some nested) /\
    (forall k, rf !! k = None -> rc !! k = None) /\
    (forall f, f ∈ a -> contains SEP f = false ->
       validate_field M f = Ok tt /\
       declared_filters cls !! f = Some (filter_for rc f) /\
       f ∈ Meta_fields cls) /\
    Meta_model cls = M /\ extra_filters cls = kwargs /\
    filterset_init cls = None.
Proof.
  unfold filters_pure.create_filter_class.
  cbn [filters_pure.create_filter_class_rec]. intros Hrun.
  destruct (loop (2 * length args) M 0 (args, ∅)) as [[a rf]| |] eqn:El;
    cbn [rbind] in Hrun; [|done..].
  match type of Hrun with
  | rbind ?r _ = _ => destruct r as [rc| |] eqn:E2; cbn [rbind] in Hrun; [|done..]
  end.
  match type of Hrun with
  | rbind ?r _ = _ =>
      destruct r as [[fom attrs]| |] eqn:E3; cbn [rbind] in Hrun; [|done..]
  end.
  destruct (filterset_init _) eqn:Einit; [done|]. injection Hrun as <-.
  destruct (second_loop_spec _ M _ _ _ (NoDup_iteritems rf) E2) as [H21 H22].
  destruct (third_loop_spec M rc a [] fom ∅ attrs E3) as (H31 & _ & _).
  exists a, rf, rc. split; [done|]. split; [|split; [|split]].
  - intros k mf Hk. destruct (H21 k mf) as (rel & nested & Hrel & Hcr & Hrc).
    { by apply elem_of_iteritems. }
    exists rel, nested. split; [done|]. split; [|done].
    rewrite <- Hcr. symmetry. apply create_rec_create.
    pose proof (first_loop_depth M args _ a rf k mf El Hk). lia.
  - intros k Hk. rewrite H22; [done|].
    intros [[k' mf] [-> Hin%elem_of_iteritems]]%list_elem_of_fmap.
    simpl in Hk. congruence.
  - intros f Hf Hsep. simpl. by apply H31.
  - done.
Qed.

End filters_stages.

(** ** [filters.py]: what the generated class declares *)

Section split_more.
Import pystr.

(** A string with the separator has at least two segments. *)
Lemma split_has_sep (sep s : string) :
  sep <> "" -> contains sep s = true ->
  exists w w' ws, split sep s = w :: w' :: ws.
Proof.
  intros Hne. induction s as [| r IH | c s E IH] using (scan_ind sep Hne).
  - by destruct sep.
  - intros _. rewrite split_match by done.
    pose proof (split_not_nil sep r Hne).
    destruct (split sep r) as [|w' ws]; [done|]. by exists "", w', ws.
  - intros Hc. simpl in Hc. rewrite E in Hc. simpl in Hc.
    destruct (IH Hc) as (w & w' & ws & Hs).
    destruct (split_nomatch sep c s Hne E) as (w0 & ws0 & E1 & ->).
    rewrite Hs in E1. simplify_eq. by eexists _, _, _.
Qed.

Lemma split_single (sep s w : string) :
  sep <> "" -> split sep s = [w] -> contains sep s = false /\ s = w.
Proof.
  intros Hne Hs. split.
  - destruct (contains sep s) eqn:E; [|done].
    destruct (split_has_sep sep s Hne E) as (? & ? & ? & Hs'). congruence.
  - rewrite <- (join_split sep s Hne), Hs. done.
Qed.

(** The segments after the first are the segments of the rest. *)
Lemma split_tail (sep s w : string) (tl : list string) :
  sep <> "" -> split sep s = w :: tl -> tl <> [] ->
  split sep (join sep tl) = tl.
Proof.
  intros Hne. revert w tl.
  induction s as [| r IH | c s E IH] using (scan_ind sep Hne); intros w tl Hs Htl.
  - rewrite split_nil in Hs. by simplify_eq.
  - rewrite split_match in Hs by done. simplify_eq.
    by rewrite join_split.
  - destruct (split_nomatch sep c s Hne E) as (w0 & ws0 & E1 & E2).
    rewrite E2 in Hs. simplify_eq. by apply (IH w0).
Qed.

Lemma truthy_join_not_nil (sep : string) (tl : list string) :
  truthy (join sep tl) = true -> tl <> [].
Proof. by intros Ht ->. Qed.

End split_more.

Section filters_pure_claims.
Import python model_meta filters filters_pure pystr.
Context {Model ModelField ExtraFilter : Type} `{Countable Model}.
Variable get_field_info : Model -> FieldInfo Model ModelField.
Variable model_str : Model -> string.
Variable iteritems :
  gmap string (list string) -> list (string * list string).
Variable filterset_init : FilterSet Model ExtraFilter -> option exn.
Hypothesis iteritems_perm : forall d, iteritems d ≡ₚ map_to_list d.

Local Abbreviation SEP := RELATED_FIELD_SEP.
Local Abbreviation is_related := (is_related get_field_info).
Local Abbreviation step := (filters_pure.related_fields_step get_field_info).
Local Abbreviation loop := (filters_pure.related_fields_loop get_field_info).
Local Abbreviation related_model_of := (related_model_of get_field_info).
Local Abbreviation related_model_at := (related_model_at get_field_info).
Local Abbreviation field_exists := (field_exists get_field_info).
Local Abbreviation plain_leaf := (plain_leaf get_field_info).
Local Abbreviation validate_field :=
  (filters_pure.validate_field get_field_info model_str).
Local Abbreviation create :=
  (filters_pure.create_filter_class get_field_info model_str iteritems
     filterset_init).
Local Abbreviation FilterSet := (FilterSet Model ExtraFilter).

Implicit Types (a args : list string) (rf : gmap string (list string)).
Implicit Types (f g k fname : string) (M : option Model) (m : Model).

Lemma related_model_of_some m f :
  related_model_of (Some m) f = Ok (related_model_at m f).
Proof.
  unfold filters_pure.related_model_of, filters_pure.related_model_at. simpl.
  by destruct (relations (get_field_info m) !! f).
Qed.

Lemma is_related_some m f :
  is_related (Some m) f =
  Ok (contains SEP f || bool_decide (is_Some (related_model_at m f))).
Proof.
  unfold filters_pure.is_related. rewrite related_model_of_some.
  by destruct (contains SEP f).
Qed.

Lemma is_related_sep M f : contains SEP f = true -> is_related M f = Ok true.
Proof. intros Hc. unfold filters_pure.is_related. by rewrite Hc. Qed.

Lemma validate_field_some m f :
  validate_field (Some m) f =
  if field_exists m f then Ok tt
  else Raise (Exception (missing_field_message model_str f (Some m))).
Proof.
  unfold filters_pure.validate_field, model_field_of, filters_pure.field_exists.
  cbn [field_info_of rbind].
  destruct (fields_and_pk (get_field_info m) !! f) as [fld|] eqn:E1;
    destruct (relations (get_field_info m) !! f) as [ri|] eqn:E2;
    cbn [rbind fmap option_fmap option_map];
    repeat (case_bool_decide as Hd; cbn [orb]); try done;
    exfalso; first [by destruct Hd as [? ?] | apply Hd; eauto].
Qed.

Lemma step_some_ok m f (st : list string * gmap string (list string)) :
  exists st', step (Some m) f st = Ok st'.
Proof.
  destruct st as [a rf]. unfold filters_pure.related_fields_step.
  rewrite is_related_some. cbn [rbind].
  destruct (_ || _); [|eauto].
  destruct (advance_ok f a rf) as (? & ? & ? & ? & _ & -> & _). eauto.
Qed.

Lemma loop_some_not_raise m fuel i (st : list string * gmap string (list string))
    (e : exn) :
  loop fuel (Some m) i st <> Raise e.
Proof.
  revert i st. induction fuel as [|fuel IH]; intros i st; simpl.
  - by destruct (st.1 !! i).
  - destruct (st.1 !! i) as [f|]; [|done].
    destruct (step_some_ok m f st) as [st' ->]. cbn [rbind]. apply IH.
Qed.

(** A call on a path with the separator: the nested filter set. *)
Lemma create_related_path M args (kwargs : gmap string ExtraFilter)
    (cls : FilterSet) f :
  create M args kwargs = Ok cls -> f ∈ args -> contains SEP f = true ->
  exists fname tl rel model_fields nested,
    split SEP f = fname :: tl /\
    related_model_of M fname = Ok rel /\
    (truthy (join SEP tl) = true -> join SEP tl ∈ model_fields) /\
    (forall r, r ∈ model_fields ->
       exists g tl', g ∈ args /\ split SEP g = fname :: tl' /\
                     r = join SEP tl' /\ truthy r = true) /\
    create rel model_fields ∅ = Ok nested /\
    declared_filters cls !! fname = Some (RelatedFilter nested fname).
Proof.
  intros Hrun Hf Hsep.
  destruct (create_anatomy get_field_info model_str iteritems filterset_init
              iteritems_perm M args kwargs cls Hrun)
    as (a & rf & rc & Hloop & Hrc & _ & Hattrs & _).
  destruct (first_loop_facts get_field_info M args _ a rf Hloop)
    as ((ext & Ha & _) & Hvisited & Hkeys). simpl in Ha.
  assert (Hfa : f ∈ a) by (rewrite Ha; apply elem_of_app; by left).
  destruct (Hvisited f Hfa (is_related_sep M f Hsep))
    as (fname & tl & mf & Hs & Hfn & Hmf & Hrest).
  destruct (Hrc fname mf Hmf) as (rel & nested & Hrel & Hnested & Hrcf).
  destruct (Hattrs fname Hfn (split_head_no_sep SEP f fname tl SEP_not_empty Hs))
    as (_ & Hdecl & _).
  exists fname, tl, rel, mf, nested. repeat split; try done.
  - by apply (Hkeys fname mf Hmf).
  - rewrite Hdecl. unfold filter_for. by rewrite Hrcf.
Qed.

(** A plain leaf at the end of a path gets an all-lookups filter. *)
Lemma create_plain_leaf (segments : list string) :
  forall M args (kwargs : gmap string ExtraFilter) (cls : FilterSet) f,
    create M args kwargs = Ok cls -> f ∈ args ->
    split SEP f = segments ->
    plain_leaf M segments = true ->
    (forall g more, g ∈ args -> split SEP g = segments ++ more -> more = []) ->
    exists leaf, last segments = Some leaf /\
      filter_at cls segments = Some (AllLookupsFilter leaf).
Proof.
  induction segments as [|s rest IH]; intros M args kwargs cls f Hrun Hf Hs Hplain Hext.
  { by destruct M. }
  destruct M as [m|]; [|by destruct rest].
  destruct (create_anatomy get_field_info model_str iteritems filterset_init
              iteritems_perm (Some m) args kwargs cls Hrun)
    as (a & rf & rc & Hloop & Hrc & Hrcnone & Hattrs & _).
  destruct (first_loop_facts get_field_info (Some m) args _ a rf Hloop)
    as ((ext & Ha & Hexts) & Hvisited & Hkeys). simpl in Ha, Hexts.
  assert (Hfa : f ∈ a) by (rewrite Ha; apply elem_of_app; by left).
  destruct rest as [|s2 rest].
  - (* the path is the single name [s] *)
    destruct (split_single SEP f s SEP_not_empty Hs) as [Hsep ->].
    cbn in Hplain. apply bool_decide_eq_true_1 in Hplain.
    exists s. split; [done|]. cbn [filter_at].
    destruct (Hattrs s Hfa Hsep) as (_ & -> & _).
    unfold filter_for. rewrite Hrcnone; [done|].
    destruct (rf !! s) as [mf|] eqn:Erf; [exfalso|done].
    destruct (Hkeys s mf Erf) as [(g & Hg & Hrel & Hhd) _].
    rewrite is_related_some in Hrel. injection Hrel as Hrel.
    destruct (contains SEP g) eqn:Eg.
    + destruct (split_has_sep SEP g SEP_not_empty Eg) as (w & w' & ws & Hsg).
      rewrite Hsg in Hhd. simpl in Hhd. injection Hhd as ->.
      assert (Hga : g ∈ args).
      { rewrite Ha in Hg. apply elem_of_app in Hg as [Hg|Hg]; [done|].
        destruct (Hexts g Hg). congruence. }
      by specialize (Hext g (w' :: ws) Hga Hsg).
    + rewrite (split_no_sep SEP g SEP_not_empty Eg) in Hhd. simpl in Hhd.
      injection Hhd as ->. simpl in Hrel. apply bool_decide_eq_true_1 in Hrel.
      rewrite Hplain in Hrel. by destruct Hrel.
  - (* the path goes on below [s] *)
    change (plain_leaf (Some m) (s :: s2 :: rest))
      with (truthy (join SEP (s2 :: rest)) &&
            plain_leaf (related_model_at m s) (s2 :: rest)) in Hplain.
    apply andb_true_iff in Hplain as [Ht Hplain].
    assert (Hsep : contains SEP f = true).
    { destruct (contains SEP f) eqn:E; [done|].
      rewrite (split_no_sep SEP f SEP_not_empty E) in Hs. by simplify_eq. }
    destruct (Hvisited f Hfa (is_related_sep _ f Hsep))
      as (fname & tl & mf & Hs' & Hfn & Hmf & Hrest).
    assert (fname = s /\ tl = s2 :: rest) as [-> ->] by (split; congruence).
    destruct (Hrc s mf Hmf) as (rel & nested & Hrel & Hnested & Hrcs).
    rewrite related_model_of_some in Hrel. injection Hrel as <-.
    destruct (Hattrs s Hfn (split_head_no_sep SEP f s _ SEP_not_empty Hs))
      as (_ & Hdecl & _).
    destruct (IH (related_model_at m s) mf ∅ nested (join SEP (s2 :: rest)))
      as (leaf & Hlast & Hleaf); try done.
    + by apply Hrest.
    + by apply (split_tail SEP f s).
    + intros g' more Hg' Hsg'.
      destruct (Hkeys s mf Hmf) as [_ Hrs].
      destruct (Hrs g' Hg') as (g & tl' & Hg & Hsg & -> & Htr).
      rewrite (split_tail SEP g s tl' SEP_not_empty Hsg
                 (truthy_join_not_nil SEP tl' Htr)) in Hsg'.
      apply (Hext g more Hg). by rewrite Hsg, Hsg'.
    + exists leaf. split; [done|].
      change (filter_at cls (s :: s2 :: rest))
        with (match declared_filters cls !! s with
              | Some (RelatedFilter nested _) => filter_at nested (s2 :: rest)
              | _ => None
              end).
      rewrite Hdecl. unfold filter_for. by rewrite Hrcs.
Qed.

(** A missing name stops the call: with the exception of a nested call,
    or else with the one that names the first missing name. *)
Lemma create_missing_field m (pre post : list string) f
    (kwargs : gmap string ExtraFilter) :
  (forall g, g ∈ pre -> contains SEP g = false -> field_exists m g = true) ->
  contains SEP f = false -> field_exists m f = false ->
  create (Some m) (pre ++ f :: post) kwargs =
    Raise (Exception (missing_field_message model_str f (Some m))) \/
  exists k model_fields e,
    (forall r, r ∈ model_fields ->
       exists g tl, g ∈ pre ++ f :: post /\ split SEP g = k :: tl /\
                    r = join SEP tl /\ truthy r = true) /\
    create (related_model_at m k) model_fields ∅ = Raise e /\
    create (Some m) (pre ++ f :: post) kwargs = Raise e.
Proof.
  intros Hpre Hsep Hmiss. set (args := pre ++ f :: post).
  pose proof (create_not_out_of_fuel get_field_info model_str iteritems
                filterset_init iteritems_perm (Some m) args kwargs) as Hfuel.
  unfold filters_pure.create_filter_class in *.
  cbn [filters_pure.create_filter_class_rec] in *.
  pose proof (first_loop_not_out_of_fuel get_field_info (Some m) args) as Hl1.
  destruct (loop (2 * length args) (Some m) 0 (args, ∅)) as [[a rf]|e|] eqn:El;
    [|by apply loop_some_not_raise in El|done].
  cbn [rbind] in *.
  destruct (first_loop_facts get_field_info (Some m) args _ a rf El)
    as ((ext & Ha & _) & _ & Hkeys). simpl in Ha.
  match goal with
  | |- context [rbind ?r _] => destruct r as [rc|e|] eqn:E2
  end; cbn [rbind] in *; [| |done].
  - left. rewrite Ha. unfold args. rewrite <- app_assoc, <- app_comm_cons.
    rewrite (third_loop_raises get_field_info model_str (Some m) rc pre
               (post ++ ext) f
               (Exception (missing_field_message model_str f (Some m)))); try done.
    + intros g Hg Hgs. rewrite validate_field_some. by rewrite (Hpre g Hg Hgs).
    + rewrite validate_field_some. by rewrite Hmiss.
  - right. apply rfor_each_raise in E2 as ([k mf] & b & Hitem & Hbody).
    apply (elem_of_iteritems iteritems iteritems_perm) in Hitem.
    unfold related_class_step in Hbody.
    rewrite related_model_of_some in Hbody. cbn [rbind] in Hbody.
    match type of Hbody with
    | rbind ?r _ = _ => destruct r as [nested|e'|] eqn:Ecr
    end; cbn [rbind] in Hbody; [done| |done].
    injection Hbody as ->.
    exists k, mf, e. split; [by apply (Hkeys k mf Hitem)|]. split; [|done].
    rewrite <- Ecr. symmetry.
    apply (create_rec_create get_field_info model_str iteritems filterset_init
             iteritems_perm).
    pose proof (first_loop_depth get_field_info (Some m) args _ a rf k mf El Hitem).
    lia.
Qed.

End filters_pure_claims.

(** ** [filters.py]: the claims about [create_filter_class] *)

Section filters_claims.
Import python model_meta filters filters_pure pystr.
Context {Model ModelField ExtraFilter : Type} `{Countable Model}.
Variable get_field_info : Model -> FieldInfo Model ModelField.
Variable model_str : Model -> string.
Variable iteritems :
  gmap string (list string) -> list (string * list string).
Variable filterset_init : FilterSet Model ExtraFilter -> option exn.
Hypothesis iteritems_perm : forall d, iteritems d ≡ₚ map_to_list d.

Local Abbreviation Cache := (gmap Model (FieldInfo Model ModelField)).
Local Abbreviation SEP := RELATED_FIELD_SEP.
Local Abbreviation coherent := (coherent get_field_info).
Local Abbreviation related_model_at := (related_model_at get_field_info).
Local Abbreviation field_exists := (field_exists get_field_info).
Local Abbreviation plain_leaf := (plain_leaf get_field_info).
Local Abbreviation create_filter_class :=
  (filters.create_filter_class get_field_info model_str iteritems filterset_init).
Local Abbreviation pure_create :=
  (filters_pure.create_filter_class get_field_info model_str iteritems
     filterset_init).

Implicit Types (args : list string) (f g k fname : string) (m : Model).
Implicit Types (cache : Cache) (kwargs : gmap string ExtraFilter).

Lemma create_filter_class_run cache (M : option Model) args kwargs :
  coherent cache ->
  (create_filter_class M args kwargs cache).1 = pure_create M args kwargs.
Proof.
  intros Hc.
  destruct (create_filter_class_sim get_field_info model_str iteritems
              filterset_init M args kwargs cache Hc) as (cache' & -> & _).
  done.
Qed.

(** C4: a path with the separator is split at its first segment; the
    related model of that segment comes from the relation metadata; the
    remaining path is among the paths handed to the recursive call on that
    model; and the class this call returns is declared as a related filter
    under the first segment. *)
Theorem related_path_gets_related_filter cache m args kwargs
    (cls : FilterSet Model ExtraFilter) f :
  coherent cache ->
  (create_filter_class (Some m) args kwargs cache).1 = Ok cls ->
  f ∈ args -> contains SEP f = true ->
  exists fname tl model_fields nested,
    split SEP f = fname :: tl /\
    (truthy (join SEP tl) = true -> join SEP tl ∈ model_fields) /\
    (forall cache', coherent cache' ->
       (create_filter_class (related_model_at m fname) model_fields ∅ cache').1
         = Ok nested) /\
    declared_filters cls !! fname = Some (RelatedFilter nested fname).
Proof.
  intros Hc Hrun Hf Hsep. rewrite create_filter_class_run in Hrun by done.
  destruct (create_related_path get_field_info model_str iteritems
              filterset_init iteritems_perm (Some m) args kwargs cls f Hrun Hf Hsep)
    as (fname & tl & rel & mf & nested & Hs & Hrel & Hrest & _ & Hnested & Hdecl).
  rewrite related_model_of_some in Hrel. injection Hrel as <-.
  exists fname, tl, mf, nested. repeat split; try done.
  intros cache' Hc'. by rewrite create_filter_class_run.
Qed.

(** C3 (amended): on a call that returns a class, a named path whose
    last segment is no relation of the model it is reached on, and which no
    other named path extends, ends in an all-lookups filter of that last
    segment, in the filter set reached along the path. *)
Theorem plain_field_gets_all_lookups cache m args kwargs
    (cls : FilterSet Model ExtraFilter) f :
  coherent cache ->
  (create_filter_class (Some m) args kwargs cache).1 = Ok cls ->
  f ∈ args ->
  plain_leaf (Some m) (split SEP f) = true ->
  (forall g more, g ∈ args -> split SEP g = split SEP f ++ more -> more = []) ->
  exists leaf, last (split SEP f) = Some leaf /\
    filter_at cls (split SEP f) = Some (AllLookupsFilter leaf).
Proof.
  intros Hc Hrun Hf Hplain Hext. rewrite create_filter_class_run in Hrun by done.
  by apply (create_plain_leaf get_field_info model_str iteritems filterset_init
              iteritems_perm (split SEP f) (Some m) args kwargs cls f).
Qed.

End filters_claims.

Section filters_examples.
Import python model_meta filters filters_pure pystr example.

Lemma example_iteritems_perm (d : gmap string (list string)) :
  example.iteritems d ≡ₚ map_to_list d.
Proof. reflexivity. Defined.

Lemma example_cache_coherent :
  coherent example.get_field_info (∅ : gmap string (FieldInfo string string)).
Proof. intros m info Hm. rewrite lookup_empty in Hm. discriminate Hm. Defined.

(** The class built for posts filtered by title and by author name. *)
Example create_post_filters :
  exists cls nested,
    (example.create (Some "Post") ["title"; "author__name"]).1 = Ok cls /\
    Meta_fields cls = ["title"; "author"] /\
    declared_filters cls !! "title" = Some (AllLookupsFilter "title") /\
    declared_filters cls !! "author" = Some (RelatedFilter nested "author") /\
    Meta_model nested = Some "Author" /\
    declared_filters nested !! "name" = Some (AllLookupsFilter "name").
Proof. eexists _, _. vm_compute. repeat split. Qed.

Lemma related_path_gets_related_filter_witness :
  exists cls fname tl model_fields nested,
    (example.create (Some "Post") ["title"; "author__name"]).1 = Ok cls /\
    split RELATED_FIELD_SEP "author__name" = fname :: tl /\
    (truthy (join RELATED_FIELD_SEP tl) = true ->
     join RELATED_FIELD_SEP tl ∈ model_fields) /\
    (forall cache', coherent example.get_field_info cache' ->
       (filters.create_filter_class example.get_field_info example.model_str
          example.iteritems example.filterset_init
          (related_model_at example.get_field_info "Post" fname)
          model_fields ∅ cache').1 = Ok nested) /\
    declared_filters cls !! fname = Some (RelatedFilter nested fname).
Proof.
  destruct (example.create (Some "Post") ["title"; "author__name"]).1
    as [cls| |] eqn:E; [|vm_compute in E; discriminate E..].
  destruct (related_path_gets_related_filter example.get_field_info
              example.model_str example.iteritems example.filterset_init
              example_iteritems_perm ∅ "Post" ["title"; "author__name"] ∅ cls
              "author__name" example_cache_coherent E)
    as (fname & tl & mf & nested & H1 & H2 & H3 & H4).
  - apply list_elem_of_further, list_elem_of_here.
  - reflexivity.
  - exists cls, fname, tl, mf, nested. repeat split; assumption.
Defined.

(** C3, as stated, fails on a name that is a relation: it is declared as
    a related filter, not as an all-lookups filter. *)
Lemma relation_field_counterexample :
  ~ (forall (args : list string) (cls : FilterSet string unit) (f : string),
       (example.create (Some "Post") args).1 = Ok cls -> f ∈ args ->
       exists leaf,
         filter_at cls (split RELATED_FIELD_SEP f) = Some (AllLookupsFilter leaf)).
Proof.
  intros Hclaim.
  destruct (example.create (Some "Post") ["author"]).1 as [cls| |] eqn:E;
    [|vm_compute in E; discriminate E..].
  destruct (Hclaim ["author"] cls "author" E (list_elem_of_here _ _)) as [leaf Hleaf].
  vm_compute in E. injection E as <-. vm_compute in Hleaf. discriminate Hleaf.
Qed.

Lemma plain_field_gets_all_lookups_witness :
  exists cls leaf,
    (example.create (Some "Post") ["title"; "author__name"]).1 = Ok cls /\
    last (split RELATED_FIELD_SEP "author__name") = Some leaf /\
    filter_at cls (split RELATED_FIELD_SEP "author__name")
      = Some (AllLookupsFilter leaf).
Proof.
  destruct (example.create (Some "Post") ["title"; "author__name"]).1
    as [cls| |] eqn:E; [|vm_compute in E; discriminate E..].
  destruct (plain_field_gets_all_lookups example.get_field_info
              example.model_str example.iteritems example.filterset_init
              example_iteritems_perm ∅ "Post" ["title"; "author__name"] ∅ cls
              "author__name" example_cache_coherent E)
    as (leaf & H1 & H2).
  - apply list_elem_of_further, list_elem_of_here.
  - vm_compute. reflexivity.
  - intros g more Hg Hs.
    apply elem_of_cons in Hg as [->|Hg].
    { vm_compute in Hs. discriminate Hs. }
    apply elem_of_cons in Hg as [->|Hg].
    { vm_compute in Hs. destruct more; [reflexivity|discriminate Hs]. }
    inversion Hg.
  - exists cls, leaf. repeat split; assumption.
Defined.

(** C5, as stated, fails when two names are missing: the exception
    names the first of them only. *)
Lemma missing_field_counterexample :
  ~ (forall (args : list string) (f : string),
       f ∈ args -> contains RELATED_FIELD_SEP f = false ->
       field_exists example.get_field_info "Post" f = false ->
       (example.create (Some "Post") args).1 =
         Raise (Exception
                  (missing_field_message example.model_str f (Some "Post")))).
Proof.
  intros Hclaim.
  specialize (Hclaim ["bar"; "foo"] "foo"
                (list_elem_of_further _ _ _ (list_elem_of_here _ _))
                eq_refl eq_refl).
  vm_compute in Hclaim. discriminate Hclaim.
Qed.

End filters_examples.

(** ** [renderers.py]: what the text patch leaves alone *)

Section renderers_more.
Import pystr renderers.

Local Arguments replace : simpl never.

Lemma replace_absent (old new s : string) :
  old <> "" -> ~ occurs old s -> replace old new s = s.
Proof.
  intros Hne. induction s as [| r IH | c s E IH] using (scan_ind old Hne).
  - done.
  - intros Hno. destruct Hno. by exists "", r.
  - intros Hno. rewrite replace_nomatch by done.
    rewrite IH; [done|]. intros Ho. by apply Hno, occurs_cons_r.
Qed.

(** X9: a text of the base renderer without the marker [None,] is
    returned as it is. *)
Theorem render_unchanged_without_marker {Args : Type}
    (super_render : Args -> string) (args : Args) :
  contains "None," (super_render args) = false ->
  render super_render args = super_render args.
Proof.
  intros Hno%contains_false. unfold render.
  rewrite (replace_absent ERRONEOUS_STR_1) by
    (try done; intros (l & r & E); apply Hno; exists l, ("," +:+ r);
     rewrite E; reflexivity).
  by rewrite (replace_absent ERRONEOUS_STR_2).
Qed.

Lemma render_unchanged_without_marker_witness :
  contains "None," "id,name,None" = false /\
  render (fun s : string => s) "id,name,None" = "id,name,None".
Proof.
  split; [reflexivity|].
  apply (render_unchanged_without_marker (fun s : string => s) "id,name,None").
  reflexivity.
Defined.

(** *** Taking out [None] *)

Lemma strips_none_refl (s : string) : strips_none s s.
Proof. induction s; constructor; done. Qed.

Lemma strips_none_app_keep (p s t : string) :
  strips_none s t -> strips_none (p +:+ s) (p +:+ t).
Proof. intros H. induction p; simpl; [done|]. by constructor. Qed.

(** A comma at the head is never taken out. *)
Lemma strips_none_comma (s t : string) :
  strips_none s t -> startswith "," s = true -> startswith "," t = true.
Proof.
  intros H. destruct H as [|c s t H|s t H Hc]; simpl; try done.
Qed.

(** What was made of a text with [None] at its head, where that word
    stayed. *)
Lemma strips_none_head (s u : string) :
  strips_none s ("None" +:+ u) ->
  exists s', s = "None" +:+ s' /\ strips_none s' u.
Proof.
  intros H.
  inversion H as [|c1 s1 t1 H1|s1 t1 H1 Hc1]; subst; [|done].
  inversion H1 as [|c2 s2 t2 H2|s2 t2 H2 Hc2]; subst; [|done].
  inversion H2 as [|c3 s3 t3 H3|s3 t3 H3 Hc3]; subst; [|done].
  inversion H3 as [|c4 s4 t4 H4|s4 t4 H4 Hc4]; subst; [|done].
  by exists s4.
Qed.

Lemma strips_none_trans (s u t : string) :
  strips_none s u -> strips_none u t -> strips_none s t.
Proof.
  intros Hsu Hut. revert s Hsu.
  induction Hut as [|c u t Hut IH|u t Hut IH Hc]; intros s Hsu.
  - done.
  - remember (String c u) as cu eqn:Ecu.
    induction Hsu as [|c' s' u' Hsu' _|s' u' Hsu' IHs Hc']; [done| |].
    + injection Ecu as -> ->. constructor. by apply IH.
    + subst u'. constructor; [by apply IHs|].
      simpl in Hc'. simpl. by destruct (Ascii.eqb "," c).
  - destruct (strips_none_head s u Hsu) as (s' & -> & Hs').
    constructor; [by apply IH|done].
Qed.

(** One pass of [replace] that turns [None] before [new] into [new]. *)
Lemma replace_strips_none (new s : string) :
  startswith "," new = true ->
  strips_none s (replace ("None" +:+ new) new s).
Proof.
  intros Hnew. assert (Hne : "None" +:+ new <> "") by done.
  induction s as [| r IH | c s E IH] using (scan_ind _ Hne).
  - constructor.
  - rewrite replace_match by done.
    change (("None" +:+ new) +:+ r) with ("None" +:+ (new +:+ r)).
    constructor; [by apply strips_none_app_keep|].
    by apply startswith_app_l.
  - rewrite replace_nomatch by done. by constructor.
Qed.

Lemma strips_none_keep_chars (keep : ascii -> bool) (s t : string) :
  keep "N"%char = false -> keep "o"%char = false -> keep "n"%char = false -> keep "e"%char = false ->
  strips_none s t -> keep_chars keep s = keep_chars keep t.
Proof.
  intros HN Ho Hn He H. induction H as [|c s t H IH|s t H IH Hc]; simpl.
  - done.
  - by rewrite IH.
  - by rewrite HN, Ho, Hn, He.
Qed.

(** X10: the patch changes the text in one way only: it takes out
    occurrences of the word [None], each of them from right before a comma
    of the rendered text; every other character of the base renderer's text
    stands in the rendered text, in its place.  So the text read without the
    letters of [None] -- its commas and line feeds among the rest -- is the
    same before and after: every row keeps its cells. *)
Theorem render_only_strips_none {Args : Type}
    (super_render : Args -> string) (args : Args) :
  strips_none (super_render args) (render super_render args) /\
  forall keep : ascii -> bool,
    keep "N"%char = false -> keep "o"%char = false -> keep "n"%char = false ->
    keep "e"%char = false ->
    keep_chars keep (render super_render args) =
    keep_chars keep (super_render args).
Proof.
  assert (H : strips_none (super_render args) (render super_render args)).
  { unfold render. eapply strips_none_trans.
    - apply (replace_strips_none ",,"). done.
    - apply (replace_strips_none ","). done. }
  split; [done|]. intros keep HN Ho Hn He. symmetry.
  by apply strips_none_keep_chars.
Qed.

(** The commas and line feeds of a text. *)
Example render_table_skeleton :
  let base := "id,name" +:+ String "010" "NoneNone,,x" +:+ String "010" "None,y" in
  let separators := fun c : ascii => Ascii.eqb c "," || Ascii.eqb c "010" in
  render (fun s : string => s) base = "id,name" +:+ String "010" ",,x" +:+ String "010" ",y" /\
  keep_chars separators (render (fun s : string => s) base) =
  keep_chars separators base.
Proof. vm_compute. split; reflexivity. Qed.

Lemma render_only_strips_none_witness :
  let separators := fun c : ascii => Ascii.eqb c "," || Ascii.eqb c "010" in
  strips_none "None,,a,None,b" (render (fun s : string => s) "None,,a,None,b") /\
  keep_chars separators (render (fun s : string => s) "None,,a,None,b") =
  keep_chars separators "None,,a,None,b".
Proof.
  intros separators.
  destruct (render_only_strips_none (fun s : string => s) "None,,a,None,b")
    as [Hstrips Hkeep].
  split; [exact Hstrips|].
  apply (Hkeep separators); reflexivity.
Defined.

End renderers_more.

(** ** [serializers.py]: more on field selection *)

Section field_selection_more.
Import pystr serializers.
Context {FieldState : Type}.
Implicit Types (all_fields : gmap string (Field FieldState)).
Implicit Types (fields : list string) (val : Field FieldState).
Implicit Types (context : Context).

Lemma relevant_fields_elem fields (k : string) :
  k ∈ relevant_fields fields <->
  exists field, field ∈ fields /\
    head (split RELATED_FIELD_SEPARATOR field) = Some k.
Proof.
  unfold relevant_fields. induction fields as [|f fields IH]; simpl.
  - split; [by intros ?%elem_of_nil|]. by intros (? & ?%elem_of_nil & _).
  - rewrite elem_of_app, IH. split.
    + intros [Hk|(field & Hf & Hh)].
      * exists f. split; [by left|].
        destruct (split RELATED_FIELD_SEPARATOR f) as [|w ws];
          [by apply elem_of_nil in Hk|].
        apply list_elem_of_singleton in Hk. by subst.
      * exists field. split; [by right|done].
    + intros (field & [->|Hf]%elem_of_cons & Hh).
      * left. destruct (split RELATED_FIELD_SEPARATOR f) as [|w ws]; [done|].
        simpl in Hh. injection Hh as ->. by apply list_elem_of_singleton.
      * right. by exists field.
Qed.

Lemma set_requested_fields_twice (l : list string) val :
  set_requested_fields l (set_requested_fields l val) = set_requested_fields l val.
Proof.
  unfold set_requested_fields.
  destruct (requested_fields val) eqn:E1; simpl; [done|].
  destruct (child_relation val) as [rel|] eqn:E2; simpl.
  - destruct (child_requested_fields rel) eqn:E3; simpl; [done|].
    by rewrite E1, E2, E3.
  - by rewrite E1, E2.
Qed.

Lemma set_requested_fields_expandable (l : list string) val :
  expandable (set_requested_fields l val) <-> expandable val.
Proof.
  unfold expandable, nested_request, set_requested_fields.
  destruct (requested_fields val) eqn:E1; simpl.
  { split; eauto. }
  destruct (child_relation val) as [rel|] eqn:E2; simpl.
  - destruct (child_requested_fields rel) eqn:E3; simpl.
    + split; eauto.
    + by rewrite E1, E2; simpl; rewrite E3.
  - by rewrite E1, E2.
Qed.

Lemma set_requested_fields_plain (l : list string) val :
  ~ expandable val -> set_requested_fields l val = val.
Proof.
  unfold expandable, nested_request, set_requested_fields.
  destruct (requested_fields val) eqn:E1; simpl.
  { intros Hn. destruct Hn. eauto. }
  destruct (child_relation val) as [rel|] eqn:E2; simpl; [|done].
  destruct (child_requested_fields rel) eqn:E3; simpl; [|done].
  intros Hn. destruct Hn. eauto.
Qed.

Lemma set_requested_fields_state (l : list string) val :
  field_state (set_requested_fields l val) = field_state val /\
  relation_state <$> child_relation (set_requested_fields l val) =
    relation_state <$> child_relation val.
Proof.
  unfold set_requested_fields.
  destruct (requested_fields val) eqn:E1; simpl; [done|].
  destruct (child_relation val) as [rel|] eqn:E2; simpl.
  - destruct (child_requested_fields rel) eqn:E3; simpl; [done|].
    by rewrite E2.
  - by rewrite E2.
Qed.

(** Without a non-empty list of requested paths nothing happens. *)
Lemma process_fields_nothing_requested context all_fields :
  requested context = None \/ requested context = Some [] ->
  _process_fields_based_on_context context all_fields = all_fields.
Proof.
  unfold _process_fields_based_on_context. by intros [->| ->].
Qed.

(** Every entry of the result is a default entry with its nested request
    rewritten. *)
Lemma process_fields_entry context all_fields (k : string) val' :
  _process_fields_based_on_context context all_fields !! k = Some val' ->
  exists val, all_fields !! k = Some val /\
    (val' = val \/ exists l, val' = set_requested_fields l val).
Proof.
  destruct (requested context) as [[|f fields]|] eqn:Hreq.
  - rewrite process_fields_nothing_requested by auto. eauto.
  - rewrite (process_fields_lookup context all_fields (f :: fields) k Hreq)
      by done.
    intros Hk. apply fmap_Some in Hk as (val & Hval & ->).
    exists val. split; [|eauto].
    repeat case_bool_decide; done.
  - rewrite process_fields_nothing_requested by auto. eauto.
Qed.

(** X1: without a [requested_fields] entry in the context, and without a
    request, without a [fields] parameter or with an empty one,
    [get_fields] returns the default dictionary as it is; so it does
    when the [requested_fields] entry is the empty list, whatever the
    request asks for. *)
Theorem get_fields_without_request_unchanged context all_fields :
  context_requested_fields context = Some [] \/
  (context_requested_fields context = None /\
   (context_request context = None \/
    exists request, context_request context = Some request /\
      (request_params request !! "fields" = None \/
       request_params request !! "fields" = Some ""))) ->
  get_fields context all_fields = all_fields.
Proof.
  intros Hctx. unfold get_fields.
  apply process_fields_nothing_requested.
  unfold requested, fields_in_request.
  destruct Hctx as [->|[-> [->|(request & -> & [->| ->])]]]; auto.
Qed.

(** X2: when a non-empty list of paths without the wildcard is requested,
    the result holds exactly the default fields whose name is the first
    segment of a requested path; a requested name that is no default field
    is passed over. *)
Theorem get_fields_keeps_requested_names context all_fields fields (k : string) :
  requested context = Some fields -> fields <> [] ->
  ALL_FIELDS_SPECIFIER ∉ fields ->
  k ∈ dom (get_fields context all_fields) <->
  k ∈ dom all_fields /\
  exists field, field ∈ fields /\
    head (split RELATED_FIELD_SEPARATOR field) = Some k.
Proof.
  intros Hreq Hne Hstar. unfold get_fields.
  rewrite !elem_of_dom, (process_fields_lookup context all_fields fields k Hreq Hne).
  rewrite (bool_decide_eq_false_2 _ Hstar), fmap_is_Some.
  rewrite <- relevant_fields_elem.
  case_bool_decide as Hk; [tauto|].
  split; [by intros [? ?]|tauto].
Qed.

(** X3: whatever non-empty list of paths is requested, an expandable
    field of the result carries as its nested request exactly the paths
    requested below its name, in the order of the request -- the empty list
    when there are none. *)
Theorem get_fields_nested_requests context all_fields fields (k : string) val' :
  requested context = Some fields -> fields <> [] ->
  get_fields context all_fields !! k = Some val' ->
  expandable val' ->
  nested_request val' = Some (sub_paths fields k).
Proof.
  intros Hreq Hne. unfold get_fields.
  rewrite (process_fields_lookup context all_fields fields k Hreq Hne).
  intros Hk Hexp. apply fmap_Some in Hk as (val & _ & ->).
  apply nested_request_set. by apply set_requested_fields_expandable in Hexp.
Qed.

(** X4: [get_fields] never adds a field and never touches anything but a
    nested request: every field of the result is a default field of the
    same name with the same state, expandable if and only if the default
    field is, and identical to it when that is not expandable. *)
Theorem get_fields_never_adds context all_fields (k : string) val' :
  get_fields context all_fields !! k = Some val' ->
  exists val, all_fields !! k = Some val /\
    field_state val' = field_state val /\
    relation_state <$> child_relation val' = relation_state <$> child_relation val /\
    (expandable val' <-> expandable val) /\
    (~ expandable val -> val' = val).
Proof.
  unfold get_fields. intros Hk.
  destruct (process_fields_entry context all_fields k val' Hk)
    as (val & Hval & [->|[l ->]]).
  - exists val. repeat split; auto.
  - exists val. split; [done|].
    destruct (set_requested_fields_state l val) as [? ?].
    repeat split; try done.
    + by apply set_requested_fields_expandable.
    + by apply set_requested_fields_expandable.
    + apply set_requested_fields_plain.
Qed.

(** X5: selecting twice selects once: [get_fields] applied to its own
    result, under the same context, changes nothing. *)
Theorem get_fields_idempotent context all_fields :
  get_fields context (get_fields context all_fields) =
  get_fields context all_fields.
Proof.
  unfold get_fields.
  destruct (requested context) as [[|f fields]|] eqn:Hreq.
  - by rewrite !process_fields_nothing_requested by auto.
  - apply map_eq. intros k.
    rewrite !(process_fields_lookup context _ (f :: fields) k Hreq) by done.
    repeat case_bool_decide; try done;
      destruct (all_fields !! k); simpl; try done;
      by rewrite set_requested_fields_twice.
  - by rewrite !process_fields_nothing_requested by auto.
Qed.

End field_selection_more.

Section field_selection_more_examples.
Import pystr serializers example.

(** The request [?fields=b.c,zzz,b.e] on the fields of a post. *)
Example get_fields_two_sub_paths :
  get_fields (context_of_request "b.c,zzz,b.e") post_fields =
  {[ "b" := {| field_state := "b"; requested_fields := Some ["c"; "e"];
               child_relation := None |} ]}.
Proof. vm_compute. reflexivity. Qed.

Lemma get_fields_without_request_unchanged_witness :
  get_fields (nested_context "a" []) post_fields = post_fields /\
  get_fields (context_of_request "") post_fields = post_fields.
Proof.
  split.
  - apply (get_fields_without_request_unchanged (nested_context "a" [])).
    left. reflexivity.
  - apply (get_fields_without_request_unchanged (context_of_request "")).
    right. split; [reflexivity|]. right.
    exists (request_with_fields ""). split; [reflexivity|].
    right. reflexivity.
Defined.

Lemma get_fields_keeps_requested_names_witness :
  requested (context_of_request "b.c,zzz,b.e") = Some ["b.c"; "zzz"; "b.e"] /\
  ("zzz" ∈ dom (get_fields (context_of_request "b.c,zzz,b.e") post_fields) <->
   "zzz" ∈ dom post_fields /\
   exists field, field ∈ ["b.c"; "zzz"; "b.e"] /\
     head (split RELATED_FIELD_SEPARATOR field) = Some "zzz").
Proof.
  split; [reflexivity|].
  apply (get_fields_keeps_requested_names (context_of_request "b.c,zzz,b.e")
           post_fields ["b.c"; "zzz"; "b.e"] "zzz").
  - reflexivity.
  - discriminate.
  - rewrite !not_elem_of_cons. repeat split; try discriminate.
    apply not_elem_of_nil.
Defined.

Lemma get_fields_nested_requests_witness :
  requested (context_of_request "b.c,zzz,b.e") = Some ["b.c"; "zzz"; "b.e"] /\
  nested_request
    {| field_state := "b"; requested_fields := Some ["c"; "e"];
       child_relation := None |} =
  Some (sub_paths ["b.c"; "zzz"; "b.e"] "b").
Proof.
  split; [reflexivity|].
  apply (get_fields_nested_requests (context_of_request "b.c,zzz,b.e")
           post_fields ["b.c"; "zzz"; "b.e"] "b").
  - reflexivity.
  - discriminate.
  - vm_compute. reflexivity.
  - eexists. reflexivity.
Defined.

Lemma get_fields_never_adds_witness :
  exists val, post_fields !! "d" = Some val /\
    field_state (many_related_field "d") = field_state val /\
    relation_state <$> child_relation (many_related_field "d") =
      relation_state <$> child_relation val /\
    (expandable (many_related_field "d") <-> expandable val) /\
    (~ expandable val -> many_related_field "d" = val).
Proof.
  apply (get_fields_never_adds (context_of_request "a,d") post_fields "d").
  vm_compute. reflexivity.
Defined.

End field_selection_more_examples.

(** ** [serializers.py]: what [build_obj] hands to the model class *)

Section build_obj_run.
Import python model_meta serializers.
Context {Model ModelField Value Instance Cleaned : Type}.
Variable get_field_info : Model -> FieldInfo Model ModelField.
Variable model_name : Model -> string.
Variable raise_errors_on_nested_writes :
  string -> Serializer (Model:=Model) -> gmap string Value -> option string.
Variable model_init : Model -> gmap string Value -> Instance + string.
Variable clean : Instance -> result Cleaned + DjangoValidationError.

Local Abbreviation heap := (gmap nat (gmap string Value)).
Local Abbreviation pydict := (gmap string Value).
Local Abbreviation RelationInfo := (RelationInfo Model ModelField).

(** What the pops of the loop leave of the copy. *)
Local Abbreviation popped :=
  (foldl (fun (c : pydict) (item : string * RelationInfo) =>
            if to_many item.2 then delete item.1 c else c)).

Lemma pop_to_many_run (v : nat) (item : string * RelationInfo)
    (acc c : pydict) (h0 : heap) :
  exists acc',
    pop_to_many v item acc (<[v := c]> h0) =
    (Ok acc', <[v := if to_many item.2 then delete item.1 c else c]> h0).
Proof.
  destruct item as [k ri]. unfold pop_to_many, bind, dict_read, dict_pop, dict_at.
  rewrite lookup_insert_eq. simpl.
  destruct (to_many ri); simpl; [|by eexists].
  destruct (c !! k) as [x|] eqn:E.
  - rewrite bool_decide_eq_true_2 by eauto.
    rewrite lookup_insert_eq. simpl. rewrite E, insert_insert_eq. by eexists.
  - rewrite bool_decide_eq_false_2 by (by intros [? ?]).
    rewrite delete_id by done. by eexists.
Qed.

Lemma pop_loop_run (v : nat) (l : list (string * RelationInfo))
    (acc c : pydict) (h0 : heap) :
  exists acc',
    for_each l (pop_to_many v) acc (<[v := c]> h0) =
    (Ok acc', <[v := popped c l]> h0).
Proof.
  revert acc c. induction l as [|item l IH]; intros acc c; simpl.
  - by eexists.
  - unfold bind.
    destruct (pop_to_many_run v item acc c h0) as [acc1 ->]. apply IH.
Qed.

Lemma popped_absent (l : list (string * RelationInfo)) (c : pydict) (k : string) :
  c !! k = None -> popped c l !! k = None.
Proof.
  revert c. induction l as [|[k0 ri] l IH]; intros c Hc; simpl; [done|].
  apply IH. destruct (to_many ri); [|done].
  rewrite lookup_delete. by case_decide.
Qed.

Lemma popped_to_many (l : list (string * RelationInfo)) (c : pydict)
    (k : string) (ri : RelationInfo) :
  (k, ri) ∈ l -> to_many ri = true -> popped c l !! k = None.
Proof.
  revert c. induction l as [|[k0 ri0] l IH]; intros c Hin Hm; simpl.
  - by apply elem_of_nil in Hin.
  - apply elem_of_cons in Hin as [Heq|Hin]; [|by apply IH].
    injection Heq as <- <-. rewrite Hm.
    apply popped_absent, lookup_delete_eq.
Qed.

Lemma popped_other (l : list (string * RelationInfo)) (c : pydict) (k : string) :
  (forall ri, (k, ri) ∈ l -> to_many ri = false) -> popped c l !! k = c !! k.
Proof.
  revert c. induction l as [|[k0 ri0] l IH]; intros c Hall; simpl; [done|].
  rewrite IH by (intros ri Hri; apply Hall; by right).
  destruct (to_many ri0) eqn:E; [|done].
  rewrite lookup_delete_ne; [done|].
  intros ->. specialize (Hall ri0 ltac:(by left)). congruence.
Qed.

Lemma popped_constructor_kwargs (info : FieldInfo Model ModelField)
    (contents : pydict) :
  popped contents (map_to_list (relations info)) = constructor_kwargs info contents.
Proof.
  apply map_eq. intros k. unfold constructor_kwargs.
  destruct (relations info !! k) as [ri|] eqn:Er;
    [destruct (to_many ri) eqn:Em|].
  - rewrite (popped_to_many _ _ k ri); [|by apply elem_of_map_to_list|done].
    symmetry. apply map_lookup_filter_None_2. right.
    intros x _ Hp. simpl in Hp. rewrite Er in Hp. simpl in Hp. congruence.
  - rewrite popped_other.
    2:{ intros ri' Hri'%elem_of_map_to_list. congruence. }
    destruct (contents !! k) as [x|] eqn:Ec; symmetry.
    + apply map_lookup_filter_Some_2; [done|]. simpl. rewrite Er. simpl. congruence.
    + apply map_lookup_filter_None_2. by left.
  - rewrite popped_other.
    2:{ intros ri' Hri'%elem_of_map_to_list. congruence. }
    destruct (contents !! k) as [x|] eqn:Ec; symmetry.
    + apply map_lookup_filter_Some_2; [done|]. simpl. by rewrite Er.
    + apply map_lookup_filter_None_2. by left.
Qed.

(** The run of [build_obj] on data that pass the check for nested
    writes. *)
Lemma build_obj_run_result (self : Serializer)
    (data : option nat) (h : heap) (d : nat) (contents : pydict) :
  data = Some d \/ (data = None /\ validated_data self = Some d) ->
  h !! d = Some contents ->
  raise_errors_on_nested_writes "create" self contents = None ->
  (build_obj get_field_info model_name raise_errors_on_nested_writes
     model_init self data h).1 =
  match model_init (Meta_model self)
          (constructor_kwargs (get_field_info (Meta_model self)) contents) with
  | inl instance => Ok instance
  | inr exc =>
      Raise (TypeError (type_error_message model_name (Meta_model self) self exc))
  end.
Proof.
  intros Hdata Hd Hnested. unfold build_obj.
  assert (Hresolve :
    (match data with
     | None =>
         match validated_data self with
         | Some d => ret d
         | None => raise (AssertionError "You must call `.is_valid()` before accessing `.validated_data`.")
         end
     | Some d => ret d
     end : st heap nat) = ret d).
  { destruct Hdata as [->|[-> ->]]; done. }
  assert (Hat : dict_at h d = contents) by (unfold dict_at; by rewrite Hd).
  assert (Hv : forall (v : nat) (c : pydict) (h0 : heap),
            dict_at (<[v := c]> h0) v = c).
  { intros v c h0. unfold dict_at. by rewrite lookup_insert_eq. }
  rewrite Hresolve. unfold bind at 1, ret at 1.
  unfold bind at 1, copy_copy at 1. rewrite Hat.
  set (v := fresh (dom h)).
  unfold bind at 1, dict_read at 1. rewrite Hv, Hnested.
  unfold bind at 1, ret at 1. unfold bind at 1.
  destruct (pop_loop_run v (map_to_list (relations (get_field_info (Meta_model self))))
              ∅ contents h) as [m2m ->].
  unfold bind, dict_read. rewrite Hv, popped_constructor_kwargs.
  by destruct (model_init _ _).
Qed.

(** X6: on data that pass the check for nested writes, [build_obj] calls
    the model class with the items of the data whose key is not a to-many
    relation of the model -- the values given for to-many relations are
    dropped -- and returns the instance, or raises a [TypeError] whose text
    names the model and the serializer class and ends with the text of the
    constructor's own [TypeError]. *)
Theorem build_obj_constructs_from_data (self : Serializer)
    (data : option nat) (h : heap) (d : nat) (contents : pydict) :
  data = Some d \/ (data = None /\ validated_data self = Some d) ->
  h !! d = Some contents ->
  raise_errors_on_nested_writes "create" self contents = None ->
  (build_obj get_field_info model_name raise_errors_on_nested_writes
     model_init self data h).1 =
  match model_init (Meta_model self)
          (constructor_kwargs (get_field_info (Meta_model self)) contents) with
  | inl instance => Ok instance
  | inr exc =>
      Raise (TypeError (type_error_message model_name (Meta_model self) self exc))
  end.
Proof. apply build_obj_run_result. Qed.

(** X7: [call_model_clean_using_data] runs the model's [clean()] on the
    instance [build_obj] constructs: what [clean()] returns is returned, a
    Django [ValidationError] of [clean()] is raised again as the
    framework's [ValidationError] with the same message, and the
    [TypeError] of a failed construction passes through as it is, without
    [clean()] being run. *)
Theorem call_model_clean_converts_validation_error (self : Serializer)
    (data : option nat) (h : heap) (d : nat) (contents : pydict) :
  data = Some d \/ (data = None /\ validated_data self = Some d) ->
  h !! d = Some contents ->
  raise_errors_on_nested_writes "create" self contents = None ->
  (call_model_clean_using_data get_field_info model_name
     raise_errors_on_nested_writes model_init clean self data h).1 =
  match model_init (Meta_model self)
          (constructor_kwargs (get_field_info (Meta_model self)) contents) with
  | inl instance =>
      match clean instance with
      | inl r => Completed r
      | inr e => RaiseValidationError (message e)
      end
  | inr exc =>
      Completed
        (Raise (TypeError (type_error_message model_name (Meta_model self) self exc)))
  end.
Proof.
  intros Hdata Hd Hnested. unfold call_model_clean_using_data.
  pose proof (build_obj_run_result self data h d contents Hdata Hd Hnested) as Hrun.
  destruct (build_obj _ _ _ _ _ _ _) as [r h'] eqn:E. simpl in Hrun. subst r.
  destruct (model_init _ _) as [instance|exc]; [|done].
  by destruct (clean instance).
Qed.

End build_obj_run.

(** ** [serializers.py]: serializers listed for the same model *)

Section polymorphic_last_listed.
Import python serializers.
Context {Model Obj Repr Ctx : Type} `{Countable Model}.
Local Abbreviation SerializerClass := (@SerializerClass Model Obj Repr Ctx).
Variable isinstance : Obj -> Model -> bool.
Variable iterkeys : gmap Model SerializerClass -> list Model.
Variable super_to_representation : Obj -> Repr.
Hypothesis iterkeys_perm : forall m, iterkeys m ≡ₚ (map_to_list m).*1.

Implicit Types (subtype_serializers pre post : list SerializerClass).
Implicit Types (s : SerializerClass).

Lemma subtype_serializers_map_later (m0 : gmap Model SerializerClass) post
    (model : Model) :
  (forall s', s' ∈ post -> subtype_model s' <> model) ->
  foldl (fun m s => <[subtype_model s := s]> m) m0 post !! model = m0 !! model.
Proof.
  revert m0. induction post as [|s' post IH]; intros m0 Hno; simpl; [done|].
  rewrite IH by (intros s'' Hs''; apply Hno; by right).
  rewrite lookup_insert_ne; [done|]. apply Hno. by left.
Qed.

(** The entry of a model is the serializer listed last for it. *)
Lemma subtype_serializers_map_last pre s post :
  (forall s', s' ∈ post -> subtype_model s' <> subtype_model s) ->
  subtype_serializers_map (pre ++ s :: post) !! subtype_model s = Some s.
Proof.
  intros Hno. unfold subtype_serializers_map. rewrite foldl_app. simpl.
  rewrite subtype_serializers_map_later by done.
  by rewrite lookup_insert_eq.
Qed.

(** X8: when all the listed serializers whose model the object is an
    instance of are listed for one and the same model, the object is
    represented by the one listed last for that model -- a serializer
    listed earlier for the same model is never used -- whatever the order
    in which the mapping hands out its keys. *)
Theorem to_representation_last_listed_wins pre s post (context : Ctx) (obj : Obj) :
  (forall s', s' ∈ post -> subtype_model s' <> subtype_model s) ->
  isinstance obj (subtype_model s) = true ->
  (forall s', s' ∈ pre ++ s :: post ->
     isinstance obj (subtype_model s') = true ->
     subtype_model s' = subtype_model s) ->
  to_representation isinstance iterkeys super_to_representation
    (pre ++ s :: post) context obj =
  Ok (subtype_to_representation s context obj).
Proof.
  intros Hlast Hinst Hone. unfold to_representation.
  set (mapping := subtype_serializers_map (pre ++ s :: post)).
  assert (Hkeys : forall model,
            model ∈ iterkeys mapping <-> is_Some (mapping !! model)).
  { intros model. rewrite iterkeys_perm, list_elem_of_fmap. split.
    - intros [[k s0] [-> Hs%elem_of_map_to_list]]. eauto.
    - intros [s0 Hs]. exists (model, s0). by rewrite elem_of_map_to_list. }
  pose proof (subtype_serializers_map_last pre s post Hlast) as Hs.
  fold mapping in Hs.
  destruct (dispatch_spec isinstance mapping context obj (iterkeys mapping))
    as [(before & model & after & s0 & _ & _ & Hm & Hs0 & ->)|[Hall _]].
  { intros model. apply Hkeys. }
  - destruct (subtype_serializers_map_entry _ _ _ Hs0) as [Hmodel Hin].
    rewrite <- Hmodel in Hm. specialize (Hone s0 Hin Hm).
    rewrite <- Hmodel, Hone, Hs in Hs0. by injection Hs0 as <-.
  - rewrite Hall in Hinst; [done|]. apply Hkeys. eauto.
Qed.

End polymorphic_last_listed.

Section serializers_more_examples.
Import python model_meta serializers example example_more.

Example call_clean_runs :
  (call_clean None).1 = Completed (Ok tt) /\
  (call_clean (Some 2)).1 = RaiseValidationError "A post needs a title." /\
  exists msg, (call_clean (Some 1)).1 = Completed (Raise (TypeError msg)).
Proof. vm_compute. repeat split. by eexists. Qed.

Lemma build_obj_constructs_from_data_witness :
  post_heap !! 0 = Some post_data /\
  constructor_kwargs (get_field_info "Post") post_data = {[ "title" := "Hello" ]} /\
  (build_post None).1 =
  match model_init "Post" (constructor_kwargs (get_field_info "Post") post_data) with
  | inl instance => Ok instance
  | inr exc =>
      Raise (TypeError
               (type_error_message (fun m : string => m) "Post" post_serializer exc))
  end.
Proof.
  split; [reflexivity|]. split; [vm_compute; reflexivity|].
  apply (build_obj_constructs_from_data get_field_info (fun m : string => m)
           no_nested_writes model_init post_serializer None post_heap 0 post_data).
  - right. split; reflexivity.
  - reflexivity.
  - reflexivity.
Defined.

Lemma call_model_clean_converts_validation_error_witness :
  clean_heap !! 2 = Some untitled_data /\
  (call_clean (Some 2)).1 =
  match model_init "Post" (constructor_kwargs (get_field_info "Post") untitled_data) with
  | inl instance =>
      match clean_post instance with
      | inl r => Completed r
      | inr e => RaiseValidationError (message e)
      end
  | inr exc =>
      Completed
        (Raise (TypeError
                  (type_error_message (fun m : string => m) "Post" post_serializer exc)))
  end.
Proof.
  split; [reflexivity|].
  apply (call_model_clean_converts_validation_error get_field_info
           (fun m : string => m) no_nested_writes model_init clean_post
           post_serializer (Some 2) clean_heap 2 untitled_data).
  - left. reflexivity.
  - reflexivity.
  - reflexivity.
Defined.

Lemma example_iterkeys_perm
    (m : gmap string (SerializerClass (Model:=string) (Obj:=list string)
                        (Repr:=string) (Ctx:=unit))) :
  example.iterkeys m ≡ₚ (map_to_list m).*1.
Proof. reflexivity. Defined.

Lemma to_representation_last_listed_wins_witness :
  to_representation isinstance iterkeys (fun _ => "represented by the base class")
    ([serializer_labelled "Article" "first"; serializer_for "Video"] ++
     serializer_labelled "Article" "second" :: [serializer_for "Audio"])
    tt ["Article"; "Content"] =
  Ok "second".
Proof.
  apply (to_representation_last_listed_wins isinstance iterkeys
           (fun _ => "represented by the base class") example_iterkeys_perm
           [serializer_labelled "Article" "first"; serializer_for "Video"]
           (serializer_labelled "Article" "second") [serializer_for "Audio"]
           tt ["Article"; "Content"]).
  - intros s' Hs'. apply list_elem_of_singleton in Hs'. subst s'. discriminate.
  - reflexivity.
  - intros s' Hs' Hi.
    repeat (apply elem_of_cons in Hs' as [->|Hs']; [try reflexivity; discriminate Hi|]).
    inversion Hs'.
Defined.

End serializers_more_examples.

(** ** [filters.py]: the cache only grows *)

Section filters_cache_facts.
Import python model_meta filters filters_cache.
Context {Model ModelField ExtraFilter : Type} `{Countable Model}.
Variable get_field_info : Model -> FieldInfo Model ModelField.
Variable model_str : Model -> string.
Variable iteritems :
  gmap string (list string) -> list (string * list string).
Variable filterset_init : FilterSet Model ExtraFilter -> option exn.

Local Abbreviation Cache := (gmap Model (FieldInfo Model ModelField)).
Local Abbreviation cache_grows := (cache_grows get_field_info).
Local Abbreviation growing := (growing get_field_info).

Lemma cache_grows_refl (cache : Cache) : cache_grows cache cache.
Proof. intros m. by left. Qed.

Lemma cache_grows_trans (c1 c2 c3 : Cache) :
  cache_grows c1 c2 -> cache_grows c2 c3 -> cache_grows c1 c3.
Proof.
  intros H12 H23 m. destruct (H23 m) as [E|[E2 E3]].
  - rewrite E. apply H12.
  - destruct (H12 m) as [E|[E1 E]].
    + right. by rewrite <- E.
    + congruence.
Qed.

Lemma growing_ret {A : Type} (a : A) : growing (ret a).
Proof. intros cache. apply cache_grows_refl. Qed.

Lemma growing_raise {A : Type} (e : exn) : growing (raise (A:=A) e).
Proof. intros cache. apply cache_grows_refl. Qed.

Lemma growing_out_of_fuel {A : Type} : growing (out_of_fuel (A:=A)).
Proof. intros cache. apply cache_grows_refl. Qed.

Lemma growing_bind {A B : Type} (c : st Cache A) (k : A -> st Cache B) :
  growing c -> (forall a, growing (k a)) -> growing (bind c k).
Proof.
  intros Hc Hk cache. unfold bind. specialize (Hc cache).
  destruct (c cache) as [[a|e|] cache1]; simpl in *; [|done..].
  eapply cache_grows_trans; [done|]. apply Hk.
Qed.

Lemma growing_for_each {A B : Type} (l : list A) (body : A -> B -> st Cache B)
    (acc : B) :
  (forall x b, growing (body x b)) -> growing (for_each l body acc).
Proof.
  intros Hbody. revert acc. induction l as [|x l IH]; intros acc; simpl.
  - apply growing_ret.
  - apply growing_bind; [apply Hbody|apply IH].
Qed.

Lemma _get_field_info_growing (Model' : option Model) :
  growing (_get_field_info get_field_info Model').
Proof.
  destruct Model' as [m|]; simpl; [|apply growing_raise].
  intros cache. unfold bind, get. simpl.
  destruct (cache !! m) as [info|] eqn:E; simpl.
  - apply cache_grows_refl.
  - intros m'. destruct (decide (m = m')) as [<-|Hne].
    + right. by rewrite lookup_insert_eq.
    + left. by rewrite lookup_insert_ne.
Qed.

Lemma _get_related_model_growing (Model' : option Model) (f : string) :
  growing (_get_related_model get_field_info Model' f).
Proof.
  apply growing_bind; [apply _get_field_info_growing|].
  intros info. destruct (relations info !! f); apply growing_ret.
Qed.

Lemma _get_model_field_growing (Model' : option Model) (f : string) :
  growing (_get_model_field get_field_info Model' f).
Proof.
  apply growing_bind; [apply _get_field_info_growing|].
  intros info. destruct (fields_and_pk info !! f); apply growing_ret.
Qed.

Lemma related_fields_step_growing (Model' : option Model) (f : string)
    (state : list string * gmap string (list string)) :
  growing (related_fields_step get_field_info Model' f state).
Proof.
  destruct state as [args related_fields]. unfold related_fields_step.
  apply growing_bind.
  - destruct (pystr.contains _ _); [apply growing_ret|].
    apply growing_bind; [apply _get_related_model_growing|].
    intros ?. apply growing_ret.
  - intros [|]; [|apply growing_ret].
    destruct (pystr.split _ _); [apply growing_raise|apply growing_ret].
Qed.

Lemma related_fields_loop_growing (fuel : nat) (Model' : option Model) (i : nat)
    (state : list string * gmap string (list string)) :
  growing (related_fields_loop get_field_info fuel Model' i state).
Proof.
  revert i state. induction fuel as [|fuel IH]; intros i state; simpl.
  - destruct (state.1 !! i); [apply growing_out_of_fuel|apply growing_ret].
  - destruct (state.1 !! i); [|apply growing_ret].
    apply growing_bind; [apply related_fields_step_growing|].
    intros st. apply IH.
Qed.

Lemma class_attrs_step_growing (Model' : option Model)
    (related_classes : gmap string (FilterSet Model ExtraFilter)) (f : string)
    (state : list string * gmap string (Filter Model ExtraFilter)) :
  growing (class_attrs_step get_field_info model_str Model' related_classes f state).
Proof.
  destruct state as [fields_on_model class_attrs]. unfold class_attrs_step.
  destruct (pystr.contains _ _); [apply growing_ret|].
  apply growing_bind; [|intros _; apply growing_ret].
  apply growing_bind; [apply _get_model_field_growing|].
  intros [?|]; [apply growing_ret|apply growing_raise].
Qed.

Lemma create_filter_class_rec_growing (fuel : nat) (Model' : option Model)
    (args : list string) (kwargs : gmap string ExtraFilter) :
  growing (create_filter_class_rec get_field_info model_str iteritems
             filterset_init fuel Model' args kwargs).
Proof.
  revert Model' args kwargs.
  induction fuel as [|fuel IH]; intros Model' args kwargs; simpl.
  - apply growing_out_of_fuel.
  - apply growing_bind; [apply related_fields_loop_growing|].
    intros [args' related_fields]. apply growing_bind.
    + apply growing_for_each. intros [f model_fields] related_classes.
      apply growing_bind; [apply _get_related_model_growing|]. intros rel_model.
      apply growing_bind; [apply IH|]. intros ?. apply growing_ret.
    + intros related_classes. apply growing_bind.
      * apply growing_for_each. intros f st. apply class_attrs_step_growing.
      * intros [fields_on_model class_attrs].
        destruct (filterset_init _); [apply growing_raise|apply growing_ret].
Qed.

(** X13: [_get_field_info] is a memo table: it returns the cached entry
    of the model when there is one and asks the framework only when there
    is none; afterwards the entry of the model is what it returned, and a
    second call returns the same and leaves the cache as it is. *)
Theorem get_field_info_memo (cache : Cache) (m : Model) :
  exists info,
    _get_field_info get_field_info (Some m) cache = (Ok info, <[m := info]> cache) /\
    (forall cached, cache !! m = Some cached -> info = cached) /\
    (cache !! m = None -> info = get_field_info m) /\
    _get_field_info get_field_info (Some m) (<[m := info]> cache) =
      (Ok info, <[m := info]> cache).
Proof.
  unfold _get_field_info, bind, get. simpl.
  destruct (cache !! m) as [cached|] eqn:E; simpl.
  - exists cached. rewrite insert_id by done. rewrite E.
    repeat split; [by intros ? [= <-] | done].
  - exists (get_field_info m). rewrite lookup_insert_eq.
    repeat split; done.
Qed.

(** X14: whatever it comes to, a call of [create_filter_class] leaves
    every entry of [_field_info_cache] as it was, and adds, for models
    without an entry, nothing but what the framework's [get_field_info]
    returns for them. *)
Theorem create_filter_class_cache_grows (cache : Cache) (Model' : option Model)
    (args : list string) (kwargs : gmap string ExtraFilter) (m : Model) :
  let cache' :=
    (create_filter_class get_field_info model_str iteritems filterset_init
       Model' args kwargs cache).2 in
  cache' !! m = cache !! m \/
  (cache !! m = None /\ cache' !! m = Some (get_field_info m)).
Proof. apply (create_filter_class_rec_growing _ Model' args kwargs cache m). Qed.

End filters_cache_facts.

(** ** [filters.py]: the shape of the generated class *)

Section filters_shape.
Import python model_meta filters filters_pure pystr.
Context {Model ModelField ExtraFilter : Type} `{Countable Model}.
Variable get_field_info : Model -> FieldInfo Model ModelField.
Variable model_str : Model -> string.
Variable iteritems :
  gmap string (list string) -> list (string * list string).
Variable filterset_init : FilterSet Model ExtraFilter -> option exn.
Hypothesis iteritems_perm : forall d, iteritems d ≡ₚ map_to_list d.

Local Abbreviation SEP := RELATED_FIELD_SEP.
Local Abbreviation is_related := (is_related get_field_info).
Local Abbreviation appended_facts := (appended_facts get_field_info).
Local Abbreviation paths_below := filters_pure.paths_below.
Local Abbreviation step := (filters_pure.related_fields_step get_field_info).
Local Abbreviation loop := (filters_pure.related_fields_loop get_field_info).
Local Abbreviation related_model_of := (related_model_of get_field_info).
Local Abbreviation related_model_at := (related_model_at get_field_info).
Local Abbreviation field_exists := (field_exists get_field_info).
Local Abbreviation validate_field :=
  (filters_pure.validate_field get_field_info model_str).
Local Abbreviation class_attrs_step :=
  (filters_pure.class_attrs_step (ExtraFilter:=ExtraFilter) get_field_info model_str).
Local Abbreviation create_rec :=
  (filters_pure.create_filter_class_rec get_field_info model_str iteritems
     filterset_init).
Local Abbreviation create :=
  (filters_pure.create_filter_class get_field_info model_str iteritems
     filterset_init).
Local Abbreviation FilterSet := (FilterSet Model ExtraFilter).
Local Abbreviation Filter := (Filter Model ExtraFilter).
Local Abbreviation plain := (fun f : string => contains SEP f = false).
Local Abbreviation none_error :=
  (AttributeError "'NoneType' object has no attribute '_meta'").

Implicit Types (a args ext : list string) (rf : gmap string (list string)).
Implicit Types (f g k fname : string) (M : option Model) (m : Model).
Implicit Types (rc : gmap string FilterSet) (kwargs : gmap string ExtraFilter).

(** *** The three stages of a call that returns *)

Lemma create_stages M args kwargs (cls : FilterSet) :
  create M args kwargs = Ok cls ->
  exists a rf rc fom attrs,
    loop (2 * length args) M 0 (args, ∅) = Ok (a, rf) /\
    rfor_each (iteritems rf)
      (related_class_step get_field_info
         (fun rel_model model_fields => create_rec (depth args) rel_model model_fields ∅)
         M) ∅ = Ok rc /\
    rfor_each a (class_attrs_step M rc) ([], ∅) = Ok (fom, attrs) /\
    cls = AllLookupsFilterSet M fom attrs kwargs /\
    filterset_init cls = None.
Proof.
  unfold filters_pure.create_filter_class.
  cbn [filters_pure.create_filter_class_rec]. intros Hrun.
  destruct (loop (2 * length args) M 0 (args, ∅)) as [[a rf]| |] eqn:El;
    cbn [rbind] in Hrun; [|done..].
  match type of Hrun with
  | rbind ?r _ = _ => destruct r as [rc| |] eqn:E2; cbn [rbind] in Hrun; [|done..]
  end.
  match type of Hrun with
  | rbind ?r _ = _ =>
      destruct r as [[fom attrs]| |] eqn:E3; cbn [rbind] in Hrun; [|done..]
  end.
  destruct (filterset_init _) eqn:Einit; [done|]. injection Hrun as <-.
  by exists a, rf, rc, fom, attrs.
Qed.

(** [Meta.fields] is the list of the visited names without separator. *)
Lemma third_loop_fields M rc (l fom fom' : list string)
    (attrs attrs' : gmap string Filter) :
  rfor_each l (class_attrs_step M rc) (fom, attrs) = Ok (fom', attrs') ->
  fom' = fom ++ filter plain l.
Proof.
  revert fom attrs. induction l as [|g l IH]; intros fom attrs Hrun.
  - simpl in Hrun. injection Hrun as <- _. by rewrite app_nil_r.
  - cbn [rfor_each] in Hrun.
    rewrite (class_attrs_step_eq get_field_info model_str) in Hrun.
    destruct (contains SEP g) eqn:Eg.
    + cbn [rbind] in Hrun. rewrite (IH _ _ Hrun).
      rewrite filter_cons_False; [done|]. by rewrite Eg.
    + destruct (validate_field_result get_field_info model_str M g) as [Hv|[e Hv]];
        rewrite Hv in Hrun; cbn [rbind] in Hrun; [|done].
      rewrite (IH _ _ Hrun), filter_cons_True by done.
      by rewrite <- app_assoc.
Qed.

(** *** Where the appended names come from *)

Lemma step_shape M f a rf a1 rf1 :
  step M f (a, rf) = Ok (a1, rf1) ->
  (exists b : bool, is_related M f = Ok b) /\
  (a1 = a \/
   exists fname tl, split SEP f = fname :: tl /\ (fname ∉ a) /\ a1 = a ++ [fname]).
Proof.
  unfold filters_pure.related_fields_step. intros Hstep.
  destruct (is_related M f) as [[|]|e|]; cbn [rbind] in Hstep; try done.
  2:{ injection Hstep as <- _. split; [eauto|by left]. }
  split; [eauto|].
  destruct (advance_ok f a rf) as (fname & tl & a' & rf' & Hs & Hadv & Ha' & _).
  rewrite Hadv in Hstep. injection Hstep as <- _. subst a'.
  case_bool_decide; [by left|]. right. by exists fname, tl.
Qed.

Lemma appended_facts_step M args j s f s1 :
  appended_facts M args j s -> s.1 !! j = Some f -> step M f s = Ok s1 ->
  appended_facts M args (S j) s1.
Proof.
  destruct s as [a rf], s1 as [a1 rf1].
  intros (ext & Ha & Hnd & Horigin & Hvisited) Hj Hstep. simpl in Ha, Hj.
  pose proof (lookup_lt_Some _ _ _ Hj) as Hlt.
  destruct (step_shape M f a rf a1 rf1 Hstep) as [Hrel [->|(fname & tl & Hs & Hout & ->)]].
  - exists ext. do 3 (split; [done|]). simpl.
    intros idx f0 Hidx Hf0. destruct (decide (idx = j)) as [->|Hne].
    + by replace f0 with f by congruence.
    + apply (Hvisited idx f0); [lia|done].
  - assert (Hsep : contains SEP f = true).
    { destruct (contains SEP f) eqn:E; [done|]. exfalso. apply Hout.
      rewrite (split_no_sep SEP f SEP_not_empty E) in Hs. injection Hs as <- _.
      by eapply list_elem_of_lookup_2. }
    assert (Hf : f ∈ args).
    { apply list_elem_of_lookup_2 in Hj. rewrite Ha in Hj.
      apply elem_of_app in Hj as [Hj|Hj]; [done|].
      destruct (Horigin f Hj) as [_ (f' & _ & _ & Hhd)].
      destruct (split SEP f') as [|w ws] eqn:Es; [done|].
      simpl in Hhd. injection Hhd as ->.
      pose proof (split_head_no_sep SEP f' f ws SEP_not_empty Es). congruence. }
    rewrite Ha in Hout. apply not_elem_of_app in Hout as [Hout1 Hout2].
    exists (ext ++ [fname]). simpl. split; [by rewrite Ha, app_assoc|].
    split; [|split].
    + apply NoDup_app. split; [done|]. split; [|apply NoDup_singleton].
      intros x Hx Hx'%list_elem_of_singleton. by subst x.
    + intros g [Hg|Hg%list_elem_of_singleton]%elem_of_app; [by apply Horigin|].
      subst g. split; [done|]. exists f. by rewrite Hs.
    + intros idx f0 Hidx Hf0. rewrite lookup_app_l in Hf0 by lia.
      destruct (decide (idx = j)) as [->|Hne].
      * by replace f0 with f by congruence.
      * apply (Hvisited idx f0); [lia|done].
Qed.

Lemma first_loop_appended M args fuel a rf :
  loop fuel M 0 (args, ∅) = Ok (a, rf) ->
  exists ext, a = args ++ ext /\ NoDup ext /\
    (forall g, g ∈ ext ->
       (g ∉ args) /\
       exists f, f ∈ args /\ contains SEP f = true /\ head (split SEP f) = Some g) /\
    (forall f, f ∈ a -> exists b : bool, is_related M f = Ok b).
Proof.
  intros Hloop.
  destruct (loop_inv get_field_info (appended_facts M args) M fuel 0 (args, ∅) (a, rf))
    as (n & (ext & Ha & Hnd & Horigin & Hvisited) & Hn).
  - exists []. simpl. rewrite app_nil_r. split; [done|].
    split; [apply NoDup_nil_2|]. split; [by intros ? ?%elem_of_nil|].
    intros idx f Hidx. lia.
  - apply appended_facts_step.
  - done.
  - exists ext. simpl in *. do 3 (split; [done|]).
    intros f [idx Hidx]%list_elem_of_lookup.
    apply (Hvisited idx f); [|done].
    apply lookup_ge_None in Hn. apply lookup_lt_Some in Hidx. lia.
Qed.

(** *** The paths handed to the nested calls *)

Lemma paths_below_app (l1 l2 : list string) k :
  paths_below (l1 ++ l2) k = paths_below l1 k ++ paths_below l2 k.
Proof. unfold paths_below. by rewrite flat_map_app. Qed.

Lemma paths_below_plain (l : list string) k :
  (forall g, g ∈ l -> contains SEP g = false) -> paths_below l k = [].
Proof.
  induction l as [|g l IH]; intros Hplain; [done|].
  change (g :: l) with ([g] ++ l). rewrite paths_below_app, IH.
  2:{ intros g' Hg'. apply Hplain. by right. }
  unfold paths_below. simpl.
  rewrite (split_no_sep SEP g SEP_not_empty) by (apply Hplain; by left).
  simpl. by rewrite andb_false_r.
Qed.

Lemma step_paths_below M f a rf a1 rf1 k :
  step M f (a, rf) = Ok (a1, rf1) ->
  default [] (rf1 !! k) = default [] (rf !! k) ++ paths_below [f] k.
Proof.
  unfold filters_pure.related_fields_step. intros Hstep.
  destruct (is_related M f) as [[|]|e|] eqn:Erel; cbn [rbind] in Hstep; try done.
  - destruct (advance_ok f a rf) as (fname & tl & a' & rf' & Hs & Hadv & _ & Hf & Hk).
    rewrite Hadv in Hstep. injection Hstep as _ <-.
    unfold paths_below. simpl. rewrite Hs, app_nil_r.
    destruct (decide (fname = k)) as [->|Hne].
    + rewrite Hf, bool_decide_eq_true_2 by done. simpl.
      by destruct (truthy (join SEP tl)).
    + rewrite (Hk k) by done. rewrite bool_decide_eq_false_2 by done.
      simpl. by rewrite app_nil_r.
  - injection Hstep as _ <-. rewrite paths_below_plain; [by rewrite app_nil_r|].
    intros g Hg%list_elem_of_singleton. subst g.
    unfold filters_pure.is_related in Erel.
    by destruct (contains SEP f).
Qed.

(** After the loop the list kept for a first segment is the list of the
    paths given below it. *)
Lemma first_loop_paths_below M args fuel a rf k :
  loop fuel M 0 (args, ∅) = Ok (a, rf) ->
  default [] (rf !! k) = paths_below args k.
Proof.
  intros Hloop.
  destruct (loop_inv get_field_info
              (fun j st => default [] (st.2 !! k) = paths_below (take j st.1) k)
              M fuel 0 (args, ∅) (a, rf)) as (n & Hn & Hend).
  - simpl. by rewrite lookup_empty.
  - intros j [a0 rf0] f [a1 rf1] Hj Hf Hstep. simpl in *.
    rewrite (step_paths_below M f a0 rf0 a1 rf1 k Hstep), Hj.
    destruct (step_shape M f a0 rf0 a1 rf1 Hstep) as [_ [->|(fname & tl & _ & _ & ->)]].
    + rewrite (take_S_r a0 j f Hf). by rewrite paths_below_app.
    + pose proof (lookup_lt_Some _ _ _ Hf) as Hlt.
      rewrite (take_app_le a0 [fname] (S j)) by lia.
      rewrite (take_S_r a0 j f Hf). by rewrite paths_below_app.
  - done.
  - simpl in *. rewrite Hn.
    rewrite take_ge by (by apply lookup_ge_None).
    destruct (first_loop_facts get_field_info M args _ a rf Hloop)
      as ((ext & Ha & Hext) & _). simpl in Ha, Hext.
    rewrite Ha, paths_below_app, (paths_below_plain ext), app_nil_r; [done|].
    intros g Hg. by apply Hext.
Qed.

(** *** A call on [None] *)

Lemma is_related_none f :
  is_related None f = if contains SEP f then Ok true else Raise none_error.
Proof. unfold filters_pure.is_related. by destruct (contains SEP f). Qed.

Lemma loop_none_raise fuel i (st : list string * gmap string (list string))
    (e : exn) :
  loop fuel None i st = Raise e -> e = none_error.
Proof.
  revert i st. induction fuel as [|fuel IH]; intros i [a rf]; simpl.
  - by destruct (a !! i).
  - destruct (a !! i) as [f|]; [|done].
    unfold filters_pure.related_fields_step. rewrite is_related_none.
    destruct (contains SEP f); cbn [rbind]; [|by intros [= <-]].
    destruct (advance_ok f a rf) as (? & ? & ? & ? & _ & -> & _).
    cbn [rbind]. apply IH.
Qed.

Lemma first_loop_none args :
  args <> [] -> loop (2 * length args) None 0 (args, ∅) = Raise none_error.
Proof.
  intros Hne.
  pose proof (first_loop_not_out_of_fuel get_field_info None args) as Hfuel.
  destruct (loop (2 * length args) None 0 (args, ∅)) as [[a rf]|e|] eqn:El;
    [exfalso|by rewrite (loop_none_raise _ _ _ _ El)|done].
  destruct (first_loop_appended None args _ a rf El) as (ext & Ha & _ & _ & Hall).
  destruct (first_loop_facts get_field_info None args _ a rf El) as (_ & Hvisited & _).
  assert (Hsep : forall f, f ∈ a -> contains SEP f = true).
  { intros f Hf. destruct (Hall f Hf) as [b Hb]. rewrite is_related_none in Hb.
    by destruct (contains SEP f). }
  destruct args as [|f0 args]; [done|].
  assert (Hf0 : f0 ∈ a) by (rewrite Ha; by left).
  destruct (Hvisited f0 Hf0) as (fname & tl & mf & Hs & Hfn & _).
  { rewrite is_related_none. by rewrite (Hsep f0 Hf0). }
  pose proof (split_head_no_sep SEP f0 fname tl SEP_not_empty Hs) as Hno.
  rewrite (Hsep fname Hfn) in Hno. done.
Qed.

(** On [None] and at least one name the call stops in the first loop. *)
Lemma create_none M args kwargs :
  M = None -> args <> [] -> create M args kwargs = Raise none_error.
Proof.
  intros -> Hne. unfold filters_pure.create_filter_class.
  cbn [filters_pure.create_filter_class_rec].
  by rewrite (first_loop_none args Hne).
Qed.

(** *** What a returned class declares *)

Lemma create_shape M args kwargs (cls : FilterSet) :
  create M args kwargs = Ok cls ->
  exists ext rf rc,
    loop (2 * length args) M 0 (args, ∅) = Ok (args ++ ext, rf) /\
    NoDup ext /\
    (forall g, g ∈ ext ->
       (g ∉ args) /\
       exists f, f ∈ args /\ contains SEP f = true /\ head (split SEP f) = Some g) /\
    Meta_fields cls = filter plain args ++ ext /\
    (forall f, f ∈ Meta_fields cls ->
       validate_field M f = Ok tt /\
       declared_filters cls !! f = Some (filter_for rc f)) /\
    (forall f, f ∉ Meta_fields cls -> declared_filters cls !! f = None) /\
    (forall k nested, rc !! k = Some nested ->
       exists rel mf, rf !! k = Some mf /\ related_model_of M k = Ok rel /\
         create rel mf ∅ = Ok nested) /\
    (forall k, is_Some (rf !! k) -> is_Some (rc !! k)) /\
    Meta_model cls = M /\ extra_filters cls = kwargs.
Proof.
  intros Hrun.
  destruct (create_stages M args kwargs cls Hrun)
    as (a & rf & rc & fom & attrs & El & E2 & E3 & -> & _).
  destruct (first_loop_appended M args _ a rf El) as (ext & -> & Hnd & Horigin & _).
  destruct (second_loop_spec get_field_info _ M _ _ _
              (NoDup_iteritems iteritems iteritems_perm rf) E2) as [H21 H22].
  destruct (third_loop_spec get_field_info model_str M rc _ [] fom ∅ attrs E3)
    as (H31 & H32 & _).
  pose proof (third_loop_fields M rc _ [] fom ∅ attrs E3) as Hfom.
  simpl in Hfom.
  assert (Hext : filter plain ext = ext).
  { clear -Horigin. induction ext as [|g ext IH]; [done|].
    rewrite filter_cons_True, IH; [done| |].
    - intros g' Hg'. apply Horigin. by right.
    - destruct (Horigin g ltac:(by left)) as [_ (f & _ & _ & Hhd)].
      destruct (split SEP f) as [|w ws] eqn:Es; [done|].
      simpl in Hhd. injection Hhd as ->.
      by apply (split_head_no_sep SEP f g ws SEP_not_empty). }
  assert (Hmem : forall f, f ∈ fom <-> f ∈ args ++ ext /\ contains SEP f = false).
  { intros f. rewrite Hfom, list_elem_of_filter. tauto. }
  rewrite filter_app, Hext in Hfom.
  exists ext, rf, rc. simpl. do 4 (split; [done|]).
  split; [|split; [|split; [|split; [|done]]]].
  - intros f Hf%Hmem. destruct Hf as [Hf Hsep].
    by destruct (H31 f Hf Hsep) as (? & ? & _).
  - intros f Hf. rewrite H32; [done|].
    destruct (contains SEP f) eqn:E; [by right|]. left.
    intros Hin. apply Hf, Hmem. done.
  - intros k nested Hk.
    destruct (rf !! k) as [mf|] eqn:Erf.
    + destruct (H21 k mf) as (rel & nested' & Hrel & Hcr & Hrc).
      { by apply (elem_of_iteritems iteritems iteritems_perm). }
      exists rel, mf. split; [done|]. split; [done|].
      rewrite Hk in Hrc. injection Hrc as <-. rewrite <- Hcr. symmetry.
      apply (create_rec_create get_field_info model_str iteritems filterset_init
               iteritems_perm).
      pose proof (first_loop_depth get_field_info M args _ _ rf k mf El Erf). lia.
    + rewrite H22 in Hk; [done|].
      intros [[k' mf] [-> Hin]]%list_elem_of_fmap.
      apply (elem_of_iteritems iteritems iteritems_perm) in Hin.
      simpl in Erf. congruence.
  - intros k [mf Hk].
    destruct (H21 k mf) as (rel & nested & _ & _ & Hrc); [|eauto].
    by apply (elem_of_iteritems iteritems iteritems_perm).
Qed.

End filters_shape.

(** ** [filters.py]: more on [create_filter_class] *)

Section filters_more.
Import python model_meta filters filters_pure pystr.
Context {Model ModelField ExtraFilter : Type} `{Countable Model}.
Variable get_field_info : Model -> FieldInfo Model ModelField.
Variable model_str : Model -> string.
Variable iteritems :
  gmap string (list string) -> list (string * list string).
Variable filterset_init : FilterSet Model ExtraFilter -> option exn.
Hypothesis iteritems_perm : forall d, iteritems d ≡ₚ map_to_list d.

Local Abbreviation Cache := (gmap Model (FieldInfo Model ModelField)).
Local Abbreviation SEP := RELATED_FIELD_SEP.
Local Abbreviation coherent := (coherent get_field_info).
Local Abbreviation related_model_at := (related_model_at get_field_info).
Local Abbreviation related_model_of := (related_model_of get_field_info).
Local Abbreviation field_exists := (field_exists get_field_info).
Local Abbreviation create_filter_class :=
  (filters.create_filter_class get_field_info model_str iteritems filterset_init).
Local Abbreviation pure_create :=
  (filters_pure.create_filter_class get_field_info model_str iteritems
     filterset_init).
Local Abbreviation create_shape :=
  (create_shape get_field_info model_str iteritems filterset_init iteritems_perm).

Implicit Types (args ext : list string) (f g k fname : string) (m : Model).
Implicit Types (M : option Model).
Implicit Types (cache : Cache) (kwargs : gmap string ExtraFilter).
Implicit Types (cls nested : FilterSet Model ExtraFilter).

Lemma head_split_no_sep f g :
  head (split SEP f) = Some g -> contains SEP g = false.
Proof.
  destruct (split SEP f) as [|w ws] eqn:Es; [done|]. simpl. intros [= ->].
  by apply (split_head_no_sep SEP f g ws SEP_not_empty).
Qed.

Lemma validate_field_ok M f :
  filters_pure.validate_field get_field_info model_str M f = Ok tt ->
  exists m, M = Some m /\ field_exists m f = true.
Proof.
  destruct M as [m|]; [|done]. rewrite validate_field_some.
  destruct (field_exists m f) eqn:E; [eauto|done].
Qed.

Lemma related_model_of_ok M k (rel : option Model) :
  related_model_of M k = Ok rel ->
  exists m, M = Some m /\ rel = related_model_at m k.
Proof.
  destruct M as [m|]; [|done]. rewrite related_model_of_some.
  intros [= <-]. eauto.
Qed.

(** X15: the cache is transparent: on any two caches that hold nothing
    but values of the framework's [get_field_info], [create_filter_class]
    comes to the same class or the same exception. *)
Theorem create_filter_class_cache_independent cache1 cache2 M args kwargs :
  coherent cache1 -> coherent cache2 ->
  (create_filter_class M args kwargs cache1).1 =
  (create_filter_class M args kwargs cache2).1.
Proof.
  intros H1 H2. by rewrite !create_filter_class_run.
Qed.

(** X16: [create_filter_class] always comes to an end, with a class or
    an exception: the loop over the list it appends to stops, and so does
    the recursion along the paths. *)
Theorem create_filter_class_terminates cache M args kwargs :
  coherent cache ->
  (exists cls, (create_filter_class M args kwargs cache).1 = Ok cls) \/
  (exists e, (create_filter_class M args kwargs cache).1 = Raise e).
Proof.
  intros Hc. rewrite create_filter_class_run by done.
  pose proof (create_not_out_of_fuel get_field_info model_str iteritems
                filterset_init iteritems_perm M args kwargs) as Hfuel.
  destruct (pure_create M args kwargs); [eauto|eauto|done].
Qed.

(** X18: on a returned class the declared filters are exactly those of
    the names in [Meta.fields]; every such name is free of the separator
    and exists on the model, as a field or as a relation. *)
Theorem declared_filters_are_meta_fields cache M args kwargs cls f :
  coherent cache ->
  (create_filter_class M args kwargs cache).1 = Ok cls ->
  (is_Some (declared_filters cls !! f) <-> f ∈ Meta_fields cls) /\
  (f ∈ Meta_fields cls ->
     contains SEP f = false /\ exists m, M = Some m /\ field_exists m f = true).
Proof.
  intros Hc Hrun. rewrite create_filter_class_run in Hrun by done.
  destruct (create_shape M args kwargs cls Hrun)
    as (ext & rf & rc & _ & _ & Horigin & Hfields & Hin & Hout & _).
  split.
  - split.
    + intros Hsome. destruct (decide (f ∈ Meta_fields cls)) as [|Hn]; [done|].
      rewrite (Hout f Hn) in Hsome. by destruct Hsome.
    + intros Hf. destruct (Hin f Hf) as [_ ->]. eauto.
  - intros Hf. split.
    + rewrite Hfields in Hf. apply elem_of_app in Hf as [Hf|Hf].
      * by apply list_elem_of_filter in Hf as [? _].
      * destruct (Horigin f Hf) as [_ (f' & _ & _ & Hhd)].
        by apply (head_split_no_sep f').
    + destruct (Hin f Hf) as [Hv _]. by apply validate_field_ok.
Qed.

(** X19: [Meta.fields] of a returned class lists the given names without
    separator, in the order and as often as they were given, and after them
    -- once each -- the first segments of the given paths with separator
    that were not given as names of their own. *)
Theorem meta_fields_from_args cache M args kwargs cls :
  coherent cache ->
  (create_filter_class M args kwargs cache).1 = Ok cls ->
  exists ext,
    Meta_fields cls = filter (fun f => contains SEP f = false) args ++ ext /\
    NoDup ext /\
    forall g, g ∈ ext <->
      (g ∉ args) /\
      exists f, f ∈ args /\ contains SEP f = true /\ head (split SEP f) = Some g.
Proof.
  intros Hc Hrun. rewrite create_filter_class_run in Hrun by done.
  destruct (create_shape M args kwargs cls Hrun)
    as (ext & rf & rc & Hloop & Hnd & Horigin & Hfields & _).
  exists ext. split; [done|]. split; [done|].
  intros g. split; [apply Horigin|].
  intros [Hout (f & Hf & Hsep & Hhd)].
  destruct (first_loop_facts get_field_info M args _ _ rf Hloop)
    as (_ & Hvisited & _).
  destruct (Hvisited f) as (fname & tl & mf & Hs & Hfn & _).
  { apply elem_of_app. by left. }
  { by apply is_related_sep. }
  rewrite Hs in Hhd. simpl in Hhd. injection Hhd as ->.
  by apply elem_of_app in Hfn as [Hfn|Hfn].
Qed.

(** X20: a given name that is a relation of the model with a related
    model is declared as a related filter, on a filter set of that related
    model -- also when no path below it was given. *)
Theorem relation_name_gets_related_filter cache m args kwargs cls f
    (rel : Model) :
  coherent cache ->
  (create_filter_class (Some m) args kwargs cache).1 = Ok cls ->
  f ∈ args -> contains SEP f = false -> related_model_at m f = Some rel ->
  exists nested,
    declared_filters cls !! f = Some (RelatedFilter nested f) /\
    Meta_model nested = Some rel.
Proof.
  intros Hc Hrun Hf Hsep Hrel. rewrite create_filter_class_run in Hrun by done.
  destruct (create_shape (Some m) args kwargs cls Hrun)
    as (ext & rf & rc & Hloop & _ & _ & Hfields & Hin & _ & Hrc & Hsome & _).
  destruct (first_loop_facts get_field_info (Some m) args _ _ rf Hloop)
    as (_ & Hvisited & _).
  destruct (Hvisited f) as (fname & tl & mf & Hs & _ & Hmf & _).
  { apply elem_of_app. by left. }
  { by rewrite is_related_some, Hrel, Hsep. }
  rewrite (split_no_sep SEP f SEP_not_empty Hsep) in Hs. injection Hs as <- _.
  destruct (Hsome f) as [nested Hnested]; [eauto|].
  destruct (Hrc f nested Hnested) as (rel' & mf' & _ & Hrel' & Hcreate).
  rewrite related_model_of_some, Hrel in Hrel'. injection Hrel' as <-.
  destruct (create_shape (Some rel) mf' ∅ nested Hcreate)
    as (_ & _ & _ & _ & _ & _ & _ & _ & _ & _ & _ & Hmodel & _).
  exists nested. split; [|done].
  destruct (Hin f) as [_ ->].
  - rewrite Hfields. apply elem_of_app. left. by apply list_elem_of_filter.
  - unfold filter_for. by rewrite Hnested.
Qed.

(** X21: a returned class carries the model and the extra filter
    functions it was created with; every filter is declared under its own
    name; and the filter set of a related filter is one of the related
    model of that name, without any extra filter function: the functions
    are not handed down. *)
Theorem nested_sets_shape cache M args kwargs cls f :
  coherent cache ->
  (create_filter_class M args kwargs cache).1 = Ok cls ->
  Meta_model cls = M /\ extra_filters cls = kwargs /\
  (forall name, declared_filters cls !! f = Some (AllLookupsFilter name) ->
     name = f) /\
  (forall nested name,
     declared_filters cls !! f = Some (RelatedFilter nested name) ->
     name = f /\ extra_filters nested = ∅ /\
     exists m, M = Some m /\ Meta_model nested = related_model_at m f).
Proof.
  intros Hc Hrun. rewrite create_filter_class_run in Hrun by done.
  destruct (create_shape M args kwargs cls Hrun)
    as (ext & rf & rc & _ & _ & _ & _ & Hin & Hout & Hrc & _ & Hmodel & Hextra).
  split; [done|]. split; [done|].
  assert (Hdecl : forall x, declared_filters cls !! f = Some x ->
            x = filter_for rc f).
  { intros x Hx. destruct (decide (f ∈ Meta_fields cls)) as [Hf|Hn].
    - destruct (Hin f Hf) as [_ Hd]. congruence.
    - rewrite (Hout f Hn) in Hx. done. }
  split.
  - intros name Hd%Hdecl. unfold filter_for in Hd.
    destruct (rc !! f); [done|]. by injection Hd as ->.
  - intros nested name Hd%Hdecl. unfold filter_for in Hd.
    destruct (rc !! f) as [nested'|] eqn:Ef; [|done].
    injection Hd as -> ->. split; [done|].
    destruct (Hrc f nested' Ef) as (rel & mf & _ & Hrel & Hcreate).
    destruct (create_shape rel mf ∅ nested' Hcreate)
      as (_ & _ & _ & _ & _ & _ & _ & _ & _ & _ & _ & Hmodel' & Hextra').
    split; [done|].
    destruct (related_model_of_ok M f rel Hrel) as (m & -> & ->). eauto.
Qed.

(** X22: on [None] for the model -- what a relation that does not
    resolve hands to the recursive call -- and at least one name, the call
    raises the [AttributeError] of the metadata lookup on [None]; it never
    gets as far as the exception that names a missing field. *)
Theorem create_on_none_raises cache args kwargs :
  coherent cache -> args <> [] ->
  (create_filter_class None args kwargs cache).1 =
  Raise (AttributeError "'NoneType' object has no attribute '_meta'").
Proof.
  intros Hc Hne. rewrite create_filter_class_run by done.
  by apply create_none.
Qed.

(** X23: a given path that goes on below a first segment which is no
    relation of the model -- a plain field, or no field at all -- makes the
    call raise instead of returning a class. *)
Theorem path_through_non_relation_raises cache m args kwargs f fname
    (tl : list string) :
  coherent cache ->
  f ∈ args -> split SEP f = fname :: tl -> truthy (join SEP tl) = true ->
  related_model_at m fname = None ->
  exists e, (create_filter_class (Some m) args kwargs cache).1 = Raise e.
Proof.
  intros Hc Hf Hs Ht Hrel. rewrite create_filter_class_run by done.
  pose proof (create_not_out_of_fuel get_field_info model_str iteritems
                filterset_init iteritems_perm (Some m) args kwargs) as Hfuel.
  destruct (pure_create (Some m) args kwargs) as [cls|e|] eqn:E;
    [exfalso|by eauto|done].
  destruct (create_related_path get_field_info model_str iteritems
              filterset_init iteritems_perm (Some m) args kwargs cls f E Hf)
    as (fname' & tl' & rel & mf & nested & Hs' & Hrel' & Hrest & _ & Hnested & _).
  { by apply (truthy_rest_has_sep f fname tl). }
  rewrite Hs in Hs'. injection Hs' as <- <-.
  rewrite related_model_of_some, Hrel in Hrel'. injection Hrel' as <-.
  rewrite (create_none get_field_info model_str iteritems filterset_init
             None mf ∅) in Hnested; [done|done|].
  intros ->. by apply Hrest, elem_of_nil in Ht.
Qed.

(** X24: called without any name, [create_filter_class] returns -- for
    every model, [None] included, and provided the framework accepts the
    class -- a class with an empty [Meta.fields] and no declared filter,
    and does not touch the cache. *)
Theorem create_filter_class_no_names cache M kwargs :
  filterset_init (AllLookupsFilterSet M [] ∅ kwargs) = None ->
  create_filter_class M [] kwargs cache =
  (Ok (AllLookupsFilterSet M [] ∅ kwargs), cache).
Proof.
  intros Hinit. assert (Hit : iteritems ∅ = []).
  { apply Permutation_nil_r. by rewrite iteritems_perm, map_to_list_empty. }
  unfold filters.create_filter_class. simpl. unfold bind, ret. simpl.
  rewrite Hit. simpl. by rewrite Hinit.
Qed.

(** X25: the filter set of a related filter is the class
    [create_filter_class] returns for the related model and exactly the
    paths given below the name of the filter, in the order given, without
    extra filter functions. *)
Theorem nested_set_from_paths_below cache m args kwargs cls k nested :
  coherent cache ->
  (create_filter_class (Some m) args kwargs cache).1 = Ok cls ->
  declared_filters cls !! k = Some (RelatedFilter nested k) ->
  forall cache', coherent cache' ->
    (create_filter_class (related_model_at m k) (paths_below args k) ∅ cache').1
      = Ok nested.
Proof.
  intros Hc Hrun Hdecl cache' Hc'.
  rewrite create_filter_class_run in Hrun by done.
  rewrite create_filter_class_run by done.
  destruct (create_shape (Some m) args kwargs cls Hrun)
    as (ext & rf & rc & Hloop & _ & _ & _ & Hin & Hout & Hrc & _).
  assert (Hk : rc !! k = Some nested).
  { destruct (decide (k ∈ Meta_fields cls)) as [Hf|Hn].
    - destruct (Hin k Hf) as [_ Hd]. rewrite Hd in Hdecl.
      unfold filter_for in Hdecl. destruct (rc !! k); [|done].
      by injection Hdecl as ->.
    - by rewrite (Hout k Hn) in Hdecl. }
  destruct (Hrc k nested Hk) as (rel & mf & Hmf & Hrel & Hcreate).
  rewrite related_model_of_some in Hrel. injection Hrel as <-.
  pose proof (first_loop_paths_below get_field_info (Some m) args _ _ rf k Hloop)
    as Hpaths.
  rewrite Hmf in Hpaths. simpl in Hpaths. by rewrite <- Hpaths.
Qed.

(** X26: on a model, the two metadata lookups never raise:
    [_get_related_model] returns the related model of a relation and [None]
    for any other name; [_get_model_field] returns the concrete field of the
    name if there is one, else the relation of the name, and [None] exactly
    when the name is neither.  On [None] for the model both raise the
    [AttributeError] of the metadata lookup and leave the cache alone. *)
Theorem metadata_lookups cache m f :
  coherent cache ->
  (_get_related_model get_field_info (Some m) f cache).1 =
    Ok (related_model_at m f) /\
  (exists r, (_get_model_field get_field_info (Some m) f cache).1 = Ok r /\
     (r = None <-> field_exists m f = false) /\
     (forall field, fields_and_pk (get_field_info m) !! f = Some field ->
        r = Some (inl field)) /\
     (fields_and_pk (get_field_info m) !! f = None ->
        r = inr <$> relations (get_field_info m) !! f)) /\
  _get_related_model get_field_info None f cache =
    (Raise (AttributeError "'NoneType' object has no attribute '_meta'"), cache) /\
  _get_model_field get_field_info None f cache =
    (Raise (AttributeError "'NoneType' object has no attribute '_meta'"), cache).
Proof.
  intros Hc. split; [|split; [|done]].
  - destruct (_get_related_model_sim get_field_info (Some m) f cache Hc)
      as (cache' & -> & _).
    apply related_model_of_some.
  - destruct (_get_model_field_sim get_field_info (Some m) f cache Hc)
      as (cache' & -> & _).
    unfold model_field_of, filters_pure.field_exists. cbn [field_info_of rbind fst].
    destruct (fields_and_pk (get_field_info m) !! f) as [field|] eqn:E1.
    + eexists. split; [done|]. split; [|split; [by intros ? [= <-]|done]].
      rewrite bool_decide_eq_true_2 by eauto. done.
    + eexists. split; [done|]. split; [|split; [done|done]].
      rewrite (bool_decide_eq_false_2 (is_Some None)) by (by intros [? ?]).
      cbn [orb]. destruct (relations (get_field_info m) !! f) as [ri|] eqn:E2.
      * rewrite bool_decide_eq_true_2 by eauto. done.
      * rewrite bool_decide_eq_false_2 by (by intros [? ?]). done.
Qed.

End filters_more.

(** ** [filters.py]: the order of [related_fields.iteritems()] *)

Section filters_order.
Import python model_meta filters filters_pure pystr.
Context {Model ModelField ExtraFilter : Type} `{Countable Model}.
Variable get_field_info : Model -> FieldInfo Model ModelField.
Variable model_str : Model -> string.
Variable iteritems1 iteritems2 :
  gmap string (list string) -> list (string * list string).
Variable filterset_init : FilterSet Model ExtraFilter -> option exn.
Hypothesis iteritems1_perm : forall d, iteritems1 d ≡ₚ map_to_list d.
Hypothesis iteritems2_perm : forall d, iteritems2 d ≡ₚ map_to_list d.

Local Abbreviation Cache := (gmap Model (FieldInfo Model ModelField)).
Local Abbreviation coherent := (coherent get_field_info).
Local Abbreviation create_rec1 :=
  (filters_pure.create_filter_class_rec get_field_info model_str iteritems1
     filterset_init).
Local Abbreviation create_rec2 :=
  (filters_pure.create_filter_class_rec get_field_info model_str iteritems2
     filterset_init).

Lemma rfor_each_all_ok {A B : Type} (l : list A) (body : A -> B -> result B)
    (acc : B) :
  (forall x b, x ∈ l -> exists b', body x b = Ok b') ->
  exists r, rfor_each l body acc = Ok r.
Proof.
  revert acc. induction l as [|x l IH]; intros acc Hok; simpl; [eauto|].
  destruct (Hok x acc ltac:(by left)) as [b' ->]. cbn [rbind].
  apply IH. intros y b Hy. apply Hok. by right.
Qed.

Lemma create_rec_order (fuel : nat) (M : option Model) (args : list string)
    (kwargs : gmap string ExtraFilter) (cls : FilterSet Model ExtraFilter) :
  create_rec1 fuel M args kwargs = Ok cls ->
  create_rec2 fuel M args kwargs = Ok cls.
Proof.
  revert M args kwargs cls.
  induction fuel as [|fuel IH]; intros M args kwargs cls; [done|].
  cbn [filters_pure.create_filter_class_rec].
  destruct (filters_pure.related_fields_loop get_field_info (2 * length args) M 0
              (args, ∅)) as [[a rf]| |]; cbn [rbind]; [|done..].
  intros Hrun.
  match type of Hrun with
  | rbind ?r _ = _ => destruct r as [rc1| |] eqn:E1; cbn [rbind] in Hrun; [|done..]
  end.
  destruct (second_loop_spec get_field_info _ M _ _ _
              (NoDup_iteritems iteritems1 iteritems1_perm rf) E1) as [H11 H12].
  assert (Hitems : forall k mf, rf !! k = Some mf ->
            exists rel nested, related_model_of get_field_info M k = Ok rel /\
              create_rec2 fuel rel mf ∅ = Ok nested /\ rc1 !! k = Some nested).
  { intros k mf Hk.
    destruct (H11 k mf) as (rel & nested & Hrel & Hcr & Hrc).
    { by apply (elem_of_iteritems iteritems1 iteritems1_perm). }
    exists rel, nested. split; [done|]. split; [by apply IH|done]. }
  destruct (rfor_each_all_ok (iteritems2 rf)
              (related_class_step get_field_info
                 (fun rel_model model_fields => create_rec2 fuel rel_model model_fields ∅)
                 M) ∅) as [rc2 E2].
  { intros [k mf] b Hitem%(elem_of_iteritems iteritems2 iteritems2_perm).
    destruct (Hitems k mf Hitem) as (rel & nested & Hrel & Hcr & _).
    unfold related_class_step. rewrite Hrel. cbn [rbind]. rewrite Hcr. eauto. }
  rewrite E2. cbn [rbind].
  destruct (second_loop_spec get_field_info _ M _ _ _
              (NoDup_iteritems iteritems2 iteritems2_perm rf) E2) as [H21 H22].
  assert (rc2 = rc1) as ->; [|done].
  apply map_eq. intros k. destruct (rf !! k) as [mf|] eqn:Ek.
  - destruct (Hitems k mf Ek) as (rel & nested & Hrel & Hcr & ->).
    destruct (H21 k mf) as (rel' & nested' & Hrel' & Hcr' & ->).
    { by apply (elem_of_iteritems iteritems2 iteritems2_perm). }
    congruence.
  - rewrite H12, H22; [done| |].
    + intros [[k' mf] [-> Hin]]%list_elem_of_fmap.
      apply (elem_of_iteritems iteritems2 iteritems2_perm) in Hin.
      simpl in Ek. congruence.
    + intros [[k' mf] [-> Hin]]%list_elem_of_fmap.
      apply (elem_of_iteritems iteritems1 iteritems1_perm) in Hin.
      simpl in Ek. congruence.
Qed.

(** X17: the class [create_filter_class] returns does not depend on the
    order in which the dictionary of related fields hands out its items:
    a class returned under one order is returned under every other. *)
Theorem create_filter_class_order_independent (cache1 cache2 : Cache)
    (M : option Model) (args : list string) (kwargs : gmap string ExtraFilter)
    (cls : FilterSet Model ExtraFilter) :
  coherent cache1 -> coherent cache2 ->
  (filters.create_filter_class get_field_info model_str iteritems1
     filterset_init M args kwargs cache1).1 = Ok cls ->
  (filters.create_filter_class get_field_info model_str iteritems2
     filterset_init M args kwargs cache2).1 = Ok cls.
Proof.
  intros H1 H2. rewrite !create_filter_class_run by done.
  apply create_rec_order.
Qed.

End filters_order.

(** ** [filters.py]: the [qs] properties *)

Section filters_qs_facts.
Import python model_meta filters filters_pure filters_qs.
Context {Model Value QuerySet FilterT : Type} `{Countable Model}.
Local Abbreviation FilterSetInstance := (FilterSetInstance Value QuerySet FilterT).
Local Abbreviation ExtraFilter := (QuerySet -> Value -> result QuerySet).
Variable iterkeys : gmap string Value -> list string.
Variable queryset_filter : QuerySet -> gmap string Value -> QuerySet.
Variable iterkeys_kwargs : gmap string ExtraFilter -> list string.
Variable super_qs : FilterSetInstance -> result QuerySet.
Hypothesis iterkeys_perm : forall d, iterkeys d ≡ₚ (map_to_list d).*1.
Hypothesis iterkeys_kwargs_perm :
  forall d, iterkeys_kwargs d ≡ₚ (map_to_list d).*1.

Implicit Types (self : FilterSetInstance) (name : string).

Lemma elem_of_keys {A : Type} (keys : gmap string A -> list string)
    (d : gmap string A) (k : string) :
  (forall d, keys d ≡ₚ (map_to_list d).*1) ->
  k ∈ keys d <-> is_Some (d !! k).
Proof.
  intros Hperm. rewrite Hperm, list_elem_of_fmap. split.
  - intros [[k' x] [-> Hx%elem_of_map_to_list]]. eauto.
  - intros [x Hx]. exists (k, x). by rewrite elem_of_map_to_list.
Qed.

Lemma filter_kwargs_loop self (l : list string) (acc : gmap string Value) :
  (forall k, k ∈ l -> is_Some (data self !! k)) ->
  exists acc',
    rfor_each l (filter_kwargs_step self) acc = Ok acc' /\
    forall k, acc' !! k =
      if bool_decide (k ∈ l /\ is_Some (filters self !! k))
      then data self !! k else acc !! k.
Proof.
  revert acc. induction l as [|x l IH]; intros acc Hkeys.
  - exists acc. split; [done|]. intros k.
    rewrite bool_decide_eq_false_2; [done|]. by intros [?%elem_of_nil _].
  - cbn [rfor_each]. unfold filter_kwargs_step at 1.
    destruct (Hkeys x ltac:(by left)) as [v Hv]. rewrite Hv.
    assert (Hl : forall k, k ∈ l -> is_Some (data self !! k)).
    { intros k Hk. apply Hkeys. by right. }
    case_bool_decide as Hx; cbn [rbind].
    + destruct (IH (<[x := v]> acc) Hl) as (acc' & -> & Hacc').
      exists acc'. split; [done|]. intros k. rewrite Hacc'.
      destruct (decide (k = x)) as [->|Hne].
      * rewrite lookup_insert_eq, <- Hv.
        rewrite (bool_decide_eq_true_2 (x ∈ x :: l /\ _)); [|split; [by left|done]].
        by case_bool_decide.
      * rewrite lookup_insert_ne by done.
        apply (f_equal (fun b : bool => if b then _ else _)).
        apply bool_decide_ext. rewrite elem_of_cons.
        split; [intros [? ?]; split; [by right|done]|].
        intros [[->|?] ?]; [done|by split].
    + destruct (IH acc Hl) as (acc' & -> & Hacc').
      exists acc'. split; [done|]. intros k. rewrite Hacc'.
      apply (f_equal (fun b : bool => if b then _ else _)).
      apply bool_decide_ext. rewrite elem_of_cons.
        split; [intros [? ?]; split; [by right|done]|].
        intros [[->|?] ?]; [done|by split].
Qed.

(** X11: [NoValidationFilterSet.qs] filters the queryset by exactly the
    request parameters whose name is a filter of the set, each with its
    value; parameters under other names are passed over, and no lookup
    fails. *)
Theorem NoValidationFilterSet_qs_kwargs self :
  NoValidationFilterSet_qs iterkeys queryset_filter self =
  Ok (queryset_filter (queryset self)
        (filter (fun item => is_Some (filters self !! item.1)) (data self))).
Proof.
  unfold NoValidationFilterSet_qs.
  destruct (filter_kwargs_loop self (iterkeys (data self)) ∅) as (kw & -> & Hkw).
  { intros k. by apply elem_of_keys. }
  cbn [rbind]. do 2 f_equal. apply map_eq. intros k. rewrite Hkw.
  destruct (data self !! k) as [v|] eqn:Ev.
  - case_bool_decide as Hk; symmetry.
    + apply map_lookup_filter_Some_2; [done|]. by destruct Hk.
    + rewrite lookup_empty. apply map_lookup_filter_None_2. right.
      intros v' _ Hf. apply Hk. split; [|done].
      apply (elem_of_keys iterkeys); [done|]. by rewrite Ev.
  - rewrite lookup_empty. rewrite (map_lookup_filter_None_2 _ _ k) by (by left).
    by case_bool_decide.
Qed.

Lemma extra_filter_loop_idle (kwargs : gmap string ExtraFilter) self
    (l : list string) (qs : QuerySet) :
  (forall name, name ∈ l -> data self !! name = None) ->
  rfor_each l (extra_filter_step kwargs self) qs = Ok qs.
Proof.
  induction l as [|x l IH]; intros Hidle; [done|].
  cbn [rfor_each]. unfold extra_filter_step at 1.
  rewrite (Hidle x) by (by left). cbn [rbind].
  apply IH. intros name Hname. apply Hidle. by right.
Qed.

Lemma extra_filter_loop_one (kwargs : gmap string ExtraFilter) self
    (l : list string) (qs : QuerySet) name (fn : ExtraFilter) (v : Value) :
  NoDup l -> name ∈ l ->
  kwargs !! name = Some fn -> data self !! name = Some v ->
  (forall other, other ∈ l -> other <> name -> data self !! other = None) ->
  rfor_each l (extra_filter_step kwargs self) qs = fn qs v.
Proof.
  intros Hnd Hin Hfn Hv. induction l as [|x l IH]; intros Hidle.
  { by apply elem_of_nil in Hin. }
  apply NoDup_cons in Hnd as [Hx Hnd]. cbn [rfor_each].
  unfold extra_filter_step at 1.
  destruct (decide (x = name)) as [->|Hne].
  - rewrite Hv, Hfn. destruct (fn qs v) as [qs'| |]; cbn [rbind]; [|done..].
    apply extra_filter_loop_idle. intros other Hother.
    apply Hidle; [by right|]. by intros ->.
  - rewrite (Hidle x) by (done || by left). cbn [rbind].
    apply IH; [done| |].
    + apply elem_of_cons in Hin as [->|Hin]; done.
    + intros other Hother. apply Hidle. by right.
Qed.

(** X12: [AllLookupsFilterSet.qs] runs an extra filter function only for
    a parameter of the request: when no parameter bears the name of an
    extra filter, the queryset of the base class is returned as it is; when
    exactly one does, the result is what its function makes of that
    queryset and the value of the parameter. *)
Theorem AllLookupsFilterSet_qs_extra (cls : FilterSet Model ExtraFilter) self
    (qs0 : QuerySet) :
  super_qs self = Ok qs0 ->
  ((forall name, is_Some (extra_filters cls !! name) -> data self !! name = None) ->
   AllLookupsFilterSet_qs iterkeys_kwargs super_qs cls self = Ok qs0) /\
  (forall name (fn : ExtraFilter) (v : Value),
     extra_filters cls !! name = Some fn -> data self !! name = Some v ->
     (forall other, other <> name -> is_Some (extra_filters cls !! other) ->
        data self !! other = None) ->
     AllLookupsFilterSet_qs iterkeys_kwargs super_qs cls self = fn qs0 v).
Proof.
  intros Hsuper. unfold AllLookupsFilterSet_qs. rewrite Hsuper. cbn [rbind].
  split.
  - intros Hidle. apply extra_filter_loop_idle.
    intros name Hname. by apply Hidle, (elem_of_keys iterkeys_kwargs).
  - intros name fn v Hfn Hv Hidle. apply (extra_filter_loop_one _ _ _ _ name).
    + rewrite iterkeys_kwargs_perm. apply NoDup_fst_map_to_list.
    + apply (elem_of_keys iterkeys_kwargs); [done|]. by rewrite Hfn.
    + done.
    + done.
    + intros other Hother Hne. apply Hidle; [done|].
      by apply (elem_of_keys iterkeys_kwargs).
Qed.

End filters_qs_facts.

Section filters_more_examples.
Import python model_meta filters filters_pure filters_qs pystr example example_more.

Lemma example_reversed_perm (d : gmap string (list string)) :
  iteritems_reversed d ≡ₚ map_to_list d.
Proof. apply reverse_Permutation. Defined.

Lemma example_warm_cache_coherent : coherent example.get_field_info warm_cache.
Proof.
  intros m info Hm. unfold warm_cache in Hm.
  apply lookup_singleton_Some in Hm as [<- <-]. reflexivity.
Defined.

Lemma example_data_keys_perm (d : gmap string string) :
  data_keys d ≡ₚ (map_to_list d).*1.
Proof. reflexivity. Defined.

Lemma example_kwargs_keys_perm
    (d : gmap string (conditions -> string -> result conditions)) :
  kwargs_keys d ≡ₚ (map_to_list d).*1.
Proof. reflexivity. Defined.

(** A class with two nested filter sets, built under both orders. *)
Example create_two_nested :
  exists cls,
    (example.create (Some "Post") ["tags__label"; "author__name"]).1 = Ok cls /\
    (create_reversed (Some "Post") ["tags__label"; "author__name"]).1 = Ok cls /\
    Meta_fields cls = ["tags"; "author"].
Proof. eexists. vm_compute. repeat split. Qed.

Example create_through_plain_field :
  (example.create (Some "Post") ["title__length"]).1 =
  Raise (AttributeError "'NoneType' object has no attribute '_meta'").
Proof. vm_compute. reflexivity. Qed.

Example post_filterset_qs :
  NoValidationFilterSet_qs data_keys queryset_filter post_filterset =
    Ok [("title", "Hello")] /\
  AllLookupsFilterSet_qs kwargs_keys post_super_qs post_filter_class post_filterset =
    Ok [("created__gte", "7")].
Proof. vm_compute. split; reflexivity. Qed.

Lemma create_filter_class_cache_independent_witness :
  (filters.create_filter_class example.get_field_info example.model_str
     example.iteritems example.filterset_init (Some "Post")
     ["title"; "author__name"] (∅ : gmap string unit) ∅).1 =
  (filters.create_filter_class example.get_field_info example.model_str
     example.iteritems example.filterset_init (Some "Post")
     ["title"; "author__name"] (∅ : gmap string unit) warm_cache).1.
Proof.
  apply (create_filter_class_cache_independent example.get_field_info
           example.model_str example.iteritems example.filterset_init
           ∅ warm_cache (Some "Post") ["title"; "author__name"] ∅).
  - exact example_cache_coherent.
  - exact example_warm_cache_coherent.
Defined.

Lemma create_filter_class_terminates_witness :
  (exists cls, (example.create (Some "Post") ["title"; "author__name"]).1 = Ok cls) \/
  (exists e, (example.create (Some "Post") ["title"; "author__name"]).1 = Raise e).
Proof.
  apply (create_filter_class_terminates example.get_field_info example.model_str
           example.iteritems example.filterset_init example_iteritems_perm
           ∅ (Some "Post") ["title"; "author__name"] ∅).
  exact example_cache_coherent.
Defined.

Lemma create_filter_class_order_independent_witness :
  exists cls,
    (example.create (Some "Post") ["tags__label"; "author__name"]).1 = Ok cls /\
    (create_reversed (Some "Post") ["tags__label"; "author__name"]).1 = Ok cls.
Proof.
  destruct (example.create (Some "Post") ["tags__label"; "author__name"]).1
    as [cls| |] eqn:E; [|vm_compute in E; discriminate E..].
  exists cls. split; [reflexivity|].
  apply (create_filter_class_order_independent example.get_field_info
           example.model_str example.iteritems iteritems_reversed
           example.filterset_init example_iteritems_perm example_reversed_perm
           ∅ ∅ (Some "Post") ["tags__label"; "author__name"] ∅ cls
           example_cache_coherent example_cache_coherent E).
Defined.

Lemma declared_filters_are_meta_fields_witness :
  exists cls,
    (example.create (Some "Post") ["title"; "author__name"]).1 = Ok cls /\
    (is_Some (declared_filters cls !! "author") <-> "author" ∈ Meta_fields cls) /\
    ("author" ∈ Meta_fields cls ->
       contains RELATED_FIELD_SEP "author" = false /\
       exists m, Some "Post" = Some m /\
         field_exists example.get_field_info m "author" = true).
Proof.
  destruct (example.create (Some "Post") ["title"; "author__name"]).1
    as [cls| |] eqn:E; [|vm_compute in E; discriminate E..].
  exists cls. split; [reflexivity|].
  apply (declared_filters_are_meta_fields example.get_field_info
           example.model_str example.iteritems example.filterset_init
           example_iteritems_perm ∅ (Some "Post") ["title"; "author__name"] ∅
           cls "author" example_cache_coherent E).
Defined.

Lemma meta_fields_from_args_witness :
  exists cls ext,
    (example.create (Some "Post") ["title"; "author__name"]).1 = Ok cls /\
    Meta_fields cls =
      filter (fun f => contains RELATED_FIELD_SEP f = false)
        ["title"; "author__name"] ++ ext /\
    NoDup ext /\
    forall g, g ∈ ext <->
      (g ∉ ["title"; "author__name"]) /\
      exists f, f ∈ ["title"; "author__name"] /\
        contains RELATED_FIELD_SEP f = true /\
        head (split RELATED_FIELD_SEP f) = Some g.
Proof.
  destruct (example.create (Some "Post") ["title"; "author__name"]).1
    as [cls| |] eqn:E; [|vm_compute in E; discriminate E..].
  destruct (meta_fields_from_args example.get_field_info
              example.model_str example.iteritems example.filterset_init
              example_iteritems_perm ∅ (Some "Post") ["title"; "author__name"] ∅
              cls example_cache_coherent E) as (ext & H1 & H2 & H3).
  exists cls, ext. split; [reflexivity|]. split; [exact H1|].
  split; [exact H2|exact H3].
Defined.

Lemma relation_name_gets_related_filter_witness :
  exists cls nested,
    (example.create (Some "Post") ["author"]).1 = Ok cls /\
    declared_filters cls !! "author" = Some (RelatedFilter nested "author") /\
    Meta_model nested = Some "Author".
Proof.
  destruct (example.create (Some "Post") ["author"]).1
    as [cls| |] eqn:E; [|vm_compute in E; discriminate E..].
  destruct (relation_name_gets_related_filter example.get_field_info
              example.model_str example.iteritems example.filterset_init
              example_iteritems_perm ∅ "Post" ["author"] ∅ cls "author" "Author"
              example_cache_coherent E) as (nested & H1 & H2).
  - apply list_elem_of_here.
  - reflexivity.
  - reflexivity.
  - exists cls, nested. repeat split; assumption.
Defined.

Lemma nested_sets_shape_witness :
  exists cls,
    (example.create (Some "Post") ["title"; "author__name"]).1 = Ok cls /\
    Meta_model cls = Some "Post" /\ extra_filters cls = ∅ /\
    (forall name, declared_filters cls !! "author" = Some (AllLookupsFilter name) ->
       name = "author") /\
    (forall nested name,
       declared_filters cls !! "author" = Some (RelatedFilter nested name) ->
       name = "author" /\ extra_filters nested = ∅ /\
       exists m, Some "Post" = Some m /\
         Meta_model nested = related_model_at example.get_field_info m "author").
Proof.
  destruct (example.create (Some "Post") ["title"; "author__name"]).1
    as [cls| |] eqn:E; [|vm_compute in E; discriminate E..].
  exists cls. split; [reflexivity|].
  apply (nested_sets_shape example.get_field_info
           example.model_str example.iteritems example.filterset_init
           example_iteritems_perm ∅ (Some "Post") ["title"; "author__name"] ∅
           cls "author" example_cache_coherent E).
Defined.

Lemma create_on_none_raises_witness :
  (example.create None ["name"]).1 =
  Raise (AttributeError "'NoneType' object has no attribute '_meta'").
Proof.
  apply (create_on_none_raises example.get_field_info example.model_str
           example.iteritems example.filterset_init ∅ ["name"] ∅).
  - exact example_cache_coherent.
  - discriminate.
Defined.

Lemma path_through_non_relation_raises_witness :
  exists e, (example.create (Some "Post") ["id"; "title__length"]).1 = Raise e.
Proof.
  apply (path_through_non_relation_raises example.get_field_info
           example.model_str example.iteritems example.filterset_init
           example_iteritems_perm ∅ "Post" ["id"; "title__length"] ∅
           "title__length" "title" ["length"]).
  - exact example_cache_coherent.
  - apply list_elem_of_further, list_elem_of_here.
  - reflexivity.
  - reflexivity.
  - reflexivity.
Defined.

Lemma NoValidationFilterSet_qs_kwargs_witness :
  NoValidationFilterSet_qs data_keys queryset_filter post_filterset =
  Ok (queryset_filter (queryset post_filterset)
        (filter (fun item => is_Some (filters post_filterset !! item.1))
           (data post_filterset))).
Proof.
  apply (NoValidationFilterSet_qs_kwargs data_keys queryset_filter
           example_data_keys_perm post_filterset).
Defined.

Lemma AllLookupsFilterSet_qs_extra_witness :
  AllLookupsFilterSet_qs kwargs_keys post_super_qs post_filter_class post_filterset =
  recent [] "7".
Proof.
  destruct (AllLookupsFilterSet_qs_extra kwargs_keys post_super_qs
              example_kwargs_keys_perm post_filter_class post_filterset []
              eq_refl) as [_ Hone].
  apply (Hone "recent" recent "7").
  - reflexivity.
  - reflexivity.
  - intros other Hne [fn Hfn]. simpl in Hfn.
    apply lookup_insert_Some in Hfn as [[<- _]|[_ Hfn]]; [done|].
    apply lookup_singleton_Some in Hfn as [<- _]. reflexivity.
Defined.

Lemma create_filter_class_no_names_witness :
  filters.create_filter_class example.get_field_info example.model_str
    example.iteritems example.filterset_init None [] (∅ : gmap string unit)
    warm_cache =
  (Ok (AllLookupsFilterSet None [] ∅ ∅), warm_cache).
Proof.
  apply (create_filter_class_no_names example.get_field_info example.model_str
           example.iteritems example.filterset_init example_iteritems_perm
           warm_cache None ∅).
  reflexivity.
Defined.

Lemma nested_set_from_paths_below_witness :
  exists cls nested,
    (example.create (Some "Post") ["author__name"; "title"; "author__id"]).1
      = Ok cls /\
    declared_filters cls !! "author" = Some (RelatedFilter nested "author") /\
    paths_below ["author__name"; "title"; "author__id"] "author" = ["name"; "id"] /\
    (filters.create_filter_class example.get_field_info example.model_str
       example.iteritems example.filterset_init
       (related_model_at example.get_field_info "Post" "author")
       (paths_below ["author__name"; "title"; "author__id"] "author")
       (∅ : gmap string unit) warm_cache).1 = Ok nested.
Proof.
  destruct (example.create (Some "Post") ["author__name"; "title"; "author__id"]).1
    as [cls| |] eqn:E; [|vm_compute in E; discriminate E..].
  destruct (declared_filters cls !! "author") as [[name|nested name]|] eqn:Ed;
    [vm_compute in E; injection E as <-; vm_compute in Ed; discriminate Ed| |
     vm_compute in E; injection E as <-; vm_compute in Ed; discriminate Ed].
  assert (name = "author") as ->.
  { vm_compute in E. injection E as <-. vm_compute in Ed. by injection Ed as _ <-. }
  exists cls, nested. split; [reflexivity|]. split; [exact Ed|].
  split; [vm_compute; reflexivity|].
  apply (nested_set_from_paths_below example.get_field_info example.model_str
           example.iteritems example.filterset_init example_iteritems_perm
           ∅ "Post" ["author__name"; "title"; "author__id"] ∅ cls "author" nested
           example_cache_coherent E Ed warm_cache example_warm_cache_coherent).
Defined.

Lemma metadata_lookups_witness :
  (_get_related_model example.get_field_info (Some "Post") "title" warm_cache).1 =
    Ok (related_model_at example.get_field_info "Post" "title") /\
  related_model_at example.get_field_info "Post" "title" = None.
Proof.
  split; [|reflexivity].
  apply (metadata_lookups example.get_field_info warm_cache "Post" "title"
           example_warm_cache_coherent).
Defined.

End filters_more_examples.

(** ** [filters.py]: a name that does not exist on the model *)

Section filters_missing_field.
Import python model_meta filters filters_pure pystr.
Context {Model ModelField ExtraFilter : Type} `{Countable Model}.
Variable get_field_info : Model -> FieldInfo Model ModelField.
Variable model_str : Model -> string.
Variable iteritems :
  gmap string (list string) -> list (string * list string).
Variable filterset_init : FilterSet Model ExtraFilter -> option exn.
Hypothesis iteritems_perm : forall d, iteritems d ≡ₚ map_to_list d.

Local Abbreviation Cache := (gmap Model (FieldInfo Model ModelField)).
Local Abbreviation SEP := RELATED_FIELD_SEP.
Local Abbreviation coherent := (coherent get_field_info).
Local Abbreviation is_related := (is_related get_field_info).
Local Abbreviation loop := (filters_pure.related_fields_loop get_field_info).
Local Abbreviation related_model_at := (related_model_at get_field_info).
Local Abbreviation field_exists := (field_exists get_field_info).
Local Abbreviation nested_key := (nested_key get_field_info).
Local Abbreviation create_filter_class :=
  (filters.create_filter_class get_field_info model_str iteritems filterset_init).
Local Abbreviation pure_create :=
  (filters_pure.create_filter_class get_field_info model_str iteritems
     filterset_init).

Implicit Types (args : list string) (f g k fname : string) (m : Model).
Implicit Types (cache : Cache) (kwargs : gmap string ExtraFilter).

(** Every key of [related_fields] is a name the second loop builds a
    nested filter set for, from the paths given below it. *)
Lemma first_loop_nested_key m args fuel a (rf : gmap string (list string)) k
    (mf : list string) :
  loop fuel (Some m) 0 (args, ∅) = Ok (a, rf) -> rf !! k = Some mf ->
  nested_key m args k /\ mf = paths_below args k.
Proof.
  intros Hloop Hk. split.
  - destruct (first_loop_facts get_field_info (Some m) args _ a rf Hloop)
      as (_ & _ & Hkeys).
    destruct (Hkeys k mf Hk) as [(g & Hg & Hrel & Hhd) _].
    destruct (first_loop_appended get_field_info (Some m) args _ a rf Hloop)
      as (ext & -> & _ & Horigin & _).
    apply elem_of_app in Hg as [Hg|Hg].
    + exists g. split; [done|]. split; [done|].
      rewrite is_related_some in Hrel. injection Hrel as Hrel.
      apply orb_true_iff in Hrel as [Hsep|Hr]; [by left|right].
      by apply bool_decide_eq_true_1 in Hr.
    + destruct (Horigin g Hg) as [_ (f & Hf & Hsep & Hf_hd)].
      assert (Hplain : contains SEP g = false).
      { destruct (split SEP f) as [|w ws] eqn:Es; [done|].
        simpl in Hf_hd. injection Hf_hd as ->.
        by apply (split_head_no_sep SEP f g ws SEP_not_empty). }
      rewrite (split_no_sep SEP g SEP_not_empty Hplain) in Hhd.
      simpl in Hhd. injection Hhd as <-.
      exists f. split; [done|]. split; [done|by left].
  - pose proof (first_loop_paths_below get_field_info (Some m) args _ a rf k Hloop)
      as Hpaths.
    by rewrite Hk in Hpaths.
Qed.

(** A missing name stops the call: with the exception of one of the
    nested calls the second loop makes, or else with the one that names the
    first missing name. *)
Lemma create_missing_field_built m (pre post : list string) f kwargs :
  (forall g, g ∈ pre -> contains SEP g = false -> field_exists m g = true) ->
  contains SEP f = false -> field_exists m f = false ->
  pure_create (Some m) (pre ++ f :: post) kwargs =
    Raise (Exception (missing_field_message model_str f (Some m))) \/
  exists k e,
    nested_key m (pre ++ f :: post) k /\
    pure_create (related_model_at m k) (paths_below (pre ++ f :: post) k) ∅
      = Raise e /\
    pure_create (Some m) (pre ++ f :: post) kwargs = Raise e.
Proof.
  intros Hpre Hsep Hmiss. set (args := pre ++ f :: post).
  pose proof (create_not_out_of_fuel get_field_info model_str iteritems
                filterset_init iteritems_perm (Some m) args kwargs) as Hfuel.
  unfold filters_pure.create_filter_class in *.
  cbn [filters_pure.create_filter_class_rec] in *.
  pose proof (first_loop_not_out_of_fuel get_field_info (Some m) args) as Hl1.
  destruct (loop (2 * length args) (Some m) 0 (args, ∅)) as [[a rf]|e|] eqn:El;
    [|by apply loop_some_not_raise in El|done].
  cbn [rbind] in *.
  destruct (first_loop_facts get_field_info (Some m) args _ a rf El)
    as ((ext & Ha & _) & _ & _). simpl in Ha.
  match goal with
  | |- context [rbind ?r _] => destruct r as [rc|e|] eqn:E2
  end; cbn [rbind] in *; [| |done].
  - left. rewrite Ha. unfold args. rewrite <- app_assoc, <- app_comm_cons.
    rewrite (third_loop_raises get_field_info model_str (Some m) rc pre
               (post ++ ext) f
               (Exception (missing_field_message model_str f (Some m)))); try done.
    + intros g Hg Hgs. rewrite validate_field_some. by rewrite (Hpre g Hg Hgs).
    + rewrite validate_field_some. by rewrite Hmiss.
  - right. apply rfor_each_raise in E2 as ([k mf] & b & Hitem & Hbody).
    apply (elem_of_iteritems iteritems iteritems_perm) in Hitem.
    unfold related_class_step in Hbody.
    rewrite related_model_of_some in Hbody. cbn [rbind] in Hbody.
    match type of Hbody with
    | rbind ?r _ = _ => destruct r as [nested|e'|] eqn:Ecr
    end; cbn [rbind] in Hbody; [done| |done].
    injection Hbody as ->.
    destruct (first_loop_nested_key m args _ a rf k mf El Hitem) as [Hkey ->].
    exists k, e. split; [done|]. split; [|done].
    rewrite <- Ecr. symmetry.
    apply (create_rec_create get_field_info model_str iteritems filterset_init
             iteritems_perm).
    pose proof (first_loop_depth get_field_info (Some m) args _ a rf k _ El Hitem).
    lia.
Qed.

(** C5 (amended): a name without separator that does not exist on the
    model makes the call raise instead of returning a class; when the names
    before it exist and none of the nested filter sets the call builds --
    one for the first segment of every given name that holds the separator
    or is a relation, from the paths given below that segment -- raises, the
    exception is the one that names this field and the model. *)
Theorem missing_field_raises cache m (pre post : list string) f kwargs :
  coherent cache ->
  contains SEP f = false -> field_exists m f = false ->
  (exists e, (create_filter_class (Some m) (pre ++ f :: post) kwargs cache).1
             = Raise e) /\
  ((forall g, g ∈ pre -> contains SEP g = false -> field_exists m g = true) ->
   (forall k e, nested_key m (pre ++ f :: post) k ->
      (create_filter_class (related_model_at m k)
         (paths_below (pre ++ f :: post) k) ∅ cache).1 <> Raise e) ->
   (create_filter_class (Some m) (pre ++ f :: post) kwargs cache).1 =
     Raise (Exception (missing_field_message model_str f (Some m)))).
Proof.
  intros Hc Hsep Hmiss. rewrite create_filter_class_run by done. split.
  - pose proof (create_not_out_of_fuel get_field_info model_str iteritems
                  filterset_init iteritems_perm (Some m) (pre ++ f :: post) kwargs)
      as Hfuel.
    destruct (pure_create (Some m) (pre ++ f :: post) kwargs) as [cls|e|] eqn:E;
      [exfalso|by eauto|done].
    destruct (create_anatomy get_field_info model_str iteritems filterset_init
                iteritems_perm (Some m) _ kwargs cls E)
      as (a & rf & rc & Hloop & _ & _ & Hattrs & _).
    destruct (first_loop_facts get_field_info (Some m) _ _ a rf Hloop)
      as ((ext & Ha & _) & _). simpl in Ha.
    destruct (Hattrs f) as (Hv & _); [|done|].
    + rewrite Ha, <- app_assoc. apply elem_of_app. right. by left.
    + rewrite validate_field_some, Hmiss in Hv. done.
  - intros Hpre Hnested.
    destruct (create_missing_field_built m pre post f kwargs Hpre Hsep Hmiss)
      as [Hfirst|(k & e & Hkey & Hraise & _)]; [done|].
    exfalso. apply (Hnested k e Hkey).
    by rewrite create_filter_class_run.
Qed.

End filters_missing_field.

Section filters_missing_field_examples.
Import python model_meta filters filters_pure pystr example.

(** A missing name after a path below a relation: the nested filter set
    of the relation is built, then the name is found missing. *)
Lemma missing_field_raises_witness :
  (exists e, (example.create (Some "Post") ["author__name"; "ghost"]).1 = Raise e) /\
  (example.create (Some "Post") ["author__name"; "ghost"]).1 =
    Raise (Exception
             (missing_field_message example.model_str "ghost" (Some "Post"))).
Proof.
  destruct (missing_field_raises example.get_field_info example.model_str
              example.iteritems example.filterset_init example_iteritems_perm
              ∅ "Post" ["author__name"] [] "ghost" ∅ example_cache_coherent
              eq_refl eq_refl) as [Hraises Hnames].
  split; [exact Hraises|]. apply Hnames.
  - intros g Hg Hplain. apply elem_of_cons in Hg as [->|Hg]; [|inversion Hg].
    discriminate Hplain.
  - intros k e (g & Hg & Hhd & Hrel).
    apply elem_of_cons in Hg as [->|Hg].
    { vm_compute in Hhd. injection Hhd as <-. vm_compute. discriminate. }
    apply elem_of_cons in Hg as [->|Hg]; [|inversion Hg].
    destruct Hrel as [Hrel|[rel Hrel]]; [discriminate Hrel|].
    vm_compute in Hrel. discriminate Hrel.
Defined.

End filters_missing_field_examples.
